(** * Emotion-Tree: the animated generative-tree engine

    A shallow embedding of [src/services/treeSketch.ts] (the flower-style
    variant of the sketch) and of the mood-only variant of the same sketch
    (the one with a second, "wither" latch and life-based particles).

    Numbers.  A JavaScript number is modelled by an exact rational ([Q]):
    every finite double is a rational, the comparisons of the source are
    comparisons of these rationals, and [+], [-], [*], [/] are taken
    without the rounding of IEEE-754.  Decimal literals of the source
    ([0.6], [0.1], ...) are the same decimal literals here; [Math.PI] is the
    rational value of its double.  NaN and the infinities have no
    counterpart.  Where a property depends on the rounding, the code is
    also given with its rounding: the smoothing of the signals with the
    rounding [fl] of the number format as a parameter ([lerpR]), the
    rounding of binary64 written on the rationals ([round64]), and the
    same smoothing on the binary64 numbers of Rocq ([lerp64]), with which
    [round64] is compared ([round64_agrees]).

    Library functions.  The p5 functions that the sketch calls are modelled
    from the p5 sources: [lerp(a, b, t) = t * (b - a) + a],
    [random(lo, hi) = r * (hi - lo) + lo] and [random(hi) = r * hi] for a
    draw [r] of the underlying generator,
    [map(n, a, b, c, d) = (n - a) / (b - a) * (d - c) + c].  The generator,
    the coherent noise [p.noise] and [Math.sin], [Math.cos] are oracles
    supplied by the environment.  Drawing is modelled by the list of p5
    calls that a function issues, in order. *)

From Stdlib Require Import QArith Qabs Qround Qpower ZArith Lia Bool Lqa.
From Stdlib Require Import PrimFloat SpecFloat FloatOps.
From stdpp Require Import base list.

Set Warnings "-register-all".
#[local] Open Scope Q_scope.

(* ================================================================= *)
(** * Part I: the program *)
(* ================================================================= *)

(** ** Numbers *)

(** [x < y] and [x <= y] of the source, as booleans. *)
Definition Qlt_bool (x y : Q) : bool :=
  (Qnum x * QDen y <? Qnum y * QDen x)%Z.

Notation "x <? y" := (Qlt_bool x y) : Q_scope.
Notation "x >? y" := (Qlt_bool y x) : Q_scope.
Notation "x <=? y" := (Qle_bool x y) : Q_scope.
Notation "x >=? y" := (Qle_bool y x) : Q_scope.

(** [Math.max], [Math.abs]. *)
Definition max (a b : Q) : Q := if a <? b then b else a.
Definition abs (x : Q) : Q := Qabs x.

(** [Math.PI] is the double 3.141592653589793 = 884279719003555 / 2^48. *)
Definition PI : Q := 884279719003555 # 281474976710656.
Definition TWO_PI : Q := 2 * PI.

(** ** The random source *)

(** A computation that draws from the generator: the state is the number
    of draws made so far, [rnd k] is the value of draw number [k]. *)
Definition Gen (A : Type) : Type := nat -> A * nat.

Definition ret {A} (a : A) : Gen A := fun k => (a, k).
Definition bind {A B} (m : Gen A) (f : A -> Gen B) : Gen B :=
  fun k => let '(a, k') := m k in f a k'.

Notation "'let*' x ':=' m 'in' f" := (bind m (fun x => f))
  (at level 10, x name, m at level 100, f at level 200).

Section Random.
Variable rnd : nat -> Q.

Definition rand : Gen Q := fun k => (rnd k, S k).

(** [p.random(lo, hi)] (the source never passes [lo > hi]). *)
Definition random2 (lo hi : Q) : Gen Q :=
  let* r := rand in ret (r * (hi - lo) + lo).

(** [p.random(hi)]. *)
Definition random1 (hi : Q) : Gen Q :=
  let* r := rand in ret (r * hi).
End Random.

(** [p.map(n, start1, stop1, start2, stop2)], without clamping. *)
Definition map_range (n start1 stop1 start2 stop2 : Q) : Q :=
  (n - start1) / (stop1 - start1) * (stop2 - start2) + start2.

(** ** Signal smoothing *)

(** p5: [lerp(start, stop, amt) = amt * (stop - start) + start]. *)
Definition lerp (start stop amt : Q) : Q := amt * (stop - start) + start.

(** [currentMood = p.lerp(currentMood, state.mood, 0.1)]. *)
Definition smoothMood (currentMood mood : Q) : Q := lerp currentMood mood 0.1.

(** [currentWind = p.lerp(currentWind, targetWind, 0.12)]. *)
Definition smoothWind (currentWind targetWind : Q) : Q :=
  lerp currentWind targetWind 0.12.

(** The smoothed mood after [n] frames with the constant target [m]. *)
Fixpoint moodAfter (n : nat) (s0 m : Q) : Q :=
  match n with
  | O => s0
  | S k => smoothMood (moodAfter k s0 m) m
  end.

(** Distance of the smoothed value to its target. *)
Definition dist (s m : Q) : Q := abs (s - m).

(** The same [lerp] on binary64 numbers, with the rounding of IEEE-754, to
    compare the exact model with the arithmetic of the source. *)
Definition lerp64 (start stop amt : PrimFloat.float) : PrimFloat.float :=
  PrimFloat.add (PrimFloat.mul amt (PrimFloat.sub stop start)) start.

(** [currentMood = p.lerp(currentMood, state.mood, 0.1)] on binary64: the
    literal [0.1] is the double [0x1.999999999999ap-4]. *)
Definition smoothMood64 (currentMood mood : PrimFloat.float) : PrimFloat.float :=
  lerp64 currentMood mood 0x1.999999999999ap-4%float.


(** *** Smoothing in a number format

    [fl] stands for the rounding of the number format: every literal and
    every result of [+], [-], [*] is rounded by it, as the source's
    arithmetic does.  With [fl] the identity this is the exact model
    above. *)

Section Rounded.
Variable fl : Q -> Q.

(** p5: [lerp(start, stop, amt) = amt * (stop - start) + start]. *)
Definition lerpR (start stop amt : Q) : Q :=
  fl (fl (amt * fl (stop - start)) + start).

(** [currentMood = p.lerp(currentMood, state.mood, 0.1)]. *)
Definition smoothMoodR (currentMood mood : Q) : Q :=
  lerpR currentMood mood (fl 0.1).

(** [currentWind = p.lerp(currentWind, targetWind, 0.12)]. *)
Definition smoothWindR (currentWind targetWind : Q) : Q :=
  lerpR currentWind targetWind (fl 0.12).

(** The smoothed mood after [n] frames with the constant target [m]. *)
Fixpoint moodAfterR (n : nat) (s0 m : Q) : Q :=
  match n with
  | O => s0
  | S k => smoothMoodR (moodAfterR k s0 m) m
  end.

End Rounded.

(** What is assumed of the rounding [fl] on the range [[-R, R]], and what
    round-to-nearest of binary64 provides with [R] its largest finite
    number ([rounds_round64]): it keeps the order, leaves 0 and its own
    results as they are, and moves no number further from 0 than to twice
    its size.  Beyond [R] a result overflows and nothing is assumed. *)
Definition rounds (fl : Q -> Q) (R : Q) : Prop :=
  (forall x y, - R <= x -> x <= y -> y <= R -> fl x <= fl y) /\
  fl 0 == 0 /\
  (forall x, - R <= x <= R -> fl (fl x) == fl x) /\
  (forall x, 0 <= x <= R -> fl x <= 2 * x) /\
  (forall x, - R <= x <= 0 -> 2 * x <= fl x).

(** *** The rounding of binary64

    Round-to-nearest, ties to even, onto the numbers [n * 2^e] with
    [|n| < 2^53] and [e >= -1074], written on the rationals.  It is the
    rounding of the source's numbers wherever the result is finite, that is
    up to [maxDouble]. *)

(** The nearest integer, a tie to the even one. *)
Definition Qrne (q : Q) : Z :=
  let f := Qfloor q in
  match Qcompare (q - inject_Z f) (1 # 2) with
  | Lt => f
  | Gt => (f + 1)%Z
  | Eq => if Z.even f then f else (f + 1)%Z
  end.

Definition pow2 (e : Z) : Q := 2 ^ e.

(** [floor (log2 x)] for [x > 0]: the binade of [x]. *)
Definition Qlog2 (x : Q) : Z :=
  let k := (Z.log2 (Qnum x) - Z.log2 (Zpos (Qden x)))%Z in
  if Qle_bool (pow2 k) x then k else (k - 1)%Z.

(** The nearest multiple of [2^e], a tie to the even multiple. *)
Definition toMultiple (e : Z) (x : Q) : Q :=
  inject_Z (Qrne (x / pow2 e)) * pow2 e.

(** The exponent of the last place of a positive binary64 number: 52 below
    its binade, and not below -1074. *)
Definition ulpExp (x : Q) : Z := Z.max (Qlog2 x - 52) (-1074).

Definition round64 (x : Q) : Q :=
  match Qnum x with
  | Z0 => 0
  | Zpos _ => toMultiple (ulpExp x) x
  | Zneg _ => - toMultiple (ulpExp (- x)) (- x)
  end.

(** The largest finite binary64 number, [(2^53 - 1) * 2^971]. *)
Definition maxDouble : Q := inject_Z (2 ^ 1024 - 2 ^ 971).

(** The rational value of a binary64 number of Rocq, when it is finite. *)
Definition value64 (x : PrimFloat.float) : option Q :=
  match Prim2SF x with
  | S754_zero _ => Some 0
  | S754_finite s m e =>
      Some ((if s then - inject_Z (Zpos m) else inject_Z (Zpos m)) * pow2 e)
  | _ => None
  end.

Definition sameValue (x : PrimFloat.float) (q : Q) : bool :=
  match value64 x with
  | Some v => Qeq_bool v q
  | None => false
  end.

(** [+], [-] and [*] of binary64 on [a] and [b] are the exact results
    rounded by [round64]. *)
Definition opsAgree (ab : PrimFloat.float * PrimFloat.float) : bool :=
  match value64 (fst ab), value64 (snd ab) with
  | Some va, Some vb =>
      sameValue (PrimFloat.add (fst ab) (snd ab)) (round64 (va + vb))
      && sameValue (PrimFloat.sub (fst ab) (snd ab)) (round64 (va - vb))
      && sameValue (PrimFloat.mul (fst ab) (snd ab)) (round64 (va * vb))
  | _, _ => false
  end.

(** The smoothing of [n] frames toward [m] on binary64 and in the format
    of rounding [round64], side by side: the same numbers at every frame. *)
Fixpoint sameRun (n : nat) (x m : PrimFloat.float) (q mq : Q) : bool :=
  match n with
  | O => sameValue x q
  | S k =>
      sameValue x q
      && sameRun k (smoothMood64 x m) m (smoothMoodR round64 q mq) mq
  end.

(** ** The event detector *)

Inductive TreeEventType : Type := bloom | wither.

(** The calls made to the optional callback, [if (onTreeEvent)
    onTreeEvent(e)]: [onTreeEvent] tells whether the callback was
    supplied. *)
Definition emit (onTreeEvent : bool) (e : TreeEventType) : list TreeEventType :=
  if onTreeEvent then [e] else [].

(** The bloom block, the same text in both variants of the sketch. *)
Definition bloomLogic (onTreeEvent : bool) (wasBlooming : bool) (currentMood : Q)
  : bool * list TreeEventType :=
  if negb wasBlooming && (currentMood >? 0.6) then (true, emit onTreeEvent bloom)
  else if wasBlooming && (currentMood <? 0.2) then (false, [])
  else (wasBlooming, []).

(** The wither block of the mood-only variant. *)
Definition witherLogic (onTreeEvent : bool) (wasWithering : bool) (currentMood : Q)
  : bool * list TreeEventType :=
  if negb wasWithering && (currentMood <? -0.6) then (true, emit onTreeEvent wither)
  else if wasWithering && (currentMood >? -0.2) then (false, [])
  else (wasWithering, []).

(** Events tagged with the index of the frame that emitted them. *)
Definition stamp (frame : nat) (evs : list TreeEventType) : list (nat * TreeEventType) :=
  map (pair frame) evs.

(** *** [treeSketch.ts]: one latch *)

Module Detector.

Definition eventLogic := bloomLogic.

(** The detector run over the smoothed moods of consecutive frames, the
    first of them being frame number [frame]. *)
Fixpoint feedFrom (onTreeEvent : bool) (frame : nat) (wasBlooming : bool)
    (moods : list Q) : bool * list (nat * TreeEventType) :=
  match moods with
  | [] => (wasBlooming, [])
  | m :: rest =>
      let '(latch, evs) := eventLogic onTreeEvent wasBlooming m in
      let '(final, later) := feedFrom onTreeEvent (S frame) latch rest in
      (final, stamp frame evs ++ later)
  end.

(** With the callback supplied, from frame 0. *)
Definition feed (wasBlooming : bool) (moods : list Q) :=
  feedFrom true 0 wasBlooming moods.

(** The signal part of [p.draw]: smoothing, then the detector. *)
Record Signals : Type :=
  mkSignals { currentMood : Q; currentWind : Q; wasBlooming : bool }.

Definition initial : Signals := mkSignals 0 0 false.

Definition drawSignals (onTreeEvent : bool) (s : Signals) (mood windForce : Q)
  : Signals * list TreeEventType :=
  let currentMood' := smoothMood (currentMood s) mood in
  let currentWind' := smoothWind (currentWind s) windForce in
  let '(latch, evs) := eventLogic onTreeEvent (wasBlooming s) currentMood' in
  (mkSignals currentMood' currentWind' latch, evs).

(** [p.draw] over consecutive frames, each with the [mood] and [windForce]
    it reads. *)
Fixpoint drawFrames (onTreeEvent : bool) (frame : nat) (s : Signals)
    (inputs : list (Q * Q)) : Signals * list (nat * TreeEventType) :=
  match inputs with
  | [] => (s, [])
  | (mood, windForce) :: rest =>
      let '(s', evs) := drawSignals onTreeEvent s mood windForce in
      let '(final, later) := drawFrames onTreeEvent (S frame) s' rest in
      (final, stamp frame evs ++ later)
  end.

End Detector.

(** *** The mood-only variant: two latches *)

Module MoodDetector.

Record Latches : Type := mkLatches { wasBlooming : bool; wasWithering : bool }.

Definition initial : Latches := mkLatches false false.

Definition eventLogic (onTreeEvent : bool) (l : Latches) (currentMood : Q)
  : Latches * list TreeEventType :=
  let '(b, evb) := bloomLogic onTreeEvent (wasBlooming l) currentMood in
  let '(w, evw) := witherLogic onTreeEvent (wasWithering l) currentMood in
  (mkLatches b w, evb ++ evw).

Fixpoint feedFrom (onTreeEvent : bool) (frame : nat) (l : Latches)
    (moods : list Q) : Latches * list (nat * TreeEventType) :=
  match moods with
  | [] => (l, [])
  | m :: rest =>
      let '(l', evs) := eventLogic onTreeEvent l m in
      let '(final, later) := feedFrom onTreeEvent (S frame) l' rest in
      (final, stamp frame evs ++ later)
  end.

Definition feed (l : Latches) (moods : list Q) := feedFrom true 0 l moods.

Definition isWither (e : nat * TreeEventType) : bool :=
  match snd e with wither => true | bloom => false end.

(** The wither events among the events of a run. *)
Fixpoint witherEvents (evs : list (nat * TreeEventType)) : list (nat * TreeEventType) :=
  match evs with
  | [] => []
  | e :: rest => if isWither e then e :: witherEvents rest else witherEvents rest
  end.

End MoodDetector.

(** ** The skeleton builder *)

Module Skeleton.

Definition MAX_DEPTH : nat := 9.

(** [interface Branch]. *)
Inductive Branch : Type := mkBranch {
  len : Q;
  thick : Q;
  depth : nat;
  angleOffset : Q;
  children : list Branch;
  noiseThreshold : Q;
  hasFlower : bool;
  lenMult : Q
}.

(** [child.angleOffset = angle; child.thick = 0]. *)
Definition setAngleThick (child : Branch) (angle t : Q) : Branch :=
  mkBranch (len child) t (depth child) angle (children child)
           (noiseThreshold child) (hasFlower child) (lenMult child).

(** [branch.children.push(child)], for every child of the loop. *)
Definition setChildren (branch : Branch) (kids : list Branch) : Branch :=
  mkBranch (len branch) (thick branch) (depth branch) (angleOffset branch)
           (children branch ++ kids)
           (noiseThreshold branch) (hasFlower branch) (lenMult branch).

(** [rootBranch.len = trunkLen; rootBranch.thick = trunkThick]. *)
Definition setLenThick (branch : Branch) (l t : Q) : Branch :=
  mkBranch l t (depth branch) (angleOffset branch) (children branch)
           (noiseThreshold branch) (hasFlower branch) (lenMult branch).

Definition ofNat (n : nat) : Q := inject_Z (Z.of_nat n).

Section Build.
Variable rnd : nat -> Q.

(** The loop [for (let i = 0; i < numBranches; i++)] of [createBranch],
    at index [i] with [todo] iterations to go; [create] is the recursive
    call [createBranch(depth + 1)], [None] when it ran out of fuel. *)
Fixpoint childLoop (create : Gen (option Branch)) (numBranches : nat)
    (baseAngle : Q) (todo i : nat) (kids : list Branch)
  : Gen (option (list Branch)) :=
  match todo with
  | O => ret (Some kids)
  | S todo' =>
      let* made := create in
      match made with
      | None => ret None
      | Some child =>
          let* jitter := random2 rnd (-0.15) 0.15 in
          let angle :=
            map_range (ofNat i) 0 (ofNat numBranches - 1) (- baseAngle) baseAngle
            + jitter in
          childLoop create numBranches baseAngle todo' (S i)
                    (kids ++ [setAngleThick child angle 0])
      end
  end.

(** [createBranch(depth)].  The source recurses on [depth + 1] while
    [depth < MAX_DEPTH]; [fuel] bounds the nesting of the calls. *)
Fixpoint createBranch (fuel : nat) (depth : nat) : Gen (option Branch) :=
  match fuel with
  | O => ret None
  | S fuel' =>
      let* threshold := random2 rnd 0.05 0.95 in
      let* coin := random1 rnd 1 in
      let* spread := random2 rnd (-0.08) 0.08 in
      let branch :=
        mkBranch 0 0 depth 0 [] threshold (coin >? 0.5) (0.72 + spread) in
      if (depth <? MAX_DEPTH)%nat then
        let numBranches := 2%nat in
        let baseAngle := PI / 5.0 in
        let* made :=
          childLoop (createBranch fuel' (S depth)) numBranches baseAngle
                    numBranches 0 [] in
        match made with
        | None => ret None
        | Some kids => ret (Some (setChildren branch kids))
        end
      else ret (Some branch)
  end.

(** [buildTreeSkeleton()] on a canvas of the given size; the result is the
    new [rootBranch].  The calls nest at most [MAX_DEPTH + 1] deep. *)
Definition buildTreeSkeleton (width height : Q) : Gen (option Branch) :=
  let isMobile := width <? 600 in
  let trunkLenRatio := if isMobile then 0.22 else 0.26 in
  let trunkLen := height * trunkLenRatio in
  let trunkThick := if width <? 600 then 18 else 28 in
  let* made := createBranch (S MAX_DEPTH) 0 in
  ret (option_map (fun root => setLenThick root trunkLen trunkThick) made).

End Build.

(** All the nodes of a tree, parents first. *)
Fixpoint nodes (b : Branch) : list Branch :=
  b :: flat_map nodes (children b).

(** What the claim asks of one node. *)
Definition wellShaped (n : Branch) : Prop :=
  (depth n <= MAX_DEPTH)%nat /\
  ((depth n < MAX_DEPTH)%nat -> length (children n) = 2%nat) /\
  (depth n = MAX_DEPTH -> children n = []) /\
  Forall (fun c => depth c = S (depth n)) (children n) /\
  0.64 <= lenMult n <= 0.80.

(** A full subtree rooted at depth [d], [h] levels high, of well-shaped
    nodes. *)
Definition builtAt (d h : nat) (b : Branch) : Prop :=
  depth b = d /\
  length (nodes b) = (2 ^ h - 1)%nat /\
  Forall wellShaped (nodes b).

End Skeleton.

(** ** Drawing: the p5 calls a function issues *)

(** The palette objects of the sketches.  A colour is named, not copied:
    the trace records which object a call was given. *)
Inductive Color : Type :=
  | COL_TRUNK_DORMANT | COL_TRUNK_THRIVE | COL_LEAF_TENDER | COL_FLOWER_PINK
  | COL_LEAF_DEAD.

Inductive DrawOp : Type :=
  | noStroke
  | fillColor (c : Color)
  | fillRGB (r g b : Q)
  | fillRGBA (r g b a : Q)
  | setAlpha (c : Color) (a : Q)      (* [p.color(c).setAlpha(a)] *)
  | push
  | pop
  | translate (x y : Q)
  | rotate (angle : Q)
  | scale (sx sy : Q)
  | beginShape
  | vertex (x y : Q)
  | quadraticVertex (cx cy x3 y3 : Q)
  | bezierVertex (x2 y2 x3 y3 x4 y4 : Q)
  | endShapeClose                      (* [p.endShape(p.CLOSE)] *)
  | ellipse (x y w h : Q)
  | circle (x y d : Q).

(** Modelled from the spec: the type [FlowerStyle] of [../types], which
    is not among the sources; the spec's closed set of style tags, the
    three tags the sketch switches on. *)
Inductive FlowerStyle : Type := peach | sakura | delonix.

Module Flowers.

(** The loop [for (let i = 0; i < 5; i++)]. *)
Definition petalLoop (body : nat -> list DrawOp) : list DrawOp :=
  flat_map body (seq 0 5).

Definition ofNat (n : nat) : Q := inject_Z (Z.of_nat n).

(** The petal of one iteration, per style. *)
Definition sakuraPetal (size : Q) (i : nat) : list DrawOp :=
  let pLen := size * 0.85 in
  let pWidth := size * 0.45 in
  [ push; rotate (TWO_PI / 5 * ofNat i);
    beginShape;
    vertex 0 0;
    quadraticVertex (- pWidth) (- pLen * 0.5) 0 (- pLen);
    quadraticVertex pWidth (- pLen * 0.5) 0 0;
    endShapeClose;
    pop ].

Definition delonixPetal (size : Q) (i : nat) : list DrawOp :=
  let totalLen := size * 0.95 in
  let headWidth := size * 0.35 in
  let headHeight := size * 0.4 in
  let stemLen := totalLen - headHeight * 0.8 in
  let stemHalfWidth := size * 0.04 in
  [ push; rotate (TWO_PI / 5 * ofNat i);
    beginShape;
    vertex 0 0;
    vertex (- stemHalfWidth) (- stemLen);
    bezierVertex (- headWidth) (- stemLen - headHeight * 0.2)
                 (- headWidth) (- totalLen)
                 0 (- totalLen);
    bezierVertex headWidth (- totalLen)
                 headWidth (- stemLen - headHeight * 0.2)
                 stemHalfWidth (- stemLen);
    vertex 0 0;
    endShapeClose;
    pop ].

Definition peachPetal (size : Q) (i : nat) : list DrawOp :=
  [ rotate (TWO_PI / 5);
    ellipse 0 (size * 0.4) (size * 0.5) (size * 0.6) ].

(** [drawFlowerShape(style, size)]. *)
Definition drawFlowerShape (style : FlowerStyle) (size : Q) : list DrawOp :=
  noStroke ::
  match style with
  | sakura =>
      fillColor COL_FLOWER_PINK :: petalLoop (sakuraPetal size)
      ++ [fillRGBA 255 255 255 220; circle 0 0 (size * 0.2)]
  | delonix =>
      fillColor COL_FLOWER_PINK :: petalLoop (delonixPetal size)
      ++ [fillRGBA 255 200 100 150; circle 0 0 (size * 0.15)]
  | peach =>
      fillColor COL_FLOWER_PINK :: petalLoop (peachPetal size)
      ++ [fillRGB 255 220 100; circle 0 0 (size * 0.3)]
  end.

(** A call that paints one petal: the ellipse of a round petal, or the
    closing of a petal outline. *)
Definition isPetalDraw (op : DrawOp) : bool :=
  match op with
  | ellipse _ _ _ _ | endShapeClose => true
  | _ => false
  end.

(** The centre accent. *)
Definition isCenterDraw (op : DrawOp) : bool :=
  match op with
  | circle _ _ _ => true
  | _ => false
  end.

Definition count (f : DrawOp -> bool) (ops : list DrawOp) : nat :=
  length (List.filter f ops).

(** The rotation of the drawing frame at each petal draw: [rotate] adds to
    the current rotation, [push] saves it and [pop] restores it. *)
Fixpoint petalAnglesFrom (current : Q) (saved : list Q) (ops : list DrawOp)
  : list Q :=
  match ops with
  | [] => []
  | op :: rest =>
      match op with
      | push => petalAnglesFrom current (current :: saved) rest
      | pop =>
          match saved with
          | a :: saved' => petalAnglesFrom a saved' rest
          | [] => petalAnglesFrom current [] rest
          end
      | rotate a => petalAnglesFrom (current + a) saved rest
      | _ =>
          if isPetalDraw op then current :: petalAnglesFrom current saved rest
          else petalAnglesFrom current saved rest
      end
  end.

Definition petalAngles (ops : list DrawOp) : list Q := petalAnglesFrom 0 [] ops.

(** The first multiple of the increment, per style: the round petals rotate
    before they draw. *)
Definition firstPetal (style : FlowerStyle) : nat :=
  match style with peach => 1 | sakura | delonix => 0 end.

(** [n] angles at equal increments [step], from [first * step]. *)
Definition evenlySpaced (first n : nat) (step : Q) : list Q :=
  map (fun k => ofNat k * step) (seq first n).

End Flowers.

(** ** The particle store of [treeSketch.ts] *)

(** What the sketch reads from its surroundings during a frame. *)
Record Env : Type := mkEnv {
  width : Q;                          (* [p.width] *)
  height : Q;                         (* [p.height] *)
  frameCount : Q;                     (* [p.frameCount] *)
  noise : Q -> Q -> Q -> Q;           (* [p.noise] *)
  sin : Q -> Q;                       (* [Math.sin] *)
  cos : Q -> Q                        (* [Math.cos] *)
}.

(** [p5.Vector], in the plane. *)
Record Vector : Type := createVector { x : Q; y : Q }.

Definition add (v w : Vector) : Vector := createVector (x v + x w) (y v + y w).
Definition mult (v : Vector) (k : Q) : Vector := createVector (x v * k) (y v * k).

(** [Array.prototype.splice(start, deleteCount)], the array afterwards. *)
Definition splice {A} (start deleteCount : nat) (l : list A) : list A :=
  take start l ++ drop (start + deleteCount) l.

Module Particles.

Definition MAX_PARTICLES : nat := 300.

Inductive ParticleType : Type := leaf | flower.

(** [interface Particle]. *)
Record Particle : Type := mkParticle {
  pos : Vector;
  vel : Vector;
  acc : Vector;
  color : Color;
  size : Q;
  life : Q;
  type : ParticleType;
  isGrounded : bool;
  groundY : Q;
  angle : Q;
  angleVel : Q;
  flip : Q;
  flipSpeed : Q;
  swayPhase : Q;
  swayFreq : Q;
  swayAmp : Q
}.

Section Spawn.
Variable rnd : nat -> Q.
Variable E : Env.
Variable currentWind : Q.

(** The guard of [spawnFallingParticle]. *)
Definition offScreen (px py : Q) : bool :=
  (px <? -50) || (px >? width E + 50) || (py >? height E).

(** [spawnFallingParticle(x, y)]: the particle array afterwards. *)
Definition spawnFallingParticle (px py : Q) (particles : list Particle)
  : Gen (list Particle) :=
  if offScreen px py then ret particles
  else
    let* r := random2 rnd (-0.5) 0.5 in
    let vx := r + currentWind * 2.5 in
    let* vy := random2 rnd 1.5 3.5 in
    let* g := random2 rnd 0 15 in
    let groundY := height E - g in
    let* coin := random1 rnd 1 in
    let isFlower := coin >? 0.5 in
    let* size := random2 rnd 7 12 in
    let* angle := random1 rnd TWO_PI in
    let* angleVel := random2 rnd (-0.15) 0.15 in
    let* flip := random1 rnd TWO_PI in
    let* flipSpeed := random2 rnd 0.05 0.2 in
    let* swayPhase := random1 rnd TWO_PI in
    let* swayFreq := random2 rnd 0.05 0.1 in
    let* swayAmp := random2 rnd 0.02 0.05 in
    ret (particles ++
         [ {| pos := createVector px py;
              vel := createVector vx vy;
              acc := createVector 0 0;
              color := if isFlower then COL_FLOWER_PINK else COL_LEAF_TENDER;
              type := if isFlower then flower else leaf;
              size := size;
              life := 255;
              isGrounded := false;
              groundY := groundY;
              angle := angle;
              angleVel := angleVel;
              flip := flip;
              flipSpeed := flipSpeed;
              swayPhase := swayPhase;
              swayFreq := swayFreq;
              swayAmp := swayAmp |} ]).

End Spawn.

Section Update.
Variable E : Env.
Variable windForce : Q.
Variable currentStyle : FlowerStyle.

(** The falling physics up to and including [part.flip += part.flipSpeed]:
    the particle before the ground test. *)
Definition advance (part : Particle) : Particle :=
  let acc0 := createVector 0 0.1 in
  let turbulence :=
    noise E (x (pos part) * 0.01) (y (pos part) * 0.01) (frameCount E * 0.02)
    - 0.5 in
  let windEffect := windForce * 0.25 in
  let acc1 := createVector (x acc0 + (windEffect + turbulence * 0.15)) (y acc0) in
  let swayForce :=
    sin E (frameCount E * swayFreq part + swayPhase part) * swayAmp part in
  let acc2 := createVector (x acc1 + swayForce) (y acc1) in
  let vel1 := add (vel part) acc2 in
  let vel2 := mult vel1 0.94 in
  let pos1 := add (pos part) vel2 in
  {| pos := pos1; vel := vel2; acc := acc2;
     color := color part; size := size part; life := life part;
     type := type part; isGrounded := isGrounded part;
     groundY := groundY part;
     angle := angle part + angleVel part; angleVel := angleVel part;
     flip := flip part + flipSpeed part; flipSpeed := flipSpeed part;
     swayPhase := swayPhase part; swayFreq := swayFreq part;
     swayAmp := swayAmp part |}.

(** [part.isGrounded = true; part.pos.y = part.groundY; part.vel.set(0, 0)]. *)
Definition ground (part : Particle) : Particle :=
  {| pos := createVector (x (pos part)) (groundY part);
     vel := createVector 0 0; acc := acc part;
     color := color part; size := size part; life := life part;
     type := type part; isGrounded := true; groundY := groundY part;
     angle := angle part; angleVel := angleVel part;
     flip := flip part; flipSpeed := flipSpeed part;
     swayPhase := swayPhase part; swayFreq := swayFreq part;
     swayAmp := swayAmp part |}.

(** The block [if (!part.isGrounded) { ... }] of the loop body. *)
Definition stepParticle (part : Particle) : Particle :=
  if negb (isGrounded part) then
    let moved := advance part in
    if y (pos moved) >=? groundY moved then ground moved else moved
  else part.

(** The render block of the loop body. *)
Definition renderParticle (part : Particle) : list DrawOp :=
  let tumbleScale := cos E (flip part) in
  let renderScale := if isGrounded part then 0.2 else abs tumbleScale in
  [ push;
    translate (x (pos part)) (y (pos part));
    rotate (angle part);
    scale 1 (max 0.1 renderScale);
    setAlpha (color part) (if isGrounded part then 200 else 255) ]
  ++ match type part with
     | flower => Flowers.drawFlowerShape currentStyle (size part)
     | leaf =>
         [ fillColor (color part); noStroke;
           ellipse 0 0 (size part) (size part * 0.7) ]
     end
  ++ [ pop ].

(** The test that retires a particle. *)
Definition outOfBounds (part : Particle) : bool :=
  (x (pos part) <? -100) || (x (pos part) >? width E + 100).

(** The loop [for (let i = particles.length - 1; i >= 0; i--)]: [n] is
    [i + 1], [drawn] the calls issued so far.  Reading an index outside
    the array makes the body throw: [None]. *)
Fixpoint updateLoop (n : nat) (particles : list Particle) (drawn : list DrawOp)
  : option (list Particle * list DrawOp) :=
  match n with
  | O => Some (particles, drawn)
  | S i =>
      match particles !! i with
      | None => None
      | Some part =>
          let part' := stepParticle part in
          let particles' := <[ i := part' ]> particles in
          let drawn' := drawn ++ renderParticle part' in
          let particles'' :=
            if outOfBounds part' then splice i 1 particles' else particles' in
          updateLoop i particles'' drawn'
      end
  end.

(** The eviction at the head of [updateParticles]. *)
Definition evict (particles : list Particle) : list Particle :=
  if (MAX_PARTICLES <? length particles)%nat
  then splice 0 (length particles - MAX_PARTICLES) particles
  else particles.

(** [updateParticles(windForce, currentStyle)]: the array afterwards and
    the calls issued. *)
Definition updateParticles (particles : list Particle)
  : option (list Particle * list DrawOp) :=
  let particles' := evict particles in
  updateLoop (length particles') particles' [].

(** The particles of [particles] that an update keeps: each one stepped,
    those beyond the horizontal margin dropped. *)
Definition survivors (particles : list Particle) : list Particle :=
  List.filter (fun part => negb (outOfBounds part)) (map stepParticle particles).

(** The calls of an update over [particles]: the last particle is drawn
    first. *)
Definition drawnCalls (particles : list Particle) : list DrawOp :=
  flat_map renderParticle (rev (map stepParticle particles)).

End Update.

(** The [n] most recently pushed elements of an array. *)
Definition newest {A} (n : nat) (l : list A) : list A := drop (length l - n) l.

(** The particle after the updates of consecutive frames, each with its own
    surroundings and wind (the style plays no part in the physics). *)
Fixpoint afterFrames (frames : list (Env * Q)) (part : Particle) : Particle :=
  match frames with
  | [] => part
  | (E, windForce) :: rest => afterFrames rest (stepParticle E windForce part)
  end.

(** [n] calls of the spawner at the same place. *)
Fixpoint spawnMany (rnd : nat -> Q) (E : Env) (currentWind : Q) (n : nat)
    (px py : Q) (particles : list Particle) : Gen (list Particle) :=
  match n with
  | O => ret particles
  | S n' =>
      let* particles' := spawnFallingParticle rnd E currentWind px py particles in
      spawnMany rnd E currentWind n' px py particles'
  end.

End Particles.

(** ** The spawner of the mood-only variant *)

Module MoodParticles.

Record Particle : Type := mkParticle {
  pos : Vector;
  vel : Vector;
  acc : Vector;
  color : Color;
  size : Q;
  life : Q;
  isDead : bool;
  angle : Q;
  angleVel : Q;
  flip : Q;
  flipSpeed : Q;
  swayPhase : Q;
  swayFreq : Q;
  swayAmp : Q
}.

Section Spawn.
Variable rnd : nat -> Q.
Variable E : Env.
Variable currentWind : Q.

Definition offScreen (px py : Q) : bool :=
  (px <? -50) || (px >? width E + 50) || (py >? height E).

(** [spawnFallingParticle(x, y, isDead)]. *)
Definition spawnFallingParticle (px py : Q) (dead : bool)
    (particles : list Particle) : Gen (list Particle) :=
  if offScreen px py then ret particles
  else
    let* vx :=
      if dead
      then (let* r := random2 rnd (-1) 1 in ret (r + currentWind * 1.0))
      else (let* r := random2 rnd (-0.5) 0.5 in ret (r + currentWind * 2.5)) in
    let* vy := if dead then random2 rnd 1.0 3.0 else random2 rnd 0.0 0.5 in
    let* color :=
      if dead then ret COL_LEAF_DEAD
      else (let* coin := random1 rnd 1 in
            ret (if coin >? 0.5 then COL_FLOWER_PINK else COL_LEAF_TENDER)) in
    let* size := random2 rnd 7 12 in
    let* angle := random1 rnd TWO_PI in
    let* angleVel := random2 rnd (-0.15) 0.15 in
    let* flip := random1 rnd TWO_PI in
    let* flipSpeed := random2 rnd 0.05 0.2 in
    let* swayPhase := random1 rnd TWO_PI in
    let* swayFreq := random2 rnd 0.05 0.1 in
    let* swayAmp := random2 rnd 0.02 0.05 in
    ret (particles ++
         [ {| pos := createVector px py;
              vel := createVector vx vy;
              acc := createVector 0 0;
              color := color;
              size := size;
              life := 255;
              isDead := dead;
              angle := angle;
              angleVel := angleVel;
              flip := flip;
              flipSpeed := flipSpeed;
              swayPhase := swayPhase;
              swayFreq := swayFreq;
              swayAmp := swayAmp |} ]).

End Spawn.

End MoodParticles.

(** ** Sample surroundings, particles and runs *)

Module Sample.

(** An 800 x 600 canvas at frame 1 with the given oracles. *)
Definition canvas (noise : Q -> Q -> Q -> Q) (sin cos : Q -> Q) : Env :=
  mkEnv 800 600 1 noise sin cos.

(** The same with constant oracles: noise at its mean (no turbulence), no
    sway, particles face on. *)
Definition env : Env := canvas (fun _ _ _ => 0.5) (fun _ => 0) (fun _ => 1).

(** A random source that always draws the middle of its range. *)
Definition rnd : nat -> Q := fun _ => 0.5.

(** A flower petal falling just above its resting height. *)
Definition falling : Particles.Particle :=
  {| Particles.pos := createVector 400 590;
     Particles.vel := createVector 0 3;
     Particles.acc := createVector 0 0.1;
     Particles.color := COL_FLOWER_PINK;
     Particles.size := 10;
     Particles.life := 255;
     Particles.type := Particles.flower;
     Particles.isGrounded := false;
     Particles.groundY := 592;
     Particles.angle := 1;
     Particles.angleVel := 0.1;
     Particles.flip := 2;
     Particles.flipSpeed := 0.1;
     Particles.swayPhase := 3;
     Particles.swayFreq := 0.07;
     Particles.swayAmp := 0.03 |}.

(** 301 spawns at mid-canvas in still air. *)
Definition calmStore : list Particles.Particle :=
  fst (Particles.spawnMany rnd env 0 301 400 100 [] 0%nat).

(** A smoothed wind of -40: 200 spawns at mid-canvas, then 101 spawns at
    the left limit of the spawn area, x = -50. *)
Definition gale : Q := -40.

Definition galeStore : list Particles.Particle :=
  fst ((let* store := Particles.spawnMany rnd env gale 200 400 100 [] in
        Particles.spawnMany rnd env gale 101 (-50) 100 store) 0%nat).

(** The particle of a spawn at mid-canvas and of a spawn at x = -50 under
    that wind. *)
Definition galeMid : Particles.Particle :=
  default falling
    (head (fst (Particles.spawnFallingParticle rnd env gale 400 100 [] 0%nat))).

Definition galeEdge : Particles.Particle :=
  default falling
    (head (fst (Particles.spawnFallingParticle rnd env gale (-50) 100 [] 0%nat))).

(** [n] updates in a row. *)
Fixpoint updates (n : nat) (E : Env) (windForce : Q) (style : FlowerStyle)
    (particles : list Particles.Particle) : option (list Particles.Particle) :=
  match n with
  | O => Some particles
  | S n' =>
      match Particles.updateParticles E windForce style particles with
      | Some (particles', _) => updates n' E windForce style particles'
      | None => None
      end
  end.

(** A smoothed wind of -1: a spawn at mid-canvas, a spawn at x = -50, 16
    updates, then 299 more spawns at mid-canvas. *)
Definition breeze : Q := -1.

Definition breezeStore : option (list Particles.Particle) :=
  let two :=
    fst ((let* store := Particles.spawnMany rnd env breeze 1 400 100 [] in
          Particles.spawnMany rnd env breeze 1 (-50) 100 store) 0%nat) in
  option_map
    (fun drifted =>
       fst (Particles.spawnMany rnd env breeze 299 400 100 drifted 0%nat))
    (updates 16 env breeze peach two).

End Sample.

(** ** The rest of the frame of [treeSketch.ts] *)

(** [Math.min] and p5's [constrain(n, low, high) =
    Math.max(Math.min(n, high), low)]. *)
Definition min (a b : Q) : Q := if a <? b then a else b.
Definition constrain (n low high : Q) : Q := max (min n high) low.

(** [p.map(n, start1, stop1, start2, stop2, true)]: p5 clamps the result
    between [start2] and [stop2], whichever is the smaller. *)
Definition map_clamped (n start1 stop1 start2 stop2 : Q) : Q :=
  let newval := map_range n start1 stop1 start2 stop2 in
  if start2 <? stop2 then constrain newval start2 stop2
  else constrain newval stop2 start2.

(** The particle array of [treeSketch.ts] after the updates of consecutive
    frames, each with its own surroundings and wind, nothing being spawned
    in between. *)
Fixpoint updatesOver (style : FlowerStyle) (frames : list (Env * Q))
    (particles : list Particles.Particle) : option (list Particles.Particle) :=
  match frames with
  | [] => Some particles
  | (E, windForce) :: rest =>
      match Particles.updateParticles E windForce style particles with
      | Some (particles', _) => updatesOver style rest particles'
      | None => None
      end
  end.

(** The smoothed mood and the smoothed wind after consecutive frames, each
    with the mood and the wind force it reads, in the number format of
    rounding [fl]. *)
Fixpoint signalsAfterR (fl : Q -> Q) (inputs : list (Q * Q)) (s : Q * Q)
  : Q * Q :=
  match inputs with
  | [] => s
  | (mood, windForce) :: rest =>
      signalsAfterR fl rest
        (smoothMoodR fl (fst s) mood, smoothWindR fl (snd s) windForce)
  end.

(** p5's [random(lo, hi) = rand * (hi - lo) + lo] for the draw [r], in the
    number format of rounding [fl]: the literals and every result are
    rounded. *)
Definition random2R (fl : Q -> Q) (r lo hi : Q) : Q :=
  fl (fl (r * fl (fl hi - fl lo)) + fl lo).

(** The ranges that the two spawners draw from. *)
Definition spawnRanges : list (Q * Q) :=
  [ (-0.5, 0.5); (1.5, 3.5); (0, 15); (7, 12); (-0.15, 0.15); (0.05, 0.2);
    (0.05, 0.1); (0.02, 0.05); (-1, 1); (1, 3); (0, 0.5) ].

(** A range whose ends a draw of 0 and a draw of 1 would give in
    binary64. *)
Definition closedIn64 (range : Q * Q) : bool :=
  Qle_bool (round64 (fst range)) (round64 (snd range))
  && Qle_bool
       (round64 (round64 (round64 (snd range) - round64 (fst range))
                 + round64 (fst range)))
       (round64 (snd range)).

(** p5's [random(lo, hi) = rand * (hi - lo) + lo] on binary64 numbers, with
    the rounding of IEEE-754, for the draw [r]. *)
Definition random64 (r lo hi : PrimFloat.float) : PrimFloat.float :=
  PrimFloat.add (PrimFloat.mul r (PrimFloat.sub hi lo)) lo.

(** The remainder [a % b] of JavaScript: the quotient is truncated toward
    zero. *)
Definition rem (a b : Q) : Q :=
  a - b * inject_Z (Z.quot (Qnum (a / b)) (QDen (a / b))).

(** A colour value handed to a call: a palette object, a colour made from
    channels, or a blend made by [p.lerpColor]. *)
Inductive Paint : Type :=
  | solid (c : Color)
  | rgb (r g b : Q)
  | lerpColor (c1 c2 : Paint) (amt : Q).

(** The calls of a whole frame: those of a shape, and the others. *)
Inductive Call : Type :=
  | shape (op : DrawOp)
  | clear
  | background (c : Paint)
  | rect (x y w h : Q)
  | stroke (c : Paint)
  | strokeWeight (w : Q)
  | strokeCapRound                     (* [p.strokeCap(p.ROUND)] *)
  | line (x1 y1 x2 y2 : Q).

(** The depth of the transform stack after the calls [cs], entered at
    depth [d]; [None] when a [pop] finds the stack at the entry depth 0. *)
Fixpoint stackAfter (cs : list Call) (d : nat) : option nat :=
  match cs with
  | [] => Some d
  | shape push :: rest => stackAfter rest (S d)
  | shape pop :: rest =>
      match d with
      | O => None
      | S d' => stackAfter rest d'
      end
  | _ :: rest => stackAfter rest d
  end.

(** Calls that leave the stack as they found it and never pop what they
    did not push. *)
Definition balanced (cs : list Call) : Prop :=
  forall d : nat, stackAfter cs d = Some d.

Definition isLine (c : Call) : bool :=
  match c with line _ _ _ _ => true | _ => false end.

(** What the sketch reads during a frame besides [Env]: the clock (the
    value of the [n]-th call of [p.millis()]), [Math.pow] and the random
    source. *)
Record Stage : Type := mkStage {
  env : Env;
  millis : nat -> Q;
  pow : Q -> Q -> Q;
  rnd : nat -> Q
}.

(** What a frame changes besides the signals: the number of random draws
    made, the number of clock readings made, the particle array. *)
Record Live : Type := mkLive {
  draws : nat;
  ticks : nat;
  store : list Particles.Particle
}.

Module Frame.

Import Skeleton.

Section Render.
Variable T : Stage.
Variable currentMood : Q.
Variable currentWind : Q.

(** [p.millis()]. *)
Definition now (s : Live) : Q * Live :=
  (millis T (ticks s), mkLive (draws s) (S (ticks s)) (store s)).

(** [spawnFallingParticle(x, y)] on the live state. *)
Definition spawn (px py : Q) (s : Live) : Live :=
  let '(particles, k) :=
    Particles.spawnFallingParticle (rnd T) (env T) currentWind px py
                                   (store s) (draws s) in
  mkLive k (ticks s) particles.

(** [drawAttachedFoliage(windAngle, hasFlower, bloomFactor, style)]. *)
Definition drawAttachedFoliage (windAngle : Q) (flowered : bool)
    (bloomFactor : Q) (style : FlowerStyle) (s : Live) : list Call * Live :=
  let '(ms, s1) := now s in
  let breathe := 1 + sin (env T) (ms * 0.004) * 0.08 in
  let foliageSway := windAngle * 3.0 in
  let growthScale := constrain (bloomFactor * 1.5) 0.5 1 in
  let leafSize := 11 * breathe * growthScale in
  (map shape
     [ noStroke;
       push; rotate (PI / 4 + foliageSway); fillColor COL_LEAF_TENDER;
       ellipse 0 0 leafSize (leafSize * 0.5); pop;
       push; rotate (- PI / 4 + foliageSway); fillColor COL_LEAF_TENDER;
       ellipse 0 0 leafSize (leafSize * 0.5); pop ]
   ++ (if flowered && (bloomFactor >? 0.25) then
         let flowerSize := 14 * breathe * growthScale in
         map shape ([push; rotate foliageSway]
                    ++ Flowers.drawFlowerShape style flowerSize
                    ++ [pop])
       else []),
   s1).

(** The foliage and particle block of [renderBranch], at the tip
    [(tipX, tipY)] of a branch of the outer levels. *)
Definition foliage (branch : Branch) (windAngle bloomFactor tipX tipY : Q)
    (style : FlowerStyle) (s : Live) : list Call * Live :=
  let isAttached := bloomFactor >? noiseThreshold branch in
  let '(leaves, s1) :=
    if isAttached
    then drawAttachedFoliage windAngle (hasFlower branch) bloomFactor style s
    else ([], s) in
  let '(time, s2) := now s1 in
  let spawnNoise := noise (env T) (tipX * 0.1) (tipY * 0.1) (time * 0.008) in
  (leaves,
   if bloomFactor >? 0.3 then
     if rem (spawnNoise * 100) 1.0 <? 0.02 then spawn tipX tipY s2 else s2
   else s2).

(** The loop [for (const child of branch.children)] of [renderBranch];
    [render] is the recursive call on a child. *)
Fixpoint renderChildren
    (render : Branch -> Q -> Q -> Live -> list Call * Live)
    (localWind cumAngle : Q) (kids : list Branch) (s : Live)
  : list Call * Live :=
  match kids with
  | [] => ([], s)
  | child :: rest =>
      let nextAngle := angleOffset child + localWind in
      let '(drawn, s1) := render child nextAngle (cumAngle + nextAngle) s in
      let '(others, s2) := renderChildren render localWind cumAngle rest s1 in
      (map shape [push; rotate nextAngle] ++ drawn ++ [shape pop] ++ others, s2)
  end.

(** [renderBranch(branch, len, thick, windAngle, x, y, cumAngle,
    flowerStyle)]. *)
Fixpoint renderBranch (branch : Branch) (len thick windAngle x y cumAngle : Q)
    (flowerStyle : FlowerStyle) (s : Live) : list Call * Live :=
  let bloomFactor := map_clamped currentMood 0 1 0 1 in
  let branchCol :=
    lerpColor (solid COL_TRUNK_DORMANT) (solid COL_TRUNK_THRIVE) bloomFactor in
  let segment :=
    [ stroke branchCol; strokeWeight thick; strokeCapRound;
      line 0 0 0 (- len) ] in
  let tipX := x + sin (env T) cumAngle * len in
  let tipY := y - cos (env T) cumAngle * len in
  let moved := [ shape (translate 0 (- len)) ] in
  let '(leaves, s1) :=
    if (MAX_DEPTH - 4 <? depth branch)%nat
    then foliage branch windAngle bloomFactor tipX tipY flowerStyle s
    else ([], s) in
  if (MAX_DEPTH <=? depth branch)%nat || (len <? 4)
  then (segment ++ moved ++ leaves, s1)
  else
    let flexibility :=
      map_range (ofNat (depth branch)) 0 (ofNat MAX_DEPTH) 0.05 1.3 in
    let localWind := windAngle * flexibility in
    let '(below, s2) :=
      renderChildren
        (fun child nextAngle angle s' =>
           renderBranch child (len * lenMult child) (thick * 0.7) windAngle
                        tipX tipY angle flowerStyle s')
        localWind cumAngle (children branch) s1 in
    (segment ++ moved ++ leaves ++ below, s2).

End Render.

(** The state of a sketch between frames. *)
Record Sketch : Type := mkSketch {
  signals : Detector.Signals;
  rootBranch : option Branch;
  live : Live
}.

(** The sketch as [createSketch] leaves it. *)
Definition created : Sketch :=
  mkSketch Detector.initial None (mkLive 0 0 []).

(** [buildTreeSkeleton()], as [p.setup] and [p.windowResized] call it after
    sizing the canvas to the window: the canvas size is that of [env T]. *)
Definition rebuild (T : Stage) (k : Sketch) : option Sketch :=
  let '(made, d) :=
    Skeleton.buildTreeSkeleton (rnd T) (width (env T)) (height (env T))
                               (draws (live k)) in
  option_map
    (fun root =>
       mkSketch (signals k) (Some root)
                (mkLive d (ticks (live k)) (store (live k))))
    made.

(** The mood overlay of [p.draw]. *)
Definition overlay (T : Stage) (currentMood : Q) : list Call :=
  [ clear;
    shape push;
    shape noStroke;
    shape (if currentMood >? 0
           then fillRGBA 255 230 200 (currentMood * 20)
           else fillRGBA 5 5 15 (abs currentMood * 180));
    rect 0 0 (width (env T)) (height (env T));
    shape pop ].

(** The wind angle of [p.draw], from the clock reading [ms]. *)
Definition totalWindAngle (T : Stage) (currentWind ms : Q) : Q :=
  let time := ms * 0.001 in
  let noiseSway := map_range (noise (env T) (time * 0.6) 0 0) 0 1 (-0.04) 0.04 in
  let windSign := if currentWind <? 0 then -1 else 1 in
  let effectiveWind := windSign * pow T (abs currentWind) 1.4 in
  let activeSway :=
    sin (env T) (time * 2.5) * (effectiveWind * 0.1) + effectiveWind * 0.3 in
  noiseSway + activeSway.

(** The tree part of [p.draw]. *)
Definition drawTree (T : Stage) (currentMood currentWind windAngle : Q)
    (flowerStyle : FlowerStyle) (root : option Branch) (s : Live)
  : list Call * Live :=
  match root with
  | Some rootBranch =>
      let startX := width (env T) / 2 in
      let startY := height (env T) in
      let '(drawn, s1) :=
        renderBranch T currentMood currentWind rootBranch (len rootBranch)
                     (thick rootBranch) windAngle startX startY 0
                     flowerStyle s in
      (map shape [push; translate (width (env T) / 2) (height (env T))]
       ++ drawn ++ [shape pop], s1)
  | None => ([], s)
  end.

(** [p.draw]: the sketch afterwards, the events handed to the callback and
    the calls issued; [None] when the frame throws. *)
Definition draw (onTreeEvent : bool) (T : Stage) (mood windForce : Q)
    (flowerStyle : FlowerStyle) (k : Sketch)
  : option (Sketch * list TreeEventType * list Call) :=
  let '(sig, events) :=
    Detector.drawSignals onTreeEvent (signals k) mood windForce in
  let currentMood := Detector.currentMood sig in
  let currentWind := Detector.currentWind sig in
  let '(ms, s1) := now T (live k) in
  let windAngle := totalWindAngle T currentWind ms in
  let '(tree, s2) :=
    drawTree T currentMood currentWind windAngle flowerStyle (rootBranch k) s1 in
  match Particles.updateParticles (env T) currentWind flowerStyle (store s2) with
  | Some (particles, drawn) =>
      Some (mkSketch sig (rootBranch k) (mkLive (draws s2) (ticks s2) particles),
            events,
            overlay T currentMood ++ tree ++ map shape drawn)
  | None => None
  end.

(** The branches of a tree that carry foliage: those of the outer levels. *)
Definition outer (b : Branch) : bool := (MAX_DEPTH - 4 <? depth b)%nat.

(** The store of [s'] is that of [s] with at most [n] particles pushed,
    each of them paid with 12 draws of the random source. *)
Definition grown (n : nat) (s s' : Live) : Prop :=
  exists new,
    store s' = store s ++ new /\
    (length new <= n)%nat /\
    draws s' = (draws s + 12 * length new)%nat.

(** The number of outer branches in a full subtree of [h] levels rooted at
    depth [d]. *)
Fixpoint outerIn (h d : nat) : nat :=
  match h with
  | O => 0
  | S h' => (if (MAX_DEPTH - 4 <? d)%nat then 1 else 0) + 2 * outerIn h' (S d)
  end.

(** The least factor between the length of a branch and that of a branch
    [n] levels further down: 0.64 to the power [n]. *)
Fixpoint shrink (n : nat) : Q :=
  match n with
  | O => 1
  | S n' => 0.64 * shrink n'
  end.

(** The calls that paint foliage: a leaf or round petal, a petal outline,
    a flower centre. *)
Definition paints (c : Call) : bool :=
  match c with
  | shape (ellipse _ _ _ _) | shape (circle _ _ _) | shape endShapeClose => true
  | _ => false
  end.

(** The number of segments among the calls [cs]. *)
Definition countLines (cs : list Call) : nat := length (List.filter isLine cs).

(** What the builder bakes into a node besides its shape: a bloom
    threshold in [[0.05, 0.95)], children without a length or a thickness
    of their own, the first leaning left and the second right, each within
    0.15 of pi / 5 from the axis of its parent. *)
Definition baked (n : Branch) : Prop :=
  0.05 <= noiseThreshold n < 0.95 /\
  Forall (fun c => len c = 0 /\ thick c = 0) (children n) /\
  (forall l r, children n = [l; r] ->
     - (PI / 5.0) - 0.15 <= angleOffset l < - (PI / 5.0) + 0.15 /\
     PI / 5.0 - 0.15 <= angleOffset r < PI / 5.0 + 0.15 /\
     angleOffset l < 0 < angleOffset r).

(** A sketch whose tree is one that [buildTreeSkeleton] made. *)
Definition built (k : Sketch) : Prop :=
  exists root,
    rootBranch k = Some root /\
    builtAt 0 (S MAX_DEPTH) root /\
    Forall baked (nodes root).

End Frame.

(** ** A sample stage *)

Module SampleFrame.

(** The sample canvas with a clock that advances by a millisecond at each
    reading, a stand-in for [Math.pow] and the sample random source. *)
Definition stage : Stage :=
  mkStage Sample.env (fun n => inject_Z (Z.of_nat n)) (fun a _ => a) Sample.rnd.

(** The sketch after [p.setup] on that stage, and the same sketch once its
    smoothed mood has risen to 0.9 and the bloom latch is set. *)
Definition ready : option Frame.Sketch := Frame.rebuild stage Frame.created.

Definition blooming : option Frame.Sketch :=
  option_map
    (fun k =>
       Frame.mkSketch (Detector.mkSignals 0.9 0 true) (Frame.rootBranch k)
                      (Frame.live k))
    ready.

(** A sketch that is ready, with a petal in the air. *)
Definition withPetal : option Frame.Sketch :=
  option_map
    (fun k =>
       Frame.mkSketch (Frame.signals k) (Frame.rootBranch k)
                      (mkLive (draws (Frame.live k)) (ticks (Frame.live k))
                              [Sample.falling]))
    ready.

End SampleFrame.

(** ** The frame of the mood-only variant *)

Record MoodLive : Type := mkMoodLive {
  moodDraws : nat;
  moodTicks : nat;
  moodStore : list MoodParticles.Particle
}.

Module MoodFrame.

Import Skeleton.

Section Update.
Variable E : Env.
Variable windForce : Q.

(** The physics of the loop body of [updateParticles], up to
    [part.life -= ...]. *)
Definition stepParticle (part : MoodParticles.Particle)
  : MoodParticles.Particle :=
  let acc0 :=
    if MoodParticles.isDead part then createVector 0 0.12
    else createVector 0 0.025 in
  let turbulence :=
    noise E (x (MoodParticles.pos part) * 0.01)
            (y (MoodParticles.pos part) * 0.01) (frameCount E * 0.02)
    - 0.5 in
  let windEffect := windForce * 0.25 in
  let acc1 := createVector (x acc0 + (windEffect + turbulence * 0.15)) (y acc0) in
  let swayForce :=
    sin E (frameCount E * MoodParticles.swayFreq part
           + MoodParticles.swayPhase part)
    * MoodParticles.swayAmp part in
  let acc2 := createVector (x acc1 + swayForce) (y acc1) in
  let vel1 := add (MoodParticles.vel part) acc2 in
  let drag := if MoodParticles.isDead part then 0.96 else 0.94 in
  let vel2 := mult vel1 drag in
  let pos1 := add (MoodParticles.pos part) vel2 in
  {| MoodParticles.pos := pos1;
     MoodParticles.vel := vel2;
     MoodParticles.acc := acc2;
     MoodParticles.color := MoodParticles.color part;
     MoodParticles.size := MoodParticles.size part;
     MoodParticles.life :=
       MoodParticles.life part
       - (if MoodParticles.isDead part then 3.0 else 1.6);
     MoodParticles.isDead := MoodParticles.isDead part;
     MoodParticles.angle :=
       MoodParticles.angle part + MoodParticles.angleVel part;
     MoodParticles.angleVel := MoodParticles.angleVel part;
     MoodParticles.flip := MoodParticles.flip part + MoodParticles.flipSpeed part;
     MoodParticles.flipSpeed := MoodParticles.flipSpeed part;
     MoodParticles.swayPhase := MoodParticles.swayPhase part;
     MoodParticles.swayFreq := MoodParticles.swayFreq part;
     MoodParticles.swayAmp := MoodParticles.swayAmp part |}.

(** The render block of the loop body. *)
Definition renderParticle (part : MoodParticles.Particle) : list DrawOp :=
  let tumbleScale := cos E (MoodParticles.flip part) in
  [ push;
    translate (x (MoodParticles.pos part)) (y (MoodParticles.pos part));
    rotate (MoodParticles.angle part);
    scale 1 (abs tumbleScale);
    setAlpha (MoodParticles.color part) (MoodParticles.life part);
    fillColor (MoodParticles.color part);
    noStroke;
    ellipse 0 0 (MoodParticles.size part) (MoodParticles.size part * 0.7);
    pop ].

(** The test that retires a particle: faded out, or fallen 50 below the
    canvas. *)
Definition expired (part : MoodParticles.Particle) : bool :=
  (MoodParticles.life part <=? 0) || (y (MoodParticles.pos part) >? height E + 50).

(** The loop [for (let i = particles.length - 1; i >= 0; i--)]: [n] is
    [i + 1]; [None] when the body reads outside the array. *)
Fixpoint updateLoop (n : nat) (particles : list MoodParticles.Particle)
    (drawn : list DrawOp)
  : option (list MoodParticles.Particle * list DrawOp) :=
  match n with
  | O => Some (particles, drawn)
  | S i =>
      match particles !! i with
      | None => None
      | Some part =>
          let part' := stepParticle part in
          let particles' := <[ i := part' ]> particles in
          let drawn' := drawn ++ renderParticle part' in
          let particles'' :=
            if expired part' then splice i 1 particles' else particles' in
          updateLoop i particles'' drawn'
      end
  end.

(** [updateParticles(windForce)]. *)
Definition updateParticles (particles : list MoodParticles.Particle)
  : option (list MoodParticles.Particle * list DrawOp) :=
  updateLoop (length particles) particles [].

(** The particles that an update keeps, and the calls it issues. *)
Definition survivors (particles : list MoodParticles.Particle)
  : list MoodParticles.Particle :=
  List.filter (fun part => negb (expired part)) (map stepParticle particles).

Definition drawnCalls (particles : list MoodParticles.Particle) : list DrawOp :=
  flat_map renderParticle (rev (map stepParticle particles)).

End Update.

(** The store after the updates of consecutive frames, nothing being
    spawned in between. *)
Fixpoint updates (frames : list (Env * Q))
    (particles : list MoodParticles.Particle)
  : option (list MoodParticles.Particle) :=
  match frames with
  | [] => Some particles
  | (E, windForce) :: rest =>
      match updateParticles E windForce particles with
      | Some (particles', _) => updates rest particles'
      | None => None
      end
  end.

Section Render.
Variable T : Stage.
Variable currentMood : Q.
Variable currentWind : Q.

Definition now (s : MoodLive) : Q * MoodLive :=
  (millis T (moodTicks s),
   mkMoodLive (moodDraws s) (S (moodTicks s)) (moodStore s)).

(** [spawnFallingParticle(x, y, isDead)] on the live state. *)
Definition spawn (px py : Q) (dead : bool) (s : MoodLive) : MoodLive :=
  let '(particles, k) :=
    MoodParticles.spawnFallingParticle (rnd T) (env T) currentWind px py dead
                                       (moodStore s) (moodDraws s) in
  mkMoodLive k (moodTicks s) particles.

(** [drawAttachedFoliage(windAngle, hasFlower, bloomFactor)]: the blossom
    is drawn in place. *)
Definition drawAttachedFoliage (windAngle : Q) (flowered : bool)
    (bloomFactor : Q) (s : MoodLive) : list Call * MoodLive :=
  let '(ms, s1) := now s in
  let breathe := 1 + sin (env T) (ms * 0.004) * 0.08 in
  let foliageSway := windAngle * 3.0 in
  let growthScale := constrain (bloomFactor * 1.5) 0.5 1 in
  let leafSize := 11 * breathe * growthScale in
  (map shape
     [ noStroke;
       push; rotate (PI / 4 + foliageSway); fillColor COL_LEAF_TENDER;
       ellipse 0 0 leafSize (leafSize * 0.5); pop;
       push; rotate (- PI / 4 + foliageSway); fillColor COL_LEAF_TENDER;
       ellipse 0 0 leafSize (leafSize * 0.5); pop ]
   ++ (if flowered && (bloomFactor >? 0.25) then
         let flowerSize := 14 * breathe * growthScale in
         map shape
           ([push; rotate foliageSway; fillColor COL_FLOWER_PINK]
            ++ Flowers.petalLoop (Flowers.peachPetal flowerSize)
            ++ [fillRGB 255 220 100; circle 0 0 (flowerSize * 0.3); pop])
       else []),
   s1).

(** The two spawn tests of [renderBranch], in their order. *)
Definition shed (witherFactor bloomFactor spawnNoise tipX tipY : Q)
    (s : MoodLive) : MoodLive :=
  let s1 :=
    if witherFactor >? 0.05 then
      if (spawnNoise >? 0.3)
         && (rem (spawnNoise * 100) 1.0 <? witherFactor * 0.35)
      then spawn tipX tipY true s else s
    else s in
  if bloomFactor >? 0.5 then
    if rem (spawnNoise * 100) 1.0 <? 0.005
    then spawn tipX tipY false s1 else s1
  else s1.

(** The foliage and particle block of [renderBranch]. *)
Definition foliage (branch : Branch)
    (windAngle bloomFactor witherFactor tipX tipY : Q) (s : MoodLive)
  : list Call * MoodLive :=
  let isAttached := bloomFactor >? noiseThreshold branch in
  let '(leaves, s1) :=
    if isAttached
    then drawAttachedFoliage windAngle (hasFlower branch) bloomFactor s
    else ([], s) in
  let '(time, s2) := now s1 in
  let spawnNoise := noise (env T) (tipX * 0.1) (tipY * 0.1) (time * 0.008) in
  (leaves, shed witherFactor bloomFactor spawnNoise tipX tipY s2).

Fixpoint renderChildren
    (render : Branch -> Q -> Q -> MoodLive -> list Call * MoodLive)
    (localWind cumAngle : Q) (kids : list Branch) (s : MoodLive)
  : list Call * MoodLive :=
  match kids with
  | [] => ([], s)
  | child :: rest =>
      let nextAngle := angleOffset child + localWind in
      let '(drawn, s1) := render child nextAngle (cumAngle + nextAngle) s in
      let '(others, s2) := renderChildren render localWind cumAngle rest s1 in
      (map shape [push; rotate nextAngle] ++ drawn ++ [shape pop] ++ others, s2)
  end.

(** [renderBranch(branch, len, thick, windAngle, x, y, cumAngle)]. *)
Fixpoint renderBranch (branch : Branch) (len thick windAngle x y cumAngle : Q)
    (s : MoodLive) : list Call * MoodLive :=
  let bloomFactor := map_clamped currentMood 0 1 0 1 in
  let witherFactor := map_clamped currentMood (-0.2) (-1) 0 1 in
  let warm :=
    lerpColor (solid COL_TRUNK_DORMANT) (solid COL_TRUNK_THRIVE) bloomFactor in
  let branchCol :=
    if witherFactor >? 0
    then lerpColor warm (rgb 20 18 16) (witherFactor * 0.7)
    else warm in
  let segment :=
    [ stroke branchCol; strokeWeight thick; strokeCapRound;
      line 0 0 0 (- len) ] in
  let tipX := x + sin (env T) cumAngle * len in
  let tipY := y - cos (env T) cumAngle * len in
  let moved := [ shape (translate 0 (- len)) ] in
  let '(leaves, s1) :=
    if (MAX_DEPTH - 4 <? depth branch)%nat
    then foliage branch windAngle bloomFactor witherFactor tipX tipY s
    else ([], s) in
  if (MAX_DEPTH <=? depth branch)%nat || (len <? 4)
  then (segment ++ moved ++ leaves, s1)
  else
    let flexibility :=
      map_range (ofNat (depth branch)) 0 (ofNat MAX_DEPTH) 0.05 1.3 in
    let localWind := windAngle * flexibility in
    let '(below, s2) :=
      renderChildren
        (fun child nextAngle angle s' =>
           renderBranch child (len * lenMult child) (thick * 0.7) windAngle
                        tipX tipY angle s')
        localWind cumAngle (children branch) s1 in
    (segment ++ moved ++ leaves ++ below, s2).

End Render.

(** The signals of the mood-only sketch: the smoothed scalars and the two
    latches. *)
Record Signals : Type := mkSignals {
  currentMood : Q;
  currentWind : Q;
  latches : MoodDetector.Latches
}.

Record Sketch : Type := mkSketch {
  signals : Signals;
  rootBranch : option Branch;
  live : MoodLive
}.

Definition created : Sketch :=
  mkSketch (mkSignals 0 0 MoodDetector.initial) None (mkMoodLive 0 0 []).

(** [buildTreeSkeleton()], the same text as in [treeSketch.ts], as
    [p.setup] and [p.windowResized] call it after sizing the canvas. *)
Definition rebuild (T : Stage) (k : Sketch) : option Sketch :=
  let '(made, d) :=
    Skeleton.buildTreeSkeleton (rnd T) (width (env T)) (height (env T))
                               (moodDraws (live k)) in
  option_map
    (fun root =>
       mkSketch (signals k) (Some root)
                (mkMoodLive d (moodTicks (live k)) (moodStore (live k))))
    made.

(** The signal part of [p.draw]. *)
Definition drawSignals (onTreeEvent : bool) (s : Signals) (mood windForce : Q)
  : Signals * list TreeEventType :=
  let currentMood' := smoothMood (currentMood s) mood in
  let currentWind' := smoothWind (currentWind s) windForce in
  let '(l, evs) := MoodDetector.eventLogic onTreeEvent (latches s) currentMood' in
  (mkSignals currentMood' currentWind' l, evs).

(** The background of [p.draw]. *)
Definition backdrop (m : Q) : list Call :=
  [ background
      (if m >? 0
       then lerpColor (rgb 20 20 22) (rgb 45 40 35) (m * 0.6)
       else lerpColor (rgb 20 20 22) (rgb 5 5 8) (abs m)) ].

(** The tree part of [p.draw]. *)
Definition drawTree (T : Stage) (m w windAngle : Q) (root : option Branch)
    (s : MoodLive) : list Call * MoodLive :=
  match root with
  | Some rootBranch =>
      let '(drawn, s1) :=
        renderBranch T m w rootBranch (len rootBranch) (thick rootBranch)
                     windAngle (width (env T) / 2) (height (env T)) 0 s in
      (map shape [push; translate (width (env T) / 2) (height (env T))]
       ++ drawn ++ [shape pop], s1)
  | None => ([], s)
  end.

(** [p.draw] of the mood-only variant. *)
Definition draw (onTreeEvent : bool) (T : Stage) (mood windForce : Q)
    (k : Sketch) : option (Sketch * list TreeEventType * list Call) :=
  let '(sig, events) := drawSignals onTreeEvent (signals k) mood windForce in
  let m := currentMood sig in
  let w := currentWind sig in
  let '(ms, s1) := now T (live k) in
  let windAngle := Frame.totalWindAngle T w ms in
  let '(tree, s2) := drawTree T m w windAngle (rootBranch k) s1 in
  match updateParticles (env T) w (moodStore s2) with
  | Some (particles, drawn) =>
      Some (mkSketch sig (rootBranch k)
              (mkMoodLive (moodDraws s2) (moodTicks s2) particles),
            events,
            backdrop m ++ tree ++ map shape drawn)
  | None => None
  end.

(** The number of particles a branch of the outer levels can spawn in a
    frame of smoothed mood [m]. *)
Definition spawnsPerBranch (m : Q) : nat :=
  if (m <? -0.24) || (m >? 0.5) then 1 else 0.

(** The store of [s'] is that of [s] with at most [n] particles pushed,
    all of them dead leaves ([dead = true]) or all of them live. *)
Definition grown (dead : bool) (n : nat) (s s' : MoodLive) : Prop :=
  exists new,
    moodStore s' = moodStore s ++ new /\
    (length new <= n)%nat /\
    Forall (fun part => MoodParticles.isDead part = dead) new.

(** Consecutive frames, each with the stage it runs on and the mood and
    wind that [getTreeState()] hands it. *)
Fixpoint run (onTreeEvent : bool) (inputs : list (Stage * Q * Q)) (k : Sketch)
  : option Sketch :=
  match inputs with
  | [] => Some k
  | (T, mood, windForce) :: rest =>
      match draw onTreeEvent T mood windForce k with
      | Some (k', _, _) => run onTreeEvent rest k'
      | None => None
      end
  end.

(** The mood handed to a frame. *)
Definition moodOf (input : Stage * Q * Q) : Q := snd (fst input).

(** The branches of the four outer levels of the tree, if there is one. *)
Definition tips (root : option Branch) : nat :=
  match root with
  | Some rootBranch => length (List.filter Frame.outer (nodes rootBranch))
  | None => 0
  end.

End MoodFrame.

(** A dead leaf of the mood-only variant, as spawned at mid-canvas. *)
Definition sampleDeadLeaves : list MoodParticles.Particle :=
  fst (MoodParticles.spawnFallingParticle Sample.rnd Sample.env 0 400 100 true
                                          [] 0%nat).

(** The mood-only sketch after [p.setup] on the sample stage, with that
    leaf in the air. *)
Definition sampleMoodSketch : option MoodFrame.Sketch :=
  option_map
    (fun k =>
       MoodFrame.mkSketch (MoodFrame.signals k) (MoodFrame.rootBranch k)
         (mkMoodLive (moodDraws (MoodFrame.live k))
                     (moodTicks (MoodFrame.live k)) sampleDeadLeaves))
    (MoodFrame.rebuild SampleFrame.stage MoodFrame.created).

(* ================================================================= *)
(** * Part II: properties *)
(* ================================================================= *)

(** ** Comparisons *)

Lemma Qlt_bool_iff (a b : Q) : (a <? b) = true <-> a < b.
Proof. unfold Qlt_bool, Qlt. apply Z.ltb_lt. Qed.

Lemma Qlt_bool_false_iff (a b : Q) : (a <? b) = false <-> b <= a.
Proof. unfold Qlt_bool, Qle. rewrite Z.ltb_ge. reflexivity. Qed.

Lemma Qle_bool_false_iff (a b : Q) : (a <=? b) = false <-> b < a.
Proof.
  split; intros H.
  - apply Qnot_le_lt. intros L. apply Qle_bool_iff in L. congruence.
  - destruct (a <=? b) eqn:L; [|reflexivity].
    apply Qle_bool_iff in L. lra.
Qed.

(** Case analysis on the boolean comparisons of the goal, each replaced by
    the order fact that decides it. *)
Ltac case_cmp :=
  repeat match goal with
  | |- context [Qlt_bool ?a ?b] =>
      let L := fresh "L" in
      destruct (Qlt_bool a b) eqn:L;
      [apply Qlt_bool_iff in L | apply Qlt_bool_false_iff in L]
  | |- context [Qle_bool ?a ?b] =>
      let L := fresh "L" in
      destruct (Qle_bool a b) eqn:L;
      [apply Qle_bool_iff in L | apply Qle_bool_false_iff in L]
  end.

(** ** The detector, one frame at a time *)

Lemma bloom_fires (v : Q) :
  0.6 < v -> bloomLogic true false v = (true, [bloom]).
Proof. intros H. unfold bloomLogic. case_cmp; simpl; try reflexivity; lra. Qed.

Lemma bloom_idle (o : bool) (v : Q) :
  v <= 0.6 -> bloomLogic o false v = (false, []).
Proof. intros H. unfold bloomLogic. case_cmp; simpl; try reflexivity; lra. Qed.

Lemma bloom_holds (o : bool) (v : Q) :
  0.2 <= v -> bloomLogic o true v = (true, []).
Proof. intros H. unfold bloomLogic. case_cmp; simpl; try reflexivity; lra. Qed.

Lemma bloom_clears (o : bool) (v : Q) :
  v < 0.2 -> bloomLogic o true v = (false, []).
Proof. intros H. unfold bloomLogic. case_cmp; simpl; try reflexivity; lra. Qed.

Lemma wither_fires (v : Q) :
  v < -0.6 -> witherLogic true false v = (true, [wither]).
Proof. intros H. unfold witherLogic. case_cmp; simpl; try reflexivity; lra. Qed.

Lemma wither_idle (o : bool) (v : Q) :
  -0.6 <= v -> witherLogic o false v = (false, []).
Proof. intros H. unfold witherLogic. case_cmp; simpl; try reflexivity; lra. Qed.

Lemma wither_holds (o : bool) (v : Q) :
  v <= -0.2 -> witherLogic o true v = (true, []).
Proof. intros H. unfold witherLogic. case_cmp; simpl; try reflexivity; lra. Qed.

Lemma wither_clears (o : bool) (v : Q) :
  -0.2 < v -> witherLogic o true v = (false, []).
Proof. intros H. unfold witherLogic. case_cmp; simpl; try reflexivity; lra. Qed.

(** The bloom block never emits [wither]. *)
Lemma bloom_only_bloom (o l : bool) (v : Q) :
  Forall (fun e => e = bloom) (snd (bloomLogic o l v)).
Proof.
  unfold bloomLogic, emit.
  destruct l, o; simpl; case_cmp; simpl; repeat constructor.
Qed.

(** The wither block is the bloom block on the negated mood. *)
Lemma wither_mirrors_bloom (o l : bool) (v : Q) :
  witherLogic o l v
  = (fst (bloomLogic o l (- v)),
     map (fun _ => wither) (snd (bloomLogic o l (- v)))).
Proof.
  unfold witherLogic, bloomLogic, emit.
  destruct l, o; simpl; case_cmp; simpl; try reflexivity; lra.
Qed.

(** ** The single-latch detector over a run of frames *)

Section DetectorRuns.
Import Detector.

Lemma feedFrom_app (o : bool) (f : nat) (l : bool) (xs ys : list Q) :
  feedFrom o f l (xs ++ ys)
  = (fst (feedFrom o (f + length xs) (fst (feedFrom o f l xs)) ys),
     snd (feedFrom o f l xs)
     ++ snd (feedFrom o (f + length xs) (fst (feedFrom o f l xs)) ys)).
Proof.
  revert f l. induction xs as [|a xs IH]; intros f l; simpl.
  - rewrite Nat.add_0_r. destruct (feedFrom o f l ys); reflexivity.
  - destruct (eventLogic o l a) as [l1 e1].
    rewrite IH. replace (S f + length xs)%nat with (f + S (length xs))%nat by lia.
    destruct (feedFrom o (S f) l1 xs) as [l2 e2]; simpl.
    rewrite app_assoc. reflexivity.
Qed.

(** Below the upper threshold a clear latch stays clear, silently. *)
Lemma feedFrom_idle (o : bool) (f : nat) (xs : list Q) :
  Forall (fun m => m <= 0.6) xs -> feedFrom o f false xs = (false, []).
Proof.
  intros H. revert f. induction H as [|a xs Ha _ IH]; intros f; simpl.
  - reflexivity.
  - unfold eventLogic. rewrite (bloom_idle o a Ha), IH. reflexivity.
Qed.

(** At or above the lower threshold a set latch stays set, silently. *)
Lemma feedFrom_held (o : bool) (f : nat) (xs : list Q) :
  Forall (fun m => 0.2 <= m) xs -> feedFrom o f true xs = (true, []).
Proof.
  intros H. revert f. induction H as [|a xs Ha _ IH]; intros f; simpl.
  - reflexivity.
  - unfold eventLogic. rewrite (bloom_holds o a Ha), IH. reflexivity.
Qed.

End DetectorRuns.

(** C1.  From a clear latch, a run of smoothed moods that first exceeds
    0.6 at frame [length pre] and then stays at or above 0.2 (rising above
    0.6 again or not) emits the single event [bloom], at that frame, and
    leaves the latch set; when the mood then falls below 0.2 the latch
    clears and the events of the run are still that single [bloom]: the
    clearing frame emits nothing. *)
Theorem bloom_hysteresis (pre mid : list Q) (v w : Q) :
  Forall (fun m => m <= 0.6) pre ->
  0.6 < v ->
  Forall (fun m => 0.2 <= m) mid ->
  w < 0.2 ->
  Detector.feed false (pre ++ v :: mid) = (true, [(length pre, bloom)]) /\
  Detector.feed false (pre ++ v :: mid ++ [w]) = (false, [(length pre, bloom)]).
Proof.
  intros Hpre Hv Hmid Hw. unfold Detector.feed.
  split.
  - rewrite feedFrom_app, (feedFrom_idle true 0 pre Hpre). simpl.
    unfold Detector.eventLogic. rewrite (bloom_fires v Hv).
    rewrite (feedFrom_held true _ mid Hmid). reflexivity.
  - rewrite feedFrom_app, (feedFrom_idle true 0 pre Hpre). simpl.
    unfold Detector.eventLogic. rewrite (bloom_fires v Hv).
    rewrite feedFrom_app, (feedFrom_held true _ mid Hmid). simpl.
    unfold Detector.eventLogic. rewrite (bloom_clears true w Hw). reflexivity.
Qed.

Lemma bloom_hysteresis_witness :
  Detector.feed false ([0; 0.3] ++ 0.65 :: [0.7; 0.5; 0.65])
    = (true, [(length [0; 0.3], bloom)]) /\
  Detector.feed false ([0; 0.3] ++ 0.65 :: [0.7; 0.5; 0.65] ++ [0.1])
    = (false, [(length [0; 0.3], bloom)]).
Proof.
  apply (bloom_hysteresis [0; 0.3] [0.7; 0.5; 0.65] 0.65 0.1).
  - repeat constructor; unfold Qle; simpl; lia.
  - reflexivity.
  - repeat constructor; unfold Qle; simpl; lia.
  - reflexivity.
Defined.

(** Ten frames of the whole signal path from rest, with the constant mood 1
    in still air: one [bloom], at the ninth frame, when the smoothed mood
    1 - 0.9^9 first exceeds 0.6. *)
Example ten_frames_example :
  snd (Detector.drawFrames true 0 Detector.initial (repeat (1, 0) 10))
  = [(8%nat, bloom)].
Proof. vm_compute. reflexivity. Qed.

(** The example run of the specification: events at frames 2 and 6 only. *)
Example hysteresis_example :
  snd (Detector.feed false [0; 0.3; 0.65; 0.7; 0.5; 0.1; 0.65])
  = [(2%nat, bloom); (6%nat, bloom)].
Proof. reflexivity. Qed.

(** ** The two-latch detector over a run of frames *)

Section MoodDetectorRuns.
Import MoodDetector.

Lemma mood_feedFrom_app (o : bool) (f : nat) (l : Latches) (xs ys : list Q) :
  feedFrom o f l (xs ++ ys)
  = (fst (feedFrom o (f + length xs) (fst (feedFrom o f l xs)) ys),
     snd (feedFrom o f l xs)
     ++ snd (feedFrom o (f + length xs) (fst (feedFrom o f l xs)) ys)).
Proof.
  revert f l. induction xs as [|a xs IH]; intros f l; simpl.
  - rewrite Nat.add_0_r. destruct (feedFrom o f l ys); reflexivity.
  - destruct (eventLogic o l a) as [l1 e1].
    rewrite IH. replace (S f + length xs)%nat with (f + S (length xs))%nat by lia.
    destruct (feedFrom o (S f) l1 xs) as [l2 e2]; simpl.
    rewrite app_assoc. reflexivity.
Qed.

Lemma witherEvents_app (xs ys : list (nat * TreeEventType)) :
  witherEvents (xs ++ ys) = witherEvents xs ++ witherEvents ys.
Proof.
  induction xs as [|e xs IH]; simpl; [reflexivity|].
  destruct (isWither e); simpl; rewrite IH; reflexivity.
Qed.

Lemma witherEvents_bloom (f : nat) (evs : list TreeEventType) :
  Forall (fun e => e = bloom) evs -> witherEvents (stamp f evs) = [].
Proof.
  induction 1 as [|e evs He _ IH]; simpl; [reflexivity|].
  subst e. exact IH.
Qed.

(** One frame, seen from the wither latch. *)
Lemma eventLogic_wither (o : bool) (l : Latches) (v : Q) (f : nat) :
  wasWithering (fst (eventLogic o l v)) = fst (witherLogic o (wasWithering l) v) /\
  witherEvents (stamp f (snd (eventLogic o l v)))
  = witherEvents (stamp f (snd (witherLogic o (wasWithering l) v))).
Proof.
  unfold eventLogic.
  pose proof (bloom_only_bloom o (wasBlooming l) v) as Hb.
  destruct (bloomLogic o (wasBlooming l) v) as [b evb].
  destruct (witherLogic o (wasWithering l) v) as [w evw]. simpl in *.
  split; [reflexivity|].
  unfold stamp. rewrite map_app, witherEvents_app.
  fold (stamp f evb). rewrite (witherEvents_bloom f evb Hb). reflexivity.
Qed.

(** A frame on which the wither block neither fires nor changes its latch. *)
Lemma feedFrom_wither_quiet (o : bool) (w : bool) (xs : list Q) :
  Forall (fun m => witherLogic o w m = (w, [])) xs ->
  forall (f : nat) (l : Latches),
  wasWithering l = w ->
  wasWithering (fst (feedFrom o f l xs)) = w /\
  witherEvents (snd (feedFrom o f l xs)) = [].
Proof.
  induction 1 as [|a xs Ha _ IH]; intros f l Hl; simpl.
  - split; [exact Hl | reflexivity].
  - destruct (eventLogic_wither o l a f) as [H1 H2].
    rewrite Hl, Ha in H1, H2. simpl in H1, H2.
    destruct (eventLogic o l a) as [l1 e1]. simpl in H1, H2.
    destruct (IH (S f) l1 H1) as [H3 H4].
    destruct (feedFrom o (S f) l1 xs) as [l2 e2]. simpl in *.
    split; [exact H3|].
    rewrite witherEvents_app, H2, H4. reflexivity.
Qed.

Lemma bloom_silent (o l : bool) (v : Q) :
  v <= 0.6 -> snd (bloomLogic o l v) = [].
Proof.
  intros H. unfold bloomLogic. destruct l; simpl; case_cmp; simpl; try reflexivity; lra.
Qed.

(** The latches are never both set after a frame that started with at most
    one of them set. *)
Lemma eventLogic_exclusive (o : bool) (l : Latches) (v : Q) :
  wasBlooming l && wasWithering l = false ->
  wasBlooming (fst (eventLogic o l v)) && wasWithering (fst (eventLogic o l v)) = false.
Proof.
  destruct l as [b w]. unfold eventLogic, bloomLogic, witherLogic. simpl.
  destruct b, w; simpl; intros H; try discriminate;
    case_cmp; simpl; try reflexivity; lra.
Qed.

Lemma feedFrom_exclusive (o : bool) (moods : list Q) :
  forall (f : nat) (l : Latches),
  wasBlooming l && wasWithering l = false ->
  wasBlooming (fst (feedFrom o f l moods))
  && wasWithering (fst (feedFrom o f l moods)) = false.
Proof.
  induction moods as [|m moods IH]; intros f l Hl; simpl.
  - exact Hl.
  - pose proof (eventLogic_exclusive o l m Hl) as H1.
    destruct (eventLogic o l m) as [l1 e1]. simpl in H1.
    specialize (IH (S f) l1 H1).
    destruct (feedFrom o (S f) l1 moods) as [l2 e2]. exact IH.
Qed.

End MoodDetectorRuns.

(** C8.  In the mood-only variant, from a clear wither latch (whatever the
    bloom latch), a run of smoothed moods that first falls below -0.6 at
    frame [length pre] and then stays at or below -0.2 emits the single
    event [wither], at that frame, and leaves the wither latch set; once
    the mood rises above -0.2 the latch clears, the wither block emits
    nothing, and the wither events of the run are still that single one
    (all the events of the run are unchanged when the clearing mood is at
    most 0.6, so that the bloom block stays silent).  The wither block is
    the bloom block applied to the negated mood. *)
Theorem wither_hysteresis (b : bool) (pre mid : list Q) (v w : Q) :
  Forall (fun m => -0.6 <= m) pre ->
  v < -0.6 ->
  Forall (fun m => m <= -0.2) mid ->
  -0.2 < w ->
  let latched :=
    MoodDetector.feed (MoodDetector.mkLatches b false) (pre ++ v :: mid) in
  let cleared :=
    MoodDetector.feed (MoodDetector.mkLatches b false) (pre ++ v :: mid ++ [w]) in
  MoodDetector.wasWithering (fst latched) = true /\
  MoodDetector.witherEvents (snd latched) = [(length pre, wither)] /\
  MoodDetector.wasWithering (fst cleared) = false /\
  MoodDetector.witherEvents (snd cleared) = [(length pre, wither)] /\
  witherLogic true true w = (false, []) /\
  (w <= 0.6 -> snd cleared = snd latched) /\
  (forall (l : bool) (m : Q),
     witherLogic true l m
     = (fst (bloomLogic true l (- m)),
        map (fun _ => wither) (snd (bloomLogic true l (- m))))).
Proof.
  intros Hpre Hv Hmid Hw.
  assert (Qpre : Forall (fun m => witherLogic true false m = (false, [])) pre).
  { eapply Forall_impl; [exact Hpre|]. intros a Ha. apply wither_idle, Ha. }
  assert (Qmid : Forall (fun m => witherLogic true true m = (true, [])) mid).
  { eapply Forall_impl; [exact Hmid|]. intros a Ha. apply wither_holds, Ha. }
  set (l0 := MoodDetector.mkLatches b false).
  destruct (feedFrom_wither_quiet true false pre Qpre 0 l0 eq_refl) as [P1 P2].
  (* the frame that fires *)
  set (l1 := fst (MoodDetector.feedFrom true 0 l0 pre)) in *.
  destruct (eventLogic_wither true l1 v (length pre)) as [F1 F2].
  rewrite P1, (wither_fires v Hv) in F1, F2.
  cbn [fst snd stamp map MoodDetector.witherEvents MoodDetector.isWither]
    in F1, F2.
  set (l2 := fst (MoodDetector.eventLogic true l1 v)) in *.
  destruct (feedFrom_wither_quiet true true mid Qmid (S (length pre)) l2 F1)
    as [M1 M2].
  set (l3 := fst (MoodDetector.feedFrom true (S (length pre)) l2 mid)) in *.
  (* the frame that clears *)
  destruct (eventLogic_wither true l3 w (S (length pre) + length mid))
    as [C1 C2].
  rewrite M1, (wither_clears true w Hw) in C1, C2.
  cbn [fst snd stamp map MoodDetector.witherEvents MoodDetector.isWither]
    in C1, C2.
  assert (Elatched :
    MoodDetector.feed l0 (pre ++ v :: mid)
    = (l3, snd (MoodDetector.feedFrom true 0 l0 pre)
           ++ stamp (length pre) (snd (MoodDetector.eventLogic true l1 v))
           ++ snd (MoodDetector.feedFrom true (S (length pre)) l2 mid))).
  { unfold MoodDetector.feed. rewrite mood_feedFrom_app. fold l1. simpl.
    unfold l3, l2.
    destruct (MoodDetector.eventLogic true l1 v) as [la ea]. simpl.
    destruct (MoodDetector.feedFrom true (S (length pre)) la mid); reflexivity. }
  assert (Ecleared :
    MoodDetector.feed l0 (pre ++ v :: mid ++ [w])
    = (fst (MoodDetector.eventLogic true l3 w),
       snd (MoodDetector.feed l0 (pre ++ v :: mid))
       ++ stamp (S (length pre) + length mid)
                (snd (MoodDetector.eventLogic true l3 w)))).
  { rewrite Elatched. unfold MoodDetector.feed.
    rewrite mood_feedFrom_app. fold l1. simpl.
    unfold l3, l2.
    destruct (MoodDetector.eventLogic true l1 v) as [la ea]. simpl.
    rewrite mood_feedFrom_app. simpl.
    destruct (MoodDetector.feedFrom true (S (length pre)) la mid) as [lb eb]. simpl.
    destruct (MoodDetector.eventLogic true lb w) as [lc ec]. simpl.
    rewrite app_nil_r, <- !app_assoc. reflexivity. }
  cbv zeta. rewrite Ecleared, Elatched. cbn [fst snd].
  repeat split.
  - exact M1.
  - rewrite witherEvents_app, witherEvents_app, P2, F2, M2. reflexivity.
  - exact C1.
  - rewrite !witherEvents_app, P2, F2, M2, C2. reflexivity.
  - apply wither_clears, Hw.
  - intros Hw'. unfold MoodDetector.eventLogic.
    rewrite M1, (wither_clears true w Hw).
    pose proof (bloom_silent true (MoodDetector.wasBlooming l3) w Hw') as S.
    destruct (bloomLogic true (MoodDetector.wasBlooming l3) w) as [bb eb].
    simpl in S. subst eb. simpl. rewrite app_nil_r. reflexivity.
  - intros l m. apply wither_mirrors_bloom.
Qed.

Lemma wither_hysteresis_witness :
  let latched :=
    MoodDetector.feed (MoodDetector.mkLatches false false)
                      ([0; 0.7; -0.3] ++ -0.65 :: [-0.7; -0.3]) in
  let cleared :=
    MoodDetector.feed (MoodDetector.mkLatches false false)
                      ([0; 0.7; -0.3] ++ -0.65 :: [-0.7; -0.3] ++ [0.1]) in
  MoodDetector.wasWithering (fst latched) = true /\
  MoodDetector.witherEvents (snd latched) = [(length [0; 0.7; -0.3], wither)] /\
  MoodDetector.wasWithering (fst cleared) = false /\
  MoodDetector.witherEvents (snd cleared) = [(length [0; 0.7; -0.3], wither)] /\
  witherLogic true true 0.1 = (false, []) /\
  (0.1 <= 0.6 -> snd cleared = snd latched) /\
  (forall (l : bool) (m : Q),
     witherLogic true l m
     = (fst (bloomLogic true l (- m)),
        map (fun _ => wither) (snd (bloomLogic true l (- m))))).
Proof.
  apply (wither_hysteresis false [0; 0.7; -0.3] [-0.7; -0.3] (-0.65) 0.1).
  - repeat constructor; unfold Qle; simpl; lia.
  - reflexivity.
  - repeat constructor; unfold Qle; simpl; lia.
  - reflexivity.
Defined.

(** A run of the two-latch detector with a bloom between two withers. *)
Example mood_variant_example :
  snd (MoodDetector.feed MoodDetector.initial [0; 0.7; -0.3; -0.65; -0.7; 0.1; -0.61])
  = [(1%nat, bloom); (3%nat, wither); (6%nat, wither)].
Proof. reflexivity. Qed.

(** C9.  In the mood-only variant, started with both latches clear, the
    bloom latch and the wither latch are never both set at the end of a
    frame: whatever the smoothed moods [moods] of the run, after each
    number [n] of frames at most one of them is set. *)
Theorem latches_exclusive (moods : list Q) (n : nat) :
  let l := fst (MoodDetector.feed MoodDetector.initial (take n moods)) in
  MoodDetector.wasBlooming l && MoodDetector.wasWithering l = false.
Proof.
  cbv zeta. unfold MoodDetector.feed.
  apply feedFrom_exclusive. reflexivity.
Qed.

(** ** The smoother *)

(** One step multiplies the signed distance to the target by 0.9. *)
Lemma smoothMood_error (s m : Q) : smoothMood s m - m == 0.9 * (s - m).
Proof. unfold smoothMood, lerp. ring. Qed.

Lemma smoothMood_below (s m : Q) :
  s <= m -> s <= smoothMood s m <= m.
Proof. intros H. pose proof (smoothMood_error s m). lra. Qed.

Lemma smoothMood_above (s m : Q) :
  m <= s -> m <= smoothMood s m <= s.
Proof. intros H. pose proof (smoothMood_error s m). lra. Qed.

Lemma smoothMood_fixed (s m : Q) : s == m -> smoothMood s m == m.
Proof. intros H. pose proof (smoothMood_error s m). lra. Qed.

Lemma smoothMood_apart (s m : Q) : ~ s == m -> ~ smoothMood s m == m.
Proof. intros H E. apply H. pose proof (smoothMood_error s m). lra. Qed.

Lemma dist_smoothMood (s m : Q) :
  dist (smoothMood s m) m == 0.9 * dist s m.
Proof.
  unfold dist, abs. rewrite smoothMood_error, Qabs_Qmult.
  rewrite (Qabs_pos 0.9); [reflexivity | lra].
Qed.

Lemma dist_pos (s m : Q) : ~ s == m -> 0 < dist s m.
Proof.
  intros H. unfold dist, abs.
  destruct (Qlt_le_dec 0 (Qabs (s - m))) as [L|L]; [exact L|].
  exfalso. apply H.
  pose proof (Qabs_nonneg (s - m)) as N.
  assert (Z : Qabs (s - m) == 0) by lra.
  pose proof (Qle_Qabs (s - m)) as U.
  pose proof (Qle_Qabs (- (s - m))) as V.
  rewrite Qabs_opp in V. lra.
Qed.

Lemma moodAfter_apart (n : nat) (s0 m : Q) :
  ~ s0 == m -> ~ moodAfter n s0 m == m.
Proof.
  intros H. induction n as [|n IH]; simpl; [exact H|].
  apply smoothMood_apart, IH.
Qed.

Lemma moodAfter_below (n : nat) (s0 m : Q) :
  s0 <= m -> moodAfter n s0 m <= m.
Proof.
  intros H. induction n as [|n IH]; simpl; [exact H|].
  apply smoothMood_below, IH.
Qed.

Lemma moodAfter_above (n : nat) (s0 m : Q) :
  m <= s0 -> m <= moodAfter n s0 m.
Proof.
  intros H. induction n as [|n IH]; simpl; [exact H|].
  apply smoothMood_above, IH.
Qed.

(** *** In a number format *)

(** The rounded literal of a blend factor is still a small fraction. *)
Lemma fl_amt (fl : Q -> Q) (R a : Q) :
  rounds fl R -> 1 <= R -> 0 <= a <= 1 # 8 -> 0 <= fl a <= 1 # 4.
Proof.
  intros (Hmono & H0 & _ & Hpos & _) HR [A1 A2].
  split.
  - rewrite <- H0. apply Hmono; lra.
  - pose proof (Hpos a ltac:(lra)). lra.
Qed.

Lemma lerpR_up (fl : Q -> Q) (R c t a : Q) :
  rounds fl R ->
  fl c == c -> fl t == t -> 0 <= a <= 1 # 4 ->
  - R <= 4 * c -> 4 * t <= R -> c <= t ->
  c <= lerpR fl c t a <= t /\ fl (lerpR fl c t a) == lerpR fl c t a.
Proof.
  intros (Hmono & H0 & Hidem & Hpos & Hneg) Fc Ft [A1 A2] Rc Rt Hct. unfold lerpR.
  assert (D0 : 0 <= fl (t - c)) by (rewrite <- H0; apply Hmono; lra).
  assert (D1 : fl (t - c) <= 2 * (t - c)) by (apply Hpos; lra).
  assert (X2 : 0 <= a * fl (t - c) <= (1 # 4) * fl (t - c)) by (split; nra).
  assert (P0 : 0 <= fl (a * fl (t - c))) by (rewrite <- H0; apply Hmono; lra).
  assert (P1 : fl (a * fl (t - c)) <= 2 * (a * fl (t - c))) by (apply Hpos; lra).
  assert (L : fl c <= fl (fl (a * fl (t - c)) + c)) by (apply Hmono; lra).
  assert (U : fl (fl (a * fl (t - c)) + c) <= fl t) by (apply Hmono; lra).
  split; [lra|]. apply Hidem. lra.
Qed.

Lemma lerpR_down (fl : Q -> Q) (R c t a : Q) :
  rounds fl R ->
  fl c == c -> fl t == t -> 0 <= a <= 1 # 4 ->
  - R <= 4 * t -> 4 * c <= R -> t <= c ->
  t <= lerpR fl c t a <= c /\ fl (lerpR fl c t a) == lerpR fl c t a.
Proof.
  intros (Hmono & H0 & Hidem & Hpos & Hneg) Fc Ft [A1 A2] Rt Rc Hct. unfold lerpR.
  assert (D0 : fl (t - c) <= 0) by (rewrite <- H0; apply Hmono; lra).
  assert (D1 : 2 * (t - c) <= fl (t - c)) by (apply Hneg; lra).
  assert (X2 : (1 # 4) * fl (t - c) <= a * fl (t - c) <= 0) by (split; nra).
  assert (P0 : fl (a * fl (t - c)) <= 0) by (rewrite <- H0; apply Hmono; lra).
  assert (P1 : 2 * (a * fl (t - c)) <= fl (a * fl (t - c))) by (apply Hneg; lra).
  assert (L : fl t <= fl (fl (a * fl (t - c)) + c)) by (apply Hmono; lra).
  assert (U : fl (fl (a * fl (t - c)) + c) <= fl c) by (apply Hmono; lra).
  split; [lra|]. apply Hidem. lra.
Qed.

(** *** binary64 rounds *)

Lemma Qfloor_unique (y : Q) (z : Z) :
  inject_Z z <= y -> y < inject_Z (z + 1) -> Qfloor y = z.
Proof.
  intros L U.
  pose proof (Qfloor_le y) as A. pose proof (Qlt_floor y) as B.
  assert (C1 : (Qfloor y < z + 1)%Z).
  { rewrite Zlt_Qlt. lra. }
  assert (C2 : (z < Qfloor y + 1)%Z).
  { rewrite Zlt_Qlt. lra. }
  lia.
Qed.

Lemma Qrne_cases (q : Q) :
  (q - inject_Z (Qfloor q) < 1 # 2 /\ Qrne q = Qfloor q) \/
  (1 # 2 < q - inject_Z (Qfloor q) /\ Qrne q = (Qfloor q + 1)%Z) \/
  (q - inject_Z (Qfloor q) == 1 # 2 /\
   Qrne q = if Z.even (Qfloor q) then Qfloor q else (Qfloor q + 1)%Z).
Proof.
  unfold Qrne. cbv zeta.
  destruct (Qcompare (q - inject_Z (Qfloor q)) (1 # 2)) eqn:C.
  - right. right. apply Qeq_alt in C. split; [exact C | reflexivity].
  - left. apply Qlt_alt in C. split; [exact C | reflexivity].
  - right. left. apply Qgt_alt in C. split; [exact C | reflexivity].
Qed.

Lemma Qrne_floor (q : Q) : (Qfloor q <= Qrne q <= Qfloor q + 1)%Z.
Proof.
  destruct (Qrne_cases q) as [[_ ->] | [[_ ->] | [_ ->]]]; try lia.
  destruct (Z.even (Qfloor q)); lia.
Qed.

Lemma Qrne_near (q : Q) :
  q - (1 # 2) <= inject_Z (Qrne q) <= q + (1 # 2).
Proof.
  pose proof (Qfloor_le q) as A. pose proof (Qlt_floor q) as B.
  rewrite inject_Z_plus in B.
  assert (E1 : inject_Z 1 == 1) by reflexivity.
  destruct (Qrne_cases q) as [[H ->] | [[H ->] | [H ->]]].
  - lra.
  - rewrite inject_Z_plus. lra.
  - destruct (Z.even (Qfloor q)); [|rewrite inject_Z_plus]; lra.
Qed.

Lemma Qrne_Z (n : Z) (q : Q) : q == inject_Z n -> Qrne q = n.
Proof.
  intros E.
  assert (F : Qfloor q = n) by (rewrite E; apply Qfloor_Z).
  destruct (Qrne_cases q) as [[H ->] | [[H _] | [H _]]].
  - exact F.
  - rewrite F in H. lra.
  - rewrite F in H. lra.
Qed.

Lemma Qrne_mono (p q : Q) : p <= q -> (Qrne p <= Qrne q)%Z.
Proof.
  intros H.
  pose proof (Qfloor_resp_le p q H) as F.
  pose proof (Qrne_floor p) as Bp. pose proof (Qrne_floor q) as Bq.
  destruct (Z.eq_dec (Qfloor p) (Qfloor q)) as [E|N]; [|lia].
  destruct (Qrne_cases p) as [[Hp Ep] | [[Hp Ep] | [Hp Ep]]]; [lia| |].
  - destruct (Qrne_cases q) as [[Hq Eq] | [[Hq Eq] | [Hq Eq]]].
    + exfalso. rewrite E in Hp. lra.
    + lia.
    + exfalso. rewrite E in Hp. lra.
  - destruct (Qrne_cases q) as [[Hq Eq] | [[Hq Eq] | [Hq Eq]]].
    + exfalso. rewrite E in Hp. lra.
    + lia.
    + rewrite Ep, Eq, E. lia.
Qed.

Lemma Qrne_double (q : Q) : 0 <= q -> inject_Z (Qrne q) <= 2 * q.
Proof.
  intros H. destruct (Qlt_le_dec q (1 # 2)) as [S|B].
  - assert (F : Qfloor q = 0%Z).
    { apply Qfloor_unique.
      - assert (E0 : inject_Z 0 == 0) by reflexivity. lra.
      - assert (E1 : inject_Z (0 + 1) == 1) by reflexivity. lra. }
    destruct (Qrne_cases q) as [[_ ->] | [[Hq _] | [Hq _]]].
    + rewrite F. assert (E0 : inject_Z 0 == 0) by reflexivity. lra.
    + rewrite F in Hq. assert (E0 : inject_Z 0 == 0) by reflexivity. lra.
    + rewrite F in Hq. assert (E0 : inject_Z 0 == 0) by reflexivity. lra.
  - pose proof (Qrne_near q). lra.
Qed.

Lemma Qrne_nonneg (q : Q) : 0 <= q -> (0 <= Qrne q)%Z.
Proof.
  intros H. pose proof (Qrne_mono 0 q H) as M.
  rewrite (Qrne_Z 0 0) in M by reflexivity. exact M.
Qed.

(** Powers of two. *)

Lemma pow2_pos (e : Z) : 0 < pow2 e.
Proof. apply Qpower_0_lt. reflexivity. Qed.

Lemma pow2_plus (a b : Z) : pow2 (a + b) == pow2 a * pow2 b.
Proof. apply Qpower_plus. discriminate. Qed.

Lemma pow2_succ (a : Z) : pow2 (a + 1) == 2 * pow2 a.
Proof. rewrite pow2_plus. change (pow2 1) with (2 # 1). ring. Qed.

Lemma pow2_le (a b : Z) : (a <= b)%Z -> pow2 a <= pow2 b.
Proof. intros H. apply Qpower_le_compat_l; [exact H | discriminate]. Qed.

Lemma pow2_lt (a b : Z) : (a < b)%Z -> pow2 a < pow2 b.
Proof. intros H. apply Qpower_lt_compat_l; [exact H | reflexivity]. Qed.

Lemma pow2_lt_inv (a b : Z) : pow2 a < pow2 b -> (a < b)%Z.
Proof. intros H. apply (Qpower_lt_compat_l_inv 2); [exact H | reflexivity]. Qed.

Lemma pow2_Z (n : Z) : (0 <= n)%Z -> pow2 n == inject_Z (2 ^ n).
Proof. intros H. unfold pow2. rewrite (Zpower_Qpower 2 n H). reflexivity. Qed.

(** The binade of a positive rational. *)

Lemma Z_log2_Q (a : Z) :
  (0 < a)%Z ->
  pow2 (Z.log2 a) <= inject_Z a < 2 * pow2 (Z.log2 a).
Proof.
  intros H. destruct (Z.log2_spec a H) as [L U].
  pose proof (Z.log2_nonneg a) as N.
  rewrite <- pow2_succ.
  rewrite (pow2_Z (Z.log2 a) N), (pow2_Z (Z.log2 a + 1)) by lia.
  split; [rewrite <- Zle_Qle; exact L | rewrite <- Zlt_Qlt; exact U].
Qed.

Lemma Qlog2_spec (x : Q) :
  0 < x -> pow2 (Qlog2 x) <= x < pow2 (Qlog2 x + 1).
Proof.
  intros Hx. unfold Qlog2. cbv zeta.
  set (la := Z.log2 (Qnum x)). set (lb := Z.log2 (Zpos (Qden x))).
  assert (Ha : (0 < Qnum x)%Z).
  { unfold Qlt in Hx. simpl in Hx. lia. }
  destruct (Z_log2_Q (Qnum x) Ha) as [A1 A2]. fold la in A1, A2.
  destruct (Z_log2_Q (Zpos (Qden x)) eq_refl) as [B1 B2]. fold lb in B1, B2.
  assert (Ex : x * inject_Z (Zpos (Qden x)) == inject_Z (Qnum x)).
  { destruct x as [n d]. unfold Qeq. simpl.
    rewrite ?Pos.mul_1_r, ?Z.mul_1_r. reflexivity. }
  pose proof (pow2_pos la) as Pa. pose proof (pow2_pos lb) as Pb.
  assert (K : pow2 (la - lb) * pow2 lb == pow2 la).
  { rewrite <- pow2_plus. replace (la - lb + lb)%Z with la by ring.
    reflexivity. }
  assert (K1 : pow2 (la - lb - 1) * (2 * pow2 lb) == pow2 la).
  { rewrite <- pow2_succ, <- pow2_plus.
    replace (la - lb - 1 + (lb + 1))%Z with la by ring. reflexivity. }
  assert (K2 : pow2 (la - lb + 1) * pow2 lb == 2 * pow2 la).
  { rewrite <- pow2_succ, <- pow2_plus.
    replace (la - lb + 1 + lb)%Z with (la + 1)%Z by ring. reflexivity. }
  assert (L : pow2 (la - lb - 1) < x).
  { apply (Qmult_lt_r _ _ (2 * pow2 lb)); [lra|]. rewrite K1. nra. }
  assert (U : x < pow2 (la - lb + 1)).
  { apply (Qmult_lt_r _ _ (inject_Z (Zpos (Qden x)))); [lra|].
    rewrite Ex. pose proof (pow2_pos (la - lb + 1)). nra. }
  destruct (Qle_bool (pow2 (la - lb)) x) eqn:C.
  - apply Qle_bool_iff in C. split; [exact C | exact U].
  - split; [lra|].
    replace (la - lb - 1 + 1)%Z with (la - lb)%Z by ring.
    destruct (Qlt_le_dec x (pow2 (la - lb))) as [H|H]; [exact H|].
    apply Qle_bool_iff in H. congruence.
Qed.

Lemma Qlog2_unique (x : Q) (k : Z) :
  pow2 k <= x < pow2 (k + 1) -> Qlog2 x = k.
Proof.
  intros [L U].
  assert (Hx : 0 < x) by (pose proof (pow2_pos k); lra).
  destruct (Qlog2_spec x Hx) as [L' U'].
  assert (C1 : (k < Qlog2 x + 1)%Z) by (apply pow2_lt_inv; lra).
  assert (C2 : (Qlog2 x < k + 1)%Z) by (apply pow2_lt_inv; lra).
  lia.
Qed.

Lemma Qlog2_mono (x y : Q) : 0 < x -> x <= y -> (Qlog2 x <= Qlog2 y)%Z.
Proof.
  intros Hx H.
  destruct (Qlog2_spec x Hx) as [L U].
  destruct (Qlog2_spec y ltac:(lra)) as [L' U'].
  assert (C : (Qlog2 x < Qlog2 y + 1)%Z) by (apply pow2_lt_inv; lra).
  lia.
Qed.

(** Rounding to a binary grid. *)

Lemma Qrne_comp (p q : Q) : p == q -> Qrne p = Qrne q.
Proof.
  intros E.
  pose proof (Qrne_mono p q ltac:(lra)). pose proof (Qrne_mono q p ltac:(lra)).
  lia.
Qed.

Lemma toMultiple_mono (e : Z) (x y : Q) :
  x <= y -> toMultiple e x <= toMultiple e y.
Proof.
  intros H. unfold toMultiple. pose proof (pow2_pos e) as P.
  apply Qmult_le_r; [exact P|]. rewrite <- Zle_Qle. apply Qrne_mono.
  apply Qle_shift_div_l; [exact P|].
  unfold Qdiv. rewrite <- Qmult_assoc, (Qmult_comm (/ pow2 e)).
  rewrite Qmult_inv_r by lra. lra.
Qed.

Lemma toMultiple_fix (e n : Z) (x : Q) :
  x == inject_Z n * pow2 e -> toMultiple e x == x.
Proof.
  intros E. unfold toMultiple. pose proof (pow2_pos e) as P.
  rewrite (Qrne_Z n).
  - symmetry. exact E.
  - rewrite E. unfold Qdiv. rewrite <- Qmult_assoc.
    rewrite Qmult_inv_r by lra. ring.
Qed.

Lemma toMultiple_double (e : Z) (x : Q) : 0 <= x -> toMultiple e x <= 2 * x.
Proof.
  intros H. unfold toMultiple. pose proof (pow2_pos e) as P.
  assert (D : 0 <= x / pow2 e).
  { apply Qle_shift_div_l; [exact P | lra]. }
  pose proof (Qrne_double _ D) as B.
  assert (E : x / pow2 e * pow2 e == x).
  { unfold Qdiv. rewrite <- Qmult_assoc, (Qmult_comm (/ pow2 e)).
    rewrite Qmult_inv_r by lra. ring. }
  apply (Qmult_le_r _ _ (pow2 e) P) in B. lra.
Qed.

Lemma toMultiple_nonneg (e : Z) (x : Q) : 0 <= x -> 0 <= toMultiple e x.
Proof.
  intros H. rewrite <- (toMultiple_fix e 0 0) by ring.
  apply toMultiple_mono, H.
Qed.

Lemma pow2_multiple (e k : Z) :
  (e <= k)%Z -> pow2 k == inject_Z (2 ^ (k - e)) * pow2 e.
Proof.
  intros H. rewrite <- pow2_Z by lia. rewrite <- pow2_plus.
  replace (k - e + e)%Z with k by ring. reflexivity.
Qed.

Lemma toMultiple_pow2 (e k : Z) :
  (e <= k)%Z -> toMultiple e (pow2 k) == pow2 k.
Proof. intros H. apply (toMultiple_fix e (2 ^ (k - e))), pow2_multiple, H. Qed.

(** The rounding of binary64. *)

Lemma round64_pos (x : Q) : 0 < x -> round64 x = toMultiple (ulpExp x) x.
Proof.
  intros H. unfold round64. unfold Qlt in H. simpl in H.
  destruct (Qnum x); [lia | reflexivity | lia].
Qed.

Lemma round64_neg (x : Q) :
  x < 0 -> round64 x = - toMultiple (ulpExp (- x)) (- x).
Proof.
  intros H. unfold round64. unfold Qlt in H. simpl in H.
  destruct (Qnum x); [lia | lia | reflexivity].
Qed.

Lemma round64_zero (x : Q) : x == 0 -> round64 x = 0.
Proof.
  intros H. unfold round64. unfold Qeq in H. simpl in H.
  destruct (Qnum x); [reflexivity | lia | lia].
Qed.

Lemma ulpExp_mono (x y : Q) : 0 < x -> x <= y -> (ulpExp x <= ulpExp y)%Z.
Proof.
  intros Hx H. unfold ulpExp. pose proof (Qlog2_mono x y Hx H). lia.
Qed.

Lemma ulpExp_comp (x y : Q) : 0 < x -> x == y -> ulpExp x = ulpExp y.
Proof.
  intros Hx E.
  pose proof (ulpExp_mono x y Hx ltac:(lra)).
  pose proof (ulpExp_mono y x ltac:(lra) ltac:(lra)). lia.
Qed.

Lemma rpos_mono (x y : Q) :
  0 < x -> x <= y ->
  toMultiple (ulpExp x) x <= toMultiple (ulpExp y) y.
Proof.
  intros Hx H.
  pose proof (ulpExp_mono x y Hx H) as M.
  destruct (Z.eq_dec (ulpExp x) (ulpExp y)) as [E|N].
  - rewrite E. apply toMultiple_mono, H.
  - assert (Hy : 0 < y) by lra.
    destruct (Qlog2_spec x Hx) as [Lx Ux].
    destruct (Qlog2_spec y Hy) as [Ly Uy].
    assert (Ey : ulpExp y = (Qlog2 y - 52)%Z) by (unfold ulpExp in *; lia).
    assert (K : (Qlog2 x + 1 <= Qlog2 y)%Z) by (unfold ulpExp in *; lia).
    pose proof (pow2_le _ _ K) as B.
    apply (Qle_trans _ (pow2 (Qlog2 y))).
    + rewrite <- (toMultiple_pow2 (ulpExp x) (Qlog2 y)) by lia.
      apply toMultiple_mono. lra.
    + rewrite <- (toMultiple_pow2 (ulpExp y) (Qlog2 y)) at 1 by lia.
      apply toMultiple_mono. lra.
Qed.

(** A rounded positive number is a multiple of its own last place. *)
Lemma rpos_idem (x : Q) :
  0 < x -> 0 < toMultiple (ulpExp x) x ->
  toMultiple (ulpExp (toMultiple (ulpExp x) x)) (toMultiple (ulpExp x) x)
  == toMultiple (ulpExp x) x.
Proof.
  intros Hx Hr.
  set (e := ulpExp x) in *. set (r := toMultiple e x) in *.
  destruct (Qlog2_spec x Hx) as [Lx Ux].
  assert (He : (Qlog2 x - 52 <= e)%Z /\ (-1074 <= e)%Z)
    by (unfold e, ulpExp; lia).
  assert (Top : r <= pow2 (e + 53)).
  { unfold r. rewrite <- (toMultiple_pow2 e (e + 53)) by lia.
    apply toMultiple_mono.
    pose proof (pow2_le (Qlog2 x + 1) (e + 53) ltac:(lia)). lra. }
  destruct (Qlog2_spec r Hr) as [Lr Ur].
  assert (Kr : (Qlog2 r <= e + 53)%Z).
  { assert (C : (Qlog2 r < e + 53 + 1)%Z).
    { apply pow2_lt_inv. pose proof (pow2_lt (e + 53) (e + 53 + 1) ltac:(lia)).
      lra. }
    lia. }
  destruct (Z_le_gt_dec (ulpExp r) e) as [Le|Gt].
  - apply (toMultiple_fix _ (Qrne (x / pow2 e) * 2 ^ (e - ulpExp r))).
    unfold r at 1. unfold toMultiple.
    rewrite inject_Z_mult, <- Qmult_assoc.
    rewrite <- (pow2_multiple (ulpExp r) e Le). reflexivity.
  - assert (E1 : ulpExp r = (e + 1)%Z) by (unfold ulpExp in *; lia).
    assert (E2 : Qlog2 r = (e + 53)%Z) by (unfold ulpExp in *; lia).
    rewrite E2 in Lr.
    assert (Er : r == pow2 (e + 53)) by lra.
    rewrite E1. apply (toMultiple_fix _ (2 ^ 52)).
    rewrite Er. rewrite (pow2_multiple (e + 1) (e + 53)) by lia.
    replace (e + 53 - (e + 1))%Z with 52%Z by ring. reflexivity.
Qed.

Lemma toMultiple_comp (e : Z) (x y : Q) :
  x == y -> toMultiple e x == toMultiple e y.
Proof.
  intros E. apply Qle_antisym; apply toMultiple_mono; lra.
Qed.

Lemma round64_mono (x y : Q) : x <= y -> round64 x <= round64 y.
Proof.
  intros H.
  destruct (Q_dec x 0) as [[Xn|Xp]|X0]; destruct (Q_dec y 0) as [[Yn|Yp]|Y0];
    rewrite ?(round64_neg x Xn), ?(round64_pos x Xp), ?(round64_zero x X0),
            ?(round64_neg y Yn), ?(round64_pos y Yp), ?(round64_zero y Y0);
    try (exfalso; lra).
  - pose proof (rpos_mono (- y) (- x) ltac:(lra) ltac:(lra)). lra.
  - pose proof (toMultiple_nonneg (ulpExp (- x)) (- x) ltac:(lra)).
    pose proof (toMultiple_nonneg (ulpExp y) y ltac:(lra)). lra.
  - pose proof (toMultiple_nonneg (ulpExp (- x)) (- x) ltac:(lra)). lra.
  - apply rpos_mono; assumption.
  - apply toMultiple_nonneg. lra.
  - lra.
Qed.

Lemma round64_idem (x : Q) : round64 (round64 x) == round64 x.
Proof.
  destruct (Q_dec x 0) as [[Xn|Xp]|X0].
  - rewrite (round64_neg x Xn).
    set (r := toMultiple (ulpExp (- x)) (- x)).
    assert (Hr : 0 <= r) by (apply toMultiple_nonneg; lra).
    destruct (Qle_lt_or_eq _ _ Hr) as [P|Z].
    + rewrite (round64_neg (- r)) by lra.
      assert (E : - - r == r) by ring.
      rewrite (ulpExp_comp (- - r) r) by lra.
      rewrite (toMultiple_comp _ (- - r) r E).
      unfold r. rewrite rpos_idem; [reflexivity | lra | exact P].
    + rewrite (round64_zero (- r)) by lra. lra.
  - rewrite (round64_pos x Xp).
    set (r := toMultiple (ulpExp x) x).
    assert (Hr : 0 <= r) by (apply toMultiple_nonneg; lra).
    destruct (Qle_lt_or_eq _ _ Hr) as [P|Z].
    + rewrite (round64_pos r P). apply rpos_idem; assumption.
    + rewrite (round64_zero r) by lra. lra.
  - rewrite (round64_zero x X0). reflexivity.
Qed.

(** binary64's rounding rounds, wherever its result is finite. *)
Lemma rounds_round64 (R : Q) : rounds round64 R.
Proof.
  split; [|split; [|split; [|split]]].
  - intros x y _ H _. apply round64_mono, H.
  - reflexivity.
  - intros x _. apply round64_idem.
  - intros x [H _].
    destruct (Qle_lt_or_eq _ _ H) as [P|Z].
    + rewrite (round64_pos x P). apply toMultiple_double, H.
    + rewrite (round64_zero x) by lra. lra.
  - intros x [_ H].
    destruct (Qle_lt_or_eq _ _ H) as [P|Z].
    + rewrite (round64_neg x P).
      pose proof (toMultiple_double (ulpExp (- x)) (- x) ltac:(lra)). lra.
    + rewrite (round64_zero x) by lra. lra.
Qed.

(** The model agrees with the binary64 numbers of Rocq: on sums,
    differences and products of numbers that include ties, subnormal
    results and the literals of the smoother, and on whole runs of the
    smoother, frame by frame. *)
Example round64_agrees :
  forallb opsAgree
    [ (1, 0x1p-53); (0x1.0000000000001p0, 0x1p-53);
      (0x1.0000000000001p0, 0x1.8p-53); (0x1.999999999999ap-4, 0x1.999999999999ap-3);
      (0x1.999999999999ap-4, 0x1.ffffffffffffcp-1); (0x1p-1074, 0x1p-1);
      (0x1.8p-1073, 0x1p-1); (0x1.fffffffffffffp1022, 0x1p-1);
      (0x1.921fb54442d18p1, -0x1.5bf0a8b145769p1); (-0x1p-1022, 0x1.fffffffffffffp-1) ]%float
  = true /\
  sameRun 400 0 1 0 1 = true /\
  sameRun 400 1 (-1) 1 (-1) = true /\
  sameRun 400 0 0x1.ccccccccccccdp-1 0 (round64 0.9) = true.
Proof.
  split; [vm_compute; reflexivity|]. split; [vm_compute; reflexivity|].
  split; vm_compute; reflexivity.
Qed.







(** With [fl] the identity the rounded smoother is the exact one, whose
    step multiplies the distance by 0.9 ([dist_smoothMood]). *)
Lemma rounds_exact (R : Q) : rounds (fun x => x) R.
Proof.
  split; [|split; [|split; [|split]]].
  - intros x y _ H _. exact H.
  - reflexivity.
  - intros x _. reflexivity.
  - intros x [H _]. lra.
  - intros x [_ H]. lra.
Qed.

Lemma moodAfterR_exact (n : nat) (s0 m : Q) :
  moodAfterR (fun x => x) n s0 m = moodAfter n s0 m.
Proof.
  induction n as [|n IH]; [reflexivity|].
  cbn [moodAfterR moodAfter]. rewrite IH. reflexivity.
Qed.

(** Beyond the exact model: in binary64 the step from 1 toward the next
    double, 1 + 2^-52, rounds back to 1, so next to its target the smoothed
    value can stall without reaching it. *)
Example lerp64_stalls :
  lerp64 1%float 0x1.0000000000001p0%float 0x1.999999999999ap-4%float = 1%float.
Proof. reflexivity. Qed.


(** ** The skeleton *)

Section SkeletonFacts.
Import Skeleton.
Variable rnd : nat -> Q.
Hypothesis rnd_range : forall i, 0 <= rnd i < 1.

Lemma nodes_unfold (b : Branch) : nodes b = b :: flat_map nodes (children b).
Proof. destruct b; reflexivity. Qed.

Lemma lenMult_range (r : Q) :
  0 <= r < 1 -> 0.64 <= 0.72 + (r * (0.08 - -0.08) + -0.08) <= 0.80.
Proof. intros H. lra. Qed.

Lemma builtAt_setAngleThick (d h : nat) (b : Branch) (a t : Q) :
  builtAt d h b -> builtAt d h (setAngleThick b a t).
Proof.
  intros (Hd & Hn & Hw). rewrite nodes_unfold in Hn, Hw.
  unfold builtAt. rewrite nodes_unfold. simpl.
  split; [exact Hd|]. split; [exact Hn|].
  inversion Hw as [|? ? Hb Hrest]; subst.
  constructor; [|exact Hrest].
  exact Hb.
Qed.

Lemma builtAt_setLenThick (d h : nat) (b : Branch) (l t : Q) :
  builtAt d h b -> builtAt d h (setLenThick b l t).
Proof.
  intros (Hd & Hn & Hw). rewrite nodes_unfold in Hn, Hw.
  unfold builtAt. rewrite nodes_unfold. simpl.
  split; [exact Hd|]. split; [exact Hn|].
  inversion Hw as [|? ? Hb Hrest]; subst.
  constructor; [|exact Hrest].
  exact Hb.
Qed.

Lemma childLoop_spec (create : Gen (option Branch)) (P : Branch -> Prop)
    (numBranches : nat) (baseAngle : Q) :
  (forall k, exists b k', create k = (Some b, k') /\ P b) ->
  (forall b a t, P b -> P (setAngleThick b a t)) ->
  forall (todo i : nat) (kids : list Branch) (k : nat),
  exists new k',
    childLoop rnd create numBranches baseAngle todo i kids k
    = (Some (kids ++ new), k') /\
    length new = todo /\ Forall P new.
Proof.
  intros Hcreate Hset. induction todo as [|todo IH]; intros i kids k.
  - exists [], k. simpl. rewrite app_nil_r. repeat split. constructor.
  - destruct (Hcreate k) as (b & k1 & Eb & Pb).
    cbn [childLoop]. unfold bind at 1. rewrite Eb.
    unfold bind at 1. unfold random2 at 1, bind at 1, rand at 1, ret at 1.
    match goal with
    | |- context [childLoop rnd create numBranches baseAngle todo (S i) (kids ++ [?c]) ?k2] =>
        destruct (IH (S i) (kids ++ [c]) k2) as (new & k' & E & L & F);
        exists (c :: new), k'
    end.
    rewrite E, <- app_assoc. simpl.
    repeat split; [congruence|].
    constructor; [apply Hset, Pb | exact F].
Qed.

Lemma createBranch_unfold (fuel d k : nat) :
  createBranch rnd (S fuel) d k
  = let branch :=
      mkBranch 0 0 d 0 [] (rnd k * (0.95 - 0.05) + 0.05)
               (rnd (S k) * 1 >? 0.5)
               (0.72 + (rnd (S (S k)) * (0.08 - -0.08) + -0.08)) in
    if (d <? MAX_DEPTH)%nat then
      match childLoop rnd (createBranch rnd fuel (S d)) 2 (PI / 5.0) 2 0 []
                      (S (S (S k))) with
      | (Some kids, k') => (Some (setChildren branch kids), k')
      | (None, k') => (None, k')
      end
    else (Some branch, S (S (S k))).
Proof.
  cbn [createBranch]. unfold bind, random2, random1, rand, ret, bind.
  destruct (d <? MAX_DEPTH)%nat; [|reflexivity].
  destruct (childLoop rnd (createBranch rnd fuel (S d)) 2 (PI / 5.0) 2 0 []
                      (S (S (S k)))) as [[kids|] k']; reflexivity.
Qed.

(** With a level of fuel for each remaining depth the builder returns a
    full binary subtree. *)
Lemma createBranch_spec (fuel : nat) :
  forall (d k : nat),
  (d + fuel = MAX_DEPTH)%nat ->
  exists b k', createBranch rnd (S fuel) d k = (Some b, k') /\ builtAt d (S fuel) b.
Proof.
  induction fuel as [|fuel IH]; intros d k Hd.
  - (* the deepest level *)
    rewrite createBranch_unfold. cbv zeta.
    assert (E : (d <? MAX_DEPTH)%nat = false) by (apply Nat.ltb_ge; lia).
    rewrite E. eexists _, _. split; [reflexivity|].
    unfold builtAt. rewrite nodes_unfold. simpl.
    split; [reflexivity|]. split; [reflexivity|].
    constructor; [|constructor]. unfold wellShaped. simpl.
    split; [lia|]. split; [lia|]. split; [reflexivity|].
    split; [constructor|]. apply lenMult_range, rnd_range.
  - rewrite createBranch_unfold. cbv zeta.
    assert (E : (d <? MAX_DEPTH)%nat = true) by (apply Nat.ltb_lt; lia).
    rewrite E.
    destruct (childLoop_spec (createBranch rnd (S fuel) (S d))
                (builtAt (S d) (S fuel)) 2 (PI / 5.0)
                (fun k0 => IH (S d) k0 ltac:(lia))
                (fun b a t => builtAt_setAngleThick (S d) (S fuel) b a t)
                2%nat 0%nat [] (S (S (S k))))
      as (new & k' & Ek & Ln & Fn).
    rewrite Ek. simpl app.
    destruct new as [|c0 [|c1 [|? ?]]]; try discriminate Ln.
    inversion Fn as [|? ? (D0 & N0 & W0) Fn']; subst.
    inversion Fn' as [|? ? (D1 & N1 & W1) _]; subst.
    eexists _, _. split; [reflexivity|].
    unfold builtAt. rewrite nodes_unfold. cbn [setChildren depth children app].
    cbn [flat_map]. rewrite app_nil_r.
    split; [reflexivity|]. split.
    + cbn [length]. rewrite length_app, N0, N1.
      change (2 ^ S (S fuel))%nat with (2 * 2 ^ S fuel)%nat.
      pose proof (Nat.pow_nonzero 2 (S fuel) ltac:(lia)). lia.
    + constructor; [|apply Forall_app; split; assumption].
      unfold wellShaped. cbn [setChildren depth children lenMult app].
      split; [unfold MAX_DEPTH in *; lia|].
      split; [reflexivity|].
      split; [intros ->; unfold MAX_DEPTH in *; lia|].
      split; [repeat constructor; assumption|].
      apply lenMult_range, rnd_range.
Qed.

Lemma buildTreeSkeleton_spec (w h : Q) (k : nat) :
  exists root k',
    buildTreeSkeleton rnd w h k = (Some root, k') /\
    builtAt 0 (S MAX_DEPTH) root.
Proof.
  destruct (createBranch_spec MAX_DEPTH 0 k eq_refl) as (b & k' & E & B).
  unfold buildTreeSkeleton, bind. rewrite E. unfold ret. simpl option_map.
  eexists _, _. split; [reflexivity|].
  apply builtAt_setLenThick, B.
Qed.

End SkeletonFacts.

(** C3.  Whatever the canvas size and the draws of the random source (each
    in [[0, 1)]), [buildTreeSkeleton] returns a tree rooted at depth 0 in
    which every node has depth at most 9, exactly 2 children below depth 9
    and none at depth 9 (each child one level deeper than its parent), a
    length multiplier in [[0.64, 0.80]], and which has 2^10 - 1 = 1023
    nodes. *)
Theorem skeleton_structure (rnd : nat -> Q) (width height : Q) (k : nat) :
  (forall i, 0 <= rnd i < 1) ->
  exists root k',
    Skeleton.buildTreeSkeleton rnd width height k = (Some root, k') /\
    Skeleton.depth root = 0%nat /\
    Forall Skeleton.wellShaped (Skeleton.nodes root) /\
    length (Skeleton.nodes root) = 1023%nat.
Proof.
  intros Hrnd.
  destruct (buildTreeSkeleton_spec rnd Hrnd width height k)
    as (root & k' & E & D & N & W).
  exists root, k'. repeat split; assumption.
Qed.

Lemma skeleton_structure_witness :
  exists root k',
    Skeleton.buildTreeSkeleton (fun i => if Nat.even i then 0.25 else 0.75)
                               800 600 0%nat = (Some root, k') /\
    Skeleton.depth root = 0%nat /\
    Forall Skeleton.wellShaped (Skeleton.nodes root) /\
    length (Skeleton.nodes root) = 1023%nat.
Proof.
  apply (skeleton_structure (fun i => if Nat.even i then 0.25 else 0.75) 800 600 0%nat).
  intros i. destruct (Nat.even i); split; unfold Qle, Qlt; simpl; lia.
Defined.

(** The builder run on a concrete source: 1023 nodes, 512 of them at depth
    9, and 4 draws per node but the root, which has no angle jitter. *)
Example skeleton_example :
  match Skeleton.buildTreeSkeleton (fun i => if Nat.even i then 0.25 else 0.75)
                                   800 600 0%nat with
  | (Some root, k') =>
      length (Skeleton.nodes root) = 1023%nat /\
      length (List.filter (fun n => Nat.eqb (Skeleton.depth n) 9) (Skeleton.nodes root))
      = 512%nat /\
      k' = (4 * 1023 - 1)%nat /\
      Skeleton.len root == 156 /\ Skeleton.thick root == 28
  | (None, _) => False
  end.
Proof. vm_compute. repeat split. Qed.

(** ** The flower catalog *)

(** C6.  For each of the three styles and every size (a positive one in
    particular), [drawFlowerShape] paints exactly 5 petals and exactly one
    centre accent, and the drawing frame is rotated by successive multiples
    of 2 pi / 5 at the 5 petals: multiples 1 to 5 for the round petals,
    which rotate before they paint, 0 to 4 for the other two styles. *)
Theorem flower_geometry (style : FlowerStyle) (size : Q) :
  Flowers.count Flowers.isPetalDraw (Flowers.drawFlowerShape style size) = 5%nat /\
  Flowers.count Flowers.isCenterDraw (Flowers.drawFlowerShape style size) = 1%nat /\
  Forall2 Qeq
    (Flowers.petalAngles (Flowers.drawFlowerShape style size))
    (Flowers.evenlySpaced (Flowers.firstPetal style) 5 (TWO_PI / 5)).
Proof.
  destruct style; (split; [reflexivity|]); (split; [reflexivity|]);
    repeat constructor.
Qed.

(** ** The particle store *)

Section ParticleFacts.
Import Particles.
Variable E : Env.
Variable windForce : Q.
Variable currentStyle : FlowerStyle.

Lemma splice_middle {A} (l1 l2 : list A) (a : A) :
  splice (length l1) 1 (l1 ++ a :: l2) = l1 ++ l2.
Proof.
  unfold splice. rewrite take_app_length, drop_app_add. reflexivity.
Qed.

Lemma splice_front {A} (n : nat) (l : list A) : splice 0 n l = drop n l.
Proof. unfold splice. rewrite take_0. reflexivity. Qed.

Lemma survivors_snoc (pre : list Particle) (a : Particle) :
  survivors E windForce (pre ++ [a])
  = survivors E windForce pre
    ++ (if outOfBounds E (stepParticle E windForce a) then []
        else [stepParticle E windForce a]).
Proof.
  unfold survivors. rewrite map_app, List.filter_app. simpl.
  destruct (outOfBounds E (stepParticle E windForce a)); reflexivity.
Qed.

Lemma drawnCalls_snoc (pre : list Particle) (a : Particle) :
  drawnCalls E windForce currentStyle (pre ++ [a])
  = renderParticle E currentStyle (stepParticle E windForce a)
    ++ drawnCalls E windForce currentStyle pre.
Proof.
  unfold drawnCalls. rewrite map_app, rev_app_distr. reflexivity.
Qed.

(** The backward loop over the first [length pre] indices steps, draws and
    filters exactly those particles, and never reads outside the array. *)
Lemma updateLoop_spec (pre : list Particle) :
  forall (post : list Particle) (drawn : list DrawOp),
  updateLoop E windForce currentStyle (length pre) (pre ++ post) drawn
  = Some (survivors E windForce pre ++ post,
          drawn ++ drawnCalls E windForce currentStyle pre).
Proof.
  induction pre as [|a pre IH] using rev_ind; intros post drawn.
  - simpl. rewrite app_nil_r. reflexivity.
  - rewrite length_app, Nat.add_1_r, <- app_assoc. cbn [updateLoop app].
    rewrite (list_lookup_middle pre post a (length pre) eq_refl).
    rewrite (insert_app_r_alt pre (a :: post) (length pre)) by lia.
    rewrite Nat.sub_diag. cbn [list_insert insert].
    rewrite survivors_snoc, drawnCalls_snoc.
    destruct (outOfBounds E (stepParticle E windForce a)).
    + rewrite splice_middle, IH, app_nil_r, <- app_assoc. reflexivity.
    + rewrite IH, <- !app_assoc. reflexivity.
Qed.

Lemma evict_newest (particles : list Particle) :
  evict particles = newest MAX_PARTICLES particles.
Proof.
  unfold evict, newest.
  destruct (MAX_PARTICLES <? length particles)%nat eqn:L.
  - apply splice_front.
  - apply Nat.ltb_ge in L.
    replace (length particles - MAX_PARTICLES)%nat with 0%nat by lia.
    reflexivity.
Qed.

Lemma length_newest {A} (n : nat) (l : list A) :
  length (newest n l) = Nat.min n (length l).
Proof. unfold newest. rewrite length_drop. lia. Qed.

Lemma length_survivors (particles : list Particle) :
  (length (survivors E windForce particles) <= length particles)%nat.
Proof.
  unfold survivors.
  etransitivity; [apply List.filter_length_le|]. rewrite length_map. lia.
Qed.

Lemma survivors_all (particles : list Particle) :
  Forall (fun part => outOfBounds E (stepParticle E windForce part) = false)
         particles ->
  survivors E windForce particles = map (stepParticle E windForce) particles.
Proof.
  unfold survivors. induction 1 as [|a l Ha _ IH]; simpl; [reflexivity|].
  rewrite Ha. simpl. rewrite IH. reflexivity.
Qed.

(** [updateParticles] in one equation. *)
Lemma updateParticles_spec (particles : list Particle) :
  updateParticles E windForce currentStyle particles
  = Some (survivors E windForce (newest MAX_PARTICLES particles),
          drawnCalls E windForce currentStyle (newest MAX_PARTICLES particles)).
Proof.
  unfold updateParticles. rewrite evict_newest.
  pose proof (updateLoop_spec (newest MAX_PARTICLES particles) [] []) as H.
  rewrite !app_nil_r in H. exact H.
Qed.

(** A grounded particle is left alone. *)
Lemma stepParticle_grounded (part : Particle) :
  isGrounded part = true -> stepParticle E windForce part = part.
Proof. intros H. unfold stepParticle. rewrite H. reflexivity. Qed.

Lemma groundY_stepParticle (part : Particle) :
  groundY (stepParticle E windForce part) = groundY part.
Proof.
  unfold stepParticle. destruct (isGrounded part); simpl; [reflexivity|].
  destruct (Qle_bool _ _); reflexivity.
Qed.

End ParticleFacts.

Lemma afterFrames_grounded (frames : list (Env * Q)) (part : Particles.Particle) :
  Particles.isGrounded part = true -> Particles.afterFrames frames part = part.
Proof.
  induction frames as [|[E w] frames IH]; intros H; simpl; [reflexivity|].
  rewrite (stepParticle_grounded E w part H). apply IH, H.
Qed.

Lemma groundY_afterFrames (frames : list (Env * Q)) :
  forall part : Particles.Particle,
  Particles.groundY (Particles.afterFrames frames part) = Particles.groundY part.
Proof.
  induction frames as [|[E w] frames IH]; intros part; simpl; [reflexivity|].
  rewrite IH. apply groundY_stepParticle.
Qed.

Lemma afterFrames_app (l1 l2 : list (Env * Q)) :
  forall part : Particles.Particle,
  Particles.afterFrames (l1 ++ l2) part
  = Particles.afterFrames l2 (Particles.afterFrames l1 part).
Proof.
  induction l1 as [|[E w] l1 IH]; intros part; simpl; [reflexivity|].
  apply IH.
Qed.

(** A particle that is still falling was falling after every earlier frame. *)
Lemma afterFrames_falling_prefix (n : nat) (frames : list (Env * Q))
    (part : Particles.Particle) :
  Particles.isGrounded (Particles.afterFrames frames part) = false ->
  Particles.isGrounded (Particles.afterFrames (take n frames) part) = false.
Proof.
  intros H. rewrite <- (take_drop n frames), afterFrames_app in H.
  destruct (Particles.isGrounded (Particles.afterFrames (take n frames) part))
    eqn:G; [|reflexivity].
  rewrite (afterFrames_grounded _ _ G) in H. congruence.
Qed.

(** *** In the update *)

Lemma newest_middle {A} (n : nat) (pre post : list A) (a : A) :
  (length (a :: post) <= n)%nat ->
  Particles.newest n (pre ++ a :: post)
  = Particles.newest (n - length (a :: post)) pre ++ a :: post.
Proof.
  intros H. unfold Particles.newest. rewrite length_app.
  rewrite drop_app_le by lia. f_equal. f_equal. lia.
Qed.

Lemma survivors_middle (E : Env) (w : Q) (pre post : list Particles.Particle)
    (part : Particles.Particle) :
  Particles.survivors E w (pre ++ part :: post)
  = Particles.survivors E w pre
    ++ (if Particles.outOfBounds E (Particles.stepParticle E w part) then []
        else [Particles.stepParticle E w part])
    ++ Particles.survivors E w post.
Proof.
  unfold Particles.survivors. rewrite map_app, List.filter_app. cbn [map List.filter].
  destruct (Particles.outOfBounds E (Particles.stepParticle E w part));
    reflexivity.
Qed.

(** What an update does to a particle among the 300 newest and to its
    neighbours. *)
Lemma updateParticles_middle (E : Env) (w : Q) (style : FlowerStyle)
    (pre post : list Particles.Particle) (part : Particles.Particle) :
  (length (part :: post) <= Particles.MAX_PARTICLES)%nat ->
  Particles.updateParticles E w style (pre ++ part :: post)
  = Some (Particles.survivors E w
            (Particles.newest
               (Particles.MAX_PARTICLES - length (part :: post)) pre)
          ++ (if Particles.outOfBounds E (Particles.stepParticle E w part)
              then [] else [Particles.stepParticle E w part])
          ++ Particles.survivors E w post,
          Particles.drawnCalls E w style
            (Particles.newest Particles.MAX_PARTICLES (pre ++ part :: post))).
Proof.
  intros H. rewrite updateParticles_spec.
  rewrite (newest_middle Particles.MAX_PARTICLES pre post part H) at 1.
  rewrite survivors_middle. reflexivity.
Qed.

(** C5.  An update steps every particle that is among the 300 newest, and
    a falling one is grounded by that update exactly when its advanced
    position reaches its [groundY] (which the update never changes): below
    [groundY] the particle keeps falling; at or beyond it the particle that
    the update leaves in the array is grounded, with [pos.y = groundY] and
    zero velocity (it is retired with the same update when it lies beyond
    the horizontal margin).  Every later update, whatever the array around
    it, the surroundings, the wind and the style, leaves the grounded
    particle as it is for as long as it is among the 300 newest and within
    the margin: it stays at [groundY] with zero velocity and is never
    grounded again. *)
Theorem grounding (E : Env) (windForce : Q) (style : FlowerStyle)
    (pre post : list Particles.Particle) (part : Particles.Particle) :
  let moved := Particles.advance E windForce part in
  let next := Particles.stepParticle E windForce part in
  (length (part :: post) <= Particles.MAX_PARTICLES)%nat ->
  Particles.isGrounded part = false ->
  (exists drawn,
     Particles.updateParticles E windForce style (pre ++ part :: post)
     = Some (Particles.survivors E windForce
               (Particles.newest
                  (Particles.MAX_PARTICLES - length (part :: post)) pre)
             ++ (if Particles.outOfBounds E next then [] else [next])
             ++ Particles.survivors E windForce post,
             drawn)) /\
  Particles.groundY next = Particles.groundY part /\
  (y (Particles.pos moved) < Particles.groundY part ->
     next = moved /\ Particles.isGrounded next = false) /\
  (Particles.groundY part <= y (Particles.pos moved) ->
     Particles.isGrounded next = true /\
     y (Particles.pos next) = Particles.groundY part /\
     Particles.vel next = createVector 0 0 /\
     forall (E' : Env) (windForce' : Q) (style' : FlowerStyle)
            (pre' post' : list Particles.Particle),
       (length (next :: post') <= Particles.MAX_PARTICLES)%nat ->
       exists drawn',
         Particles.updateParticles E' windForce' style' (pre' ++ next :: post')
         = Some (Particles.survivors E' windForce'
                   (Particles.newest
                      (Particles.MAX_PARTICLES - length (next :: post')) pre')
                 ++ (if Particles.outOfBounds E' next then [] else [next])
                 ++ Particles.survivors E' windForce' post',
                 drawn')).
Proof.
  cbv zeta. intros Hnew Hfall.
  split; [eexists; apply updateParticles_middle, Hnew|].
  split; [apply groundY_stepParticle|].
  assert (Estep : Particles.stepParticle E windForce part
                  = if y (Particles.pos (Particles.advance E windForce part))
                       >=? Particles.groundY part
                    then Particles.ground (Particles.advance E windForce part)
                    else Particles.advance E windForce part).
  { unfold Particles.stepParticle. rewrite Hfall. reflexivity. }
  rewrite Estep. clear Estep. split.
  - intros Hlt.
    destruct (Qle_bool _ _) eqn:L.
    + apply Qle_bool_iff in L. lra.
    + split; [reflexivity | exact Hfall].
  - intros Hge. apply Qle_bool_iff in Hge. rewrite Hge.
    split; [reflexivity|]. split; [reflexivity|]. split; [reflexivity|].
    intros E' w' style' pre' post' Hnew'. eexists.
    rewrite (updateParticles_middle E' w' style' pre' post' _ Hnew').
    rewrite (stepParticle_grounded E' w'
               (Particles.ground (Particles.advance E windForce part)) eq_refl).
    reflexivity.
Qed.

Lemma grounding_witness :
  let next := Particles.stepParticle Sample.env 0 Sample.falling in
  (exists drawn,
     Particles.updateParticles Sample.env 0 peach
       ([Sample.galeMid] ++ Sample.falling :: [Sample.galeEdge])
     = Some (Particles.survivors Sample.env 0
               (Particles.newest
                  (Particles.MAX_PARTICLES
                   - length (Sample.falling :: [Sample.galeEdge]))
                  [Sample.galeMid])
             ++ (if Particles.outOfBounds Sample.env next then [] else [next])
             ++ Particles.survivors Sample.env 0 [Sample.galeEdge],
             drawn)) /\
  Particles.isGrounded next = true /\
  y (Particles.pos next) = 592 /\
  Particles.vel next = createVector 0 0 /\
  forall (E' : Env) (windForce' : Q) (style' : FlowerStyle)
         (pre' post' : list Particles.Particle),
    (length (next :: post') <= Particles.MAX_PARTICLES)%nat ->
    exists drawn',
      Particles.updateParticles E' windForce' style' (pre' ++ next :: post')
      = Some (Particles.survivors E' windForce'
                (Particles.newest
                   (Particles.MAX_PARTICLES - length (next :: post')) pre')
              ++ (if Particles.outOfBounds E' next then [] else [next])
              ++ Particles.survivors E' windForce' post',
              drawn').
Proof.
  cbv zeta.
  destruct (grounding Sample.env 0 peach [Sample.galeMid] [Sample.galeEdge]
              Sample.falling ltac:(unfold Particles.MAX_PARTICLES; simpl; lia) eq_refl)
    as (U & _ & _ & H).
  split; [exact U|]. apply H. vm_compute. discriminate.
Defined.

(** ** The spawner *)

Lemma offScreen_true (E : Env) (px py : Q) :
  px < -50 \/ width E + 50 < px \/ height E < py ->
  Particles.offScreen E px py = true.
Proof.
  intros H. unfold Particles.offScreen. case_cmp; simpl; try reflexivity. lra.
Qed.

Lemma offScreen_false (E : Env) (px py : Q) :
  ~ (px < -50 \/ width E + 50 < px \/ height E < py) ->
  Particles.offScreen E px py = false.
Proof.
  intros H. unfold Particles.offScreen.
  case_cmp; simpl; try reflexivity; exfalso; apply H; auto.
Qed.

(** C10.  In both variants of the sketch the spawner called with a position
    left of -50, right of the canvas width + 50 or below the canvas bottom
    ([y > height]) returns the particle array unchanged (and draws nothing
    from the random source); called with any other position it appends
    exactly one particle, at that position. *)
Theorem spawn_guard (rnd : nat -> Q) (E : Env) (currentWind px py : Q) (k : nat)
    (particles : list Particles.Particle)
    (dead : bool) (moodParticles : list MoodParticles.Particle) :
  (px < -50 \/ width E + 50 < px \/ height E < py ->
     Particles.spawnFallingParticle rnd E currentWind px py particles k
     = (particles, k) /\
     MoodParticles.spawnFallingParticle rnd E currentWind px py dead moodParticles k
     = (moodParticles, k)) /\
  (~ (px < -50 \/ width E + 50 < px \/ height E < py) ->
     (exists part k',
        Particles.spawnFallingParticle rnd E currentWind px py particles k
        = (particles ++ [part], k') /\
        Particles.pos part = createVector px py /\
        Particles.isGrounded part = false) /\
     (exists part k',
        MoodParticles.spawnFallingParticle rnd E currentWind px py dead moodParticles k
        = (moodParticles ++ [part], k') /\
        MoodParticles.pos part = createVector px py /\
        MoodParticles.isDead part = dead)).
Proof.
  split; intros H.
  - unfold Particles.spawnFallingParticle, MoodParticles.spawnFallingParticle.
    change (MoodParticles.offScreen E px py) with (Particles.offScreen E px py).
    rewrite (offScreen_true E px py H). split; reflexivity.
  - unfold Particles.spawnFallingParticle, MoodParticles.spawnFallingParticle.
    change (MoodParticles.offScreen E px py) with (Particles.offScreen E px py).
    rewrite (offScreen_false E px py H). split.
    + eexists _, _. split; [reflexivity|]. split; reflexivity.
    + destruct dead; (eexists _, _; split; [reflexivity|]; split; reflexivity).
Qed.

Lemma spawn_guard_witness :
  (Particles.spawnFallingParticle Sample.rnd Sample.env 0 (-51) 100 [] 0%nat
   = ([], 0%nat) /\
   MoodParticles.spawnFallingParticle Sample.rnd Sample.env 0 (-51) 100 true [] 0%nat
   = ([], 0%nat)) /\
  ((exists part k',
      Particles.spawnFallingParticle Sample.rnd Sample.env 0 (-50) 600 [] 0%nat
      = ([] ++ [part], k') /\
      Particles.pos part = createVector (-50) 600 /\
      Particles.isGrounded part = false) /\
   (exists part k',
      MoodParticles.spawnFallingParticle Sample.rnd Sample.env 0 (-50) 600 true [] 0%nat
      = ([] ++ [part], k') /\
      MoodParticles.pos part = createVector (-50) 600 /\
      MoodParticles.isDead part = true)).
Proof.
  split.
  - apply (spawn_guard Sample.rnd Sample.env 0 (-51) 100 0 [] true []).
    left. reflexivity.
  - apply (spawn_guard Sample.rnd Sample.env 0 (-50) 600 0 [] true []).
    intros [H | [H | H]]; vm_compute in H; discriminate H.
Defined.

(** ** Styles at draw time *)

Lemma drawFlowerShape_injective (s1 s2 : FlowerStyle) (size : Q) :
  Flowers.drawFlowerShape s1 size = Flowers.drawFlowerShape s2 size -> s1 = s2.
Proof.
  destruct s1, s2; intros H; try reflexivity;
    unfold Flowers.drawFlowerShape, Flowers.petalLoop in H;
    cbn [flat_map seq app Flowers.peachPetal Flowers.sakuraPetal
         Flowers.delonixPetal] in H;
    discriminate H.
Qed.

(** The calls that precede the shape of a particle. *)
Lemma renderParticle_flower (E : Env) (style : FlowerStyle)
    (part : Particles.Particle) :
  Particles.type part = Particles.flower ->
  Particles.renderParticle E style part
  = firstn 5 (Particles.renderParticle E peach part)
    ++ Flowers.drawFlowerShape style (Particles.size part) ++ [pop].
Proof.
  intros H. unfold Particles.renderParticle. rewrite H. reflexivity.
Qed.

(** C7.  A particle carries a type and no style: the spawner takes no style
    and the state that an update leaves does not depend on the style it is
    given.  The calls of an update are those of [renderParticle] under the
    style of that very call, for every particle kept in the store; for a
    flower particle they are the catalog shape of that style at the
    particle's size, between the same transform calls and the closing
    [pop]; so two different styles render the same flower particle
    differently. *)
Theorem style_applies_at_draw (E : Env) (windForce : Q) (s1 s2 : FlowerStyle)
    (particles : list Particles.Particle) (part : Particles.Particle) :
  Particles.type part = Particles.flower ->
  s1 <> s2 ->
  option_map fst (Particles.updateParticles E windForce s1 particles)
  = option_map fst (Particles.updateParticles E windForce s2 particles) /\
  option_map snd (Particles.updateParticles E windForce s1 particles)
  = Some (flat_map (Particles.renderParticle E s1)
            (rev (map (Particles.stepParticle E windForce)
                      (Particles.newest Particles.MAX_PARTICLES particles)))) /\
  (exists transform,
     Particles.renderParticle E s1 part
     = transform ++ Flowers.drawFlowerShape s1 (Particles.size part) ++ [pop] /\
     Particles.renderParticle E s2 part
     = transform ++ Flowers.drawFlowerShape s2 (Particles.size part) ++ [pop]) /\
  Particles.renderParticle E s1 part <> Particles.renderParticle E s2 part.
Proof.
  intros Hflower Hne.
  rewrite !updateParticles_spec. cbn [option_map fst snd].
  split; [reflexivity|]. split; [reflexivity|]. split.
  - exists (firstn 5 (Particles.renderParticle E peach part)).
    split; apply renderParticle_flower, Hflower.
  - rewrite (renderParticle_flower E s1 part Hflower),
            (renderParticle_flower E s2 part Hflower).
    intros H. apply app_inv_head, app_inv_tail in H.
    apply Hne, (drawFlowerShape_injective s1 s2 _ H).
Qed.

Lemma style_applies_at_draw_witness :
  option_map fst (Particles.updateParticles Sample.env 0 peach [Sample.falling])
  = option_map fst (Particles.updateParticles Sample.env 0 sakura [Sample.falling]) /\
  Particles.renderParticle Sample.env peach Sample.falling
  <> Particles.renderParticle Sample.env sakura Sample.falling.
Proof.
  destruct (style_applies_at_draw Sample.env 0 peach sakura [Sample.falling]
              Sample.falling eq_refl ltac:(discriminate)) as (A & _ & _ & B).
  split; [exact A | exact B].
Defined.

(** One in-flight flower particle, updated and drawn under two styles: the
    same particle afterwards, 5 round petals against 5 pointed outlines. *)
Example style_change_example :
  match Particles.updateParticles Sample.env 0 peach [Sample.falling],
        Particles.updateParticles Sample.env 0 sakura [Sample.falling] with
  | Some (kept1, calls1), Some (kept2, calls2) =>
      kept1 = kept2 /\
      Flowers.count (fun op => match op with ellipse _ _ _ _ => true | _ => false end) calls1
      = 5%nat /\
      Flowers.count (fun op => match op with endShapeClose => true | _ => false end) calls2
      = 5%nat
  | _, _ => False
  end.
Proof. vm_compute. repeat split. Qed.

(** ** Capacity *)

(** C2, as the code has it.  An update always succeeds; it first evicts
    the oldest particles so that only the 300 most recently pushed remain
    (the spawner pushes at the end of the array), then steps each of these
    and drops those that ended beyond the horizontal margin.  So after an
    update the store holds at most 300 particles, all of them among the 300
    most recent; and when the store held more than 300 and none of the 300
    most recent ends beyond the margin, exactly 300 remain: the 300 most
    recent, stepped. *)
Theorem particle_capacity (E : Env) (windForce : Q) (style : FlowerStyle)
    (particles : list Particles.Particle) :
  exists kept drawn,
    Particles.updateParticles E windForce style particles = Some (kept, drawn) /\
    kept = Particles.survivors E windForce
             (Particles.newest Particles.MAX_PARTICLES particles) /\
    (length kept <= Particles.MAX_PARTICLES)%nat /\
    ((Particles.MAX_PARTICLES < length particles)%nat ->
     forallb (fun part =>
                negb (Particles.outOfBounds E (Particles.stepParticle E windForce part)))
             (Particles.newest Particles.MAX_PARTICLES particles) = true ->
     length kept = Particles.MAX_PARTICLES /\
     kept = map (Particles.stepParticle E windForce)
                (Particles.newest Particles.MAX_PARTICLES particles)).
Proof.
  eexists _, _. split; [apply updateParticles_spec|].
  split; [reflexivity|]. split.
  - etransitivity; [apply length_survivors|].
    rewrite length_newest. lia.
  - intros Hmore Hin.
    assert (Hall : Forall
              (fun part =>
                 Particles.outOfBounds E (Particles.stepParticle E windForce part)
                 = false)
              (Particles.newest Particles.MAX_PARTICLES particles)).
    { apply Forall_forall. intros part Hpart.
      rewrite forallb_forall in Hin.
      apply list_elem_of_In in Hpart. apply Hin in Hpart.
      destruct (Particles.outOfBounds _ _); [discriminate Hpart | reflexivity]. }
    rewrite (survivors_all E windForce _ Hall).
    split; [|reflexivity].
    rewrite length_map, length_newest. lia.
Qed.

Lemma particle_capacity_witness :
  exists kept drawn,
    Particles.updateParticles Sample.env 0 peach Sample.calmStore
    = Some (kept, drawn) /\
    length kept = Particles.MAX_PARTICLES /\
    kept = map (Particles.stepParticle Sample.env 0)
               (Particles.newest Particles.MAX_PARTICLES Sample.calmStore).
Proof.
  destruct (particle_capacity Sample.env 0 peach Sample.calmStore)
    as (kept & drawn & Hrun & _ & _ & H).
  exists kept, drawn. split; [exact Hrun|].
  apply H.
  - vm_compute. lia.
  - vm_compute. reflexivity.
Defined.

(** The claim as written fails: 301 particles spawned under a smoothed
    wind of -40, the last 101 of them at x = -50.  The store holds 301
    particles before the update, and the update, which evicts the oldest
    particle, also retires the 101 particles that the wind carried beyond
    x = -100: 199 remain, not 300. *)
Lemma capacity_counterexample :
  length Sample.galeStore = 301%nat /\
  option_map (fun r => length (fst r))
             (Particles.updateParticles Sample.env Sample.gale peach Sample.galeStore)
  = Some 199%nat.
Proof. vm_compute. split; reflexivity. Qed.

(** The same under a smoothed wind of -1: a particle spawned at x = -50
    drifts for 16 updates, 299 particles are spawned, and the next update
    evicts the oldest particle and retires the drifting one as it crosses
    x = -100: 299 remain. *)
Example capacity_breeze_example :
  match Sample.breezeStore with
  | Some store =>
      length store = 301%nat /\
      option_map (fun r => length (fst r))
                 (Particles.updateParticles Sample.env Sample.breeze peach store)
      = Some 299%nat
  | None => False
  end.
Proof. vm_compute. split; reflexivity. Qed.

(** The outcome of the run under the wind of -40 does not depend on the
    oracles: whatever the noise (in [[0, 1]]) and the sine (in [[-1, 1]]),
    the particles spawned at x = -50 end beyond x = -100 and those spawned
    at mid-canvas stay. *)
Section GaleAnyOracle.
Import Particles.
Variable nz : Q -> Q -> Q -> Q.
Variables sn cs : Q -> Q.
Hypothesis nz_range : forall a b c, 0 <= nz a b c <= 1.
Hypothesis sn_range : forall a, -1 <= sn a <= 1.

Lemma x_stepParticle (E : Env) (w : Q) (part : Particle) :
  isGrounded part = false ->
  x (pos (stepParticle E w part)) = x (pos (advance E w part)).
Proof.
  intros H. unfold stepParticle. rewrite H. cbn [negb].
  destruct (Qle_bool _ _); reflexivity.
Qed.

Lemma galeEdge_leaves :
  outOfBounds (Sample.canvas nz sn cs)
    (stepParticle (Sample.canvas nz sn cs) Sample.gale Sample.galeEdge) = true.
Proof.
  unfold outOfBounds. rewrite x_stepParticle by (vm_compute; reflexivity).
  let p := eval vm_compute in Sample.galeEdge in change Sample.galeEdge with p.
  unfold advance, add, mult, Sample.canvas, Sample.gale.
  cbn [pos vel x y swayAmp swayFreq swayPhase width frameCount noise sin].
  match goal with
  | |- context [nz ?a ?b ?c] => pose proof (nz_range a b c)
  end.
  match goal with
  | |- context [sn ?a] => pose proof (sn_range a)
  end.
  case_cmp; cbn [orb]; try reflexivity; lra.
Qed.

Lemma galeMid_stays :
  outOfBounds (Sample.canvas nz sn cs)
    (stepParticle (Sample.canvas nz sn cs) Sample.gale Sample.galeMid) = false.
Proof.
  unfold outOfBounds. rewrite x_stepParticle by (vm_compute; reflexivity).
  let p := eval vm_compute in Sample.galeMid in change Sample.galeMid with p.
  unfold advance, add, mult, Sample.canvas, Sample.gale.
  cbn [pos vel x y swayAmp swayFreq swayPhase width frameCount noise sin].
  match goal with
  | |- context [nz ?a ?b ?c] => pose proof (nz_range a b c)
  end.
  match goal with
  | |- context [sn ?a] => pose proof (sn_range a)
  end.
  case_cmp; cbn [orb]; try reflexivity; lra.
Qed.

Lemma survivors_app (E : Env) (w : Q) (l1 l2 : list Particle) :
  survivors E w (l1 ++ l2) = survivors E w l1 ++ survivors E w l2.
Proof. unfold survivors. rewrite map_app, List.filter_app. reflexivity. Qed.

Lemma survivors_repeat (E : Env) (w : Q) (part : Particle) (n : nat) :
  length (survivors E w (repeat part n))
  = if outOfBounds E (stepParticle E w part) then 0%nat else n.
Proof.
  unfold survivors. induction n as [|n IH]; simpl.
  - destruct (outOfBounds _ _); reflexivity.
  - destruct (outOfBounds E (stepParticle E w part)); simpl; [exact IH|].
    rewrite IH. reflexivity.
Qed.

Lemma gale_any_oracle :
  option_map (fun r => length (fst r))
    (updateParticles (Sample.canvas nz sn cs) Sample.gale peach Sample.galeStore)
  = Some 199%nat.
Proof.
  rewrite updateParticles_spec. cbn [option_map fst]. f_equal.
  replace (newest MAX_PARTICLES Sample.galeStore)
    with (repeat Sample.galeMid 199 ++ repeat Sample.galeEdge 101)
    by (vm_compute; reflexivity).
  rewrite survivors_app, length_app, !survivors_repeat.
  rewrite galeEdge_leaves, galeMid_stays. reflexivity.
Qed.

End GaleAnyOracle.

(* ================================================================= *)
(** * Part III: the rest of the frame *)
(* ================================================================= *)

(** ** The transform stack *)

Lemma stackAfter_app (a b : list Call) (d : nat) :
  stackAfter (a ++ b) d
  = match stackAfter a d with
    | Some d' => stackAfter b d'
    | None => None
    end.
Proof.
  revert d. induction a as [|c a IH]; intros d; [reflexivity|].
  destruct c as [op| | | | | | |]; simpl; try apply IH.
  destruct op; simpl; try apply IH.
  destruct d; [reflexivity | apply IH].
Qed.

Lemma balanced_nil : balanced [].
Proof. intros d. reflexivity. Qed.

Lemma balanced_app (a b : list Call) :
  balanced a -> balanced b -> balanced (a ++ b).
Proof. intros Ha Hb d. rewrite stackAfter_app, Ha. apply Hb. Qed.

Lemma balanced_wrap (pre cs : list Call) :
  balanced pre -> balanced cs ->
  balanced (shape push :: pre ++ cs ++ [shape pop]).
Proof.
  intros Hp Hc d.
  change (stackAfter (pre ++ cs ++ [shape pop]) (S d) = Some d).
  rewrite stackAfter_app, Hp, stackAfter_app, Hc. reflexivity.
Qed.

Lemma balanced_flower (style : FlowerStyle) (size : Q) :
  balanced (map shape (Flowers.drawFlowerShape style size)).
Proof. intros d. destruct style; reflexivity. Qed.

Lemma balanced_renderParticle (E : Env) (style : FlowerStyle)
    (part : Particles.Particle) :
  balanced (map shape (Particles.renderParticle E style part)).
Proof.
  unfold Particles.renderParticle.
  rewrite !map_app. cbn [map].
  apply (balanced_wrap
           [shape (translate (x (Particles.pos part)) (y (Particles.pos part)));
            shape (rotate (Particles.angle part));
            shape (scale 1 (max 0.1 (if Particles.isGrounded part then 0.2
                                     else abs (cos E (Particles.flip part)))));
            shape (setAlpha (Particles.color part)
                     (if Particles.isGrounded part then 200 else 255))]).
  - intros d. reflexivity.
  - destruct (Particles.type part).
    + intros d. reflexivity.
    + apply balanced_flower.
Qed.

Lemma balanced_flat_map {A} (f : A -> list DrawOp) (l : list A) :
  (forall a, balanced (map shape (f a))) ->
  balanced (map shape (flat_map f l)).
Proof.
  intros H. induction l as [|a l IH]; simpl; [apply balanced_nil|].
  rewrite map_app. apply balanced_app; [apply H | exact IH].
Qed.

(** ** Induction on a branch and its subtrees *)

Lemma Branch_induction (P : Skeleton.Branch -> Prop) :
  (forall b, Forall P (Skeleton.children b) -> P b) -> forall b, P b.
Proof.
  intros H. fix IH 1. intros b. apply H.
  destruct b as [l t d a cs n f m]. simpl.
  induction cs as [|c cs IHcs]; constructor; [apply IH | exact IHcs].
Qed.

Section FrameFacts.
Import Skeleton Frame.
Variable T : Stage.
Variable currentMood : Q.
Variable currentWind : Q.

Lemma renderBranch_unfold (branch : Branch) (len thick windAngle x y cumAngle : Q)
    (flowerStyle : FlowerStyle) (s : Live) :
  renderBranch T currentMood currentWind branch len thick windAngle x y cumAngle
               flowerStyle s
  = let bloomFactor := map_clamped currentMood 0 1 0 1 in
    let segment :=
      [ stroke (lerpColor (solid COL_TRUNK_DORMANT) (solid COL_TRUNK_THRIVE)
                          bloomFactor);
        strokeWeight thick; strokeCapRound; line 0 0 0 (- len) ] in
    let tipX := x + sin (env T) cumAngle * len in
    let tipY := y - cos (env T) cumAngle * len in
    let moved := [ shape (translate 0 (- len)) ] in
    let '(leaves, s1) :=
      if outer branch
      then foliage T currentWind branch windAngle bloomFactor tipX tipY
                   flowerStyle s
      else ([], s) in
    if (MAX_DEPTH <=? depth branch)%nat || (len <? 4)
    then (segment ++ moved ++ leaves, s1)
    else
      let '(below, s2) :=
        renderChildren
          (fun child nextAngle angle s' =>
             renderBranch T currentMood currentWind child (len * lenMult child)
                          (thick * 0.7) windAngle tipX tipY angle flowerStyle s')
          (windAngle
           * map_range (ofNat (depth branch)) 0 (ofNat MAX_DEPTH) 0.05 1.3)
          cumAngle (children branch) s1 in
      (segment ++ moved ++ leaves ++ below, s2).
Proof. destruct branch; reflexivity. Qed.

Lemma balanced_drawAttachedFoliage (windAngle : Q) (flowered : bool)
    (bloomFactor : Q) (style : FlowerStyle) (s : Live) :
  balanced (fst (drawAttachedFoliage T windAngle flowered bloomFactor style s)).
Proof.
  unfold drawAttachedFoliage, now. cbn [fst].
  apply balanced_app; [intros d; reflexivity|].
  destruct (flowered && _); [|apply balanced_nil].
  rewrite !map_app. cbn [map app].
  apply (balanced_wrap [shape (rotate (windAngle * 3.0))]);
    [intros d; reflexivity | apply balanced_flower].
Qed.

Lemma balanced_foliage (branch : Branch) (windAngle bloomFactor tipX tipY : Q)
    (style : FlowerStyle) (s : Live) :
  balanced (fst (foliage T currentWind branch windAngle bloomFactor tipX tipY
                         style s)).
Proof.
  unfold foliage.
  destruct (bloomFactor >? noiseThreshold branch).
  - pose proof (balanced_drawAttachedFoliage windAngle (hasFlower branch)
                  bloomFactor style s) as H.
    destruct (drawAttachedFoliage T windAngle (hasFlower branch) bloomFactor
                                  style s) as [leaves s1].
    exact H.
  - apply balanced_nil.
Qed.

Lemma balanced_renderChildren
    (render : Branch -> Q -> Q -> Live -> list Call * Live)
    (localWind cumAngle : Q) (kids : list Branch) :
  Forall (fun c => forall a1 a2 s, balanced (fst (render c a1 a2 s))) kids ->
  forall s, balanced (fst (renderChildren render localWind cumAngle kids s)).
Proof.
  induction 1 as [|c kids Hc _ IH]; intros s; simpl; [apply balanced_nil|].
  specialize (Hc (angleOffset c + localWind)
                 (cumAngle + (angleOffset c + localWind)) s).
  destruct (render c _ _ s) as [drawn s1]. specialize (IH s1).
  destruct (renderChildren render localWind cumAngle kids s1) as [others s2].
  cbn [fst] in *.
  intros d. cbn [map app stackAfter].
  rewrite stackAfter_app, Hc. cbn [stackAfter]. apply IH.
Qed.

Lemma balanced_renderBranch (branch : Branch) :
  forall (len thick windAngle x y cumAngle : Q) (style : FlowerStyle) (s : Live),
  balanced (fst (renderBranch T currentMood currentWind branch len thick
                              windAngle x y cumAngle style s)).
Proof.
  induction branch as [branch IH] using Branch_induction.
  intros len thick windAngle x y cumAngle style s.
  rewrite renderBranch_unfold. cbv zeta.
  pose proof (balanced_foliage branch windAngle (map_clamped currentMood 0 1 0 1)
                (x + sin (env T) cumAngle * len) (y - cos (env T) cumAngle * len)
                style s) as Hf.
  destruct (outer branch).
  - destruct (foliage T currentWind branch windAngle _ _ _ style s)
      as [leaves s1]. cbn [fst] in Hf.
    destruct ((MAX_DEPTH <=? depth branch)%nat || (len <? 4)).
    + cbn [fst]. apply (balanced_app [_; _; _; _; _]); [intros d; reflexivity|].
      exact Hf.
    + pose proof (balanced_renderChildren
                    (fun child nextAngle angle s' =>
                       renderBranch T currentMood currentWind child
                         (len * lenMult child) (thick * 0.7) windAngle
                         (x + sin (env T) cumAngle * len)
                         (y - cos (env T) cumAngle * len) angle style s')
                    (windAngle * map_range (ofNat (depth branch)) 0
                                           (ofNat MAX_DEPTH) 0.05 1.3)
                    cumAngle (children branch)) as Hk.
      destruct (renderChildren _ _ _ (children branch) s1) as [below s2] eqn:Ek.
      cbn [fst].
      apply (balanced_app [_; _; _; _; _]); [intros d; reflexivity|].
      apply balanced_app; [exact Hf|].
      specialize (Hk ltac:(eapply Forall_impl; [exact IH|]; intros c Hc a1 a2 s';
                           apply Hc) s1).
      rewrite Ek in Hk. exact Hk.
  - destruct ((MAX_DEPTH <=? depth branch)%nat || (len <? 4)).
    + cbn [fst]. intros d. reflexivity.
    + pose proof (balanced_renderChildren
                    (fun child nextAngle angle s' =>
                       renderBranch T currentMood currentWind child
                         (len * lenMult child) (thick * 0.7) windAngle
                         (x + sin (env T) cumAngle * len)
                         (y - cos (env T) cumAngle * len) angle style s')
                    (windAngle * map_range (ofNat (depth branch)) 0
                                           (ofNat MAX_DEPTH) 0.05 1.3)
                    cumAngle (children branch)) as Hk.
      destruct (renderChildren _ _ _ (children branch) s) as [below s2] eqn:Ek.
      cbn [fst].
      apply (balanced_app [_; _; _; _; _]); [intros d; reflexivity|].
      specialize (Hk ltac:(eapply Forall_impl; [exact IH|]; intros c Hc a1 a2 s';
                           apply Hc) s).
      rewrite Ek in Hk. exact Hk.
Qed.

End FrameFacts.

(** ** What the tree pushes into the store *)

Section StoreFacts.
Import Skeleton Frame.
Variable T : Stage.
Variable currentMood : Q.
Variable currentWind : Q.

Lemma grown_refl (s : Live) : grown 0 s s.
Proof.
  exists []. rewrite app_nil_r. split; [reflexivity|]. simpl. lia.
Qed.

Lemma grown_trans (n m : nat) (s1 s2 s3 : Live) :
  grown n s1 s2 -> grown m s2 s3 -> grown (n + m) s1 s3.
Proof.
  intros (a & Ea & La & Da) (b & Eb & Lb & Db). exists (a ++ b).
  rewrite Eb, Ea, <- app_assoc, length_app. split; [reflexivity | lia].
Qed.

Lemma grown_mono (n m : nat) (s s' : Live) :
  (n <= m)%nat -> grown n s s' -> grown m s s'.
Proof.
  intros L (a & Ea & La & Da). exists a. split; [exact Ea|]. split; [lia | exact Da].
Qed.

Lemma grown_now (s : Live) : grown 0 s (snd (now T s)).
Proof.
  exists []. simpl. rewrite app_nil_r. split; [reflexivity | lia].
Qed.

Lemma grown_spawn (px py : Q) (s : Live) :
  grown 1 s (spawn T currentWind px py s).
Proof.
  unfold spawn, Particles.spawnFallingParticle.
  destruct (Particles.offScreen (env T) px py).
  - exists []. simpl. rewrite app_nil_r. split; [reflexivity | lia].
  - unfold bind, random2, random1, rand, ret, bind.
    eexists [_]. split; [reflexivity|]. cbn [length draws]. lia.
Qed.

Lemma grown_drawAttachedFoliage (windAngle : Q) (flowered : bool)
    (bloomFactor : Q) (style : FlowerStyle) (s : Live) :
  grown 0 s (snd (drawAttachedFoliage T windAngle flowered bloomFactor style s)).
Proof. apply grown_now. Qed.

Lemma grown_foliage (branch : Branch) (windAngle bloomFactor tipX tipY : Q)
    (style : FlowerStyle) (s : Live) :
  grown 1 s (snd (foliage T currentWind branch windAngle bloomFactor tipX tipY
                          style s)).
Proof.
  unfold foliage.
  assert (H1 : grown 0 s
            (snd (if bloomFactor >? noiseThreshold branch
                  then drawAttachedFoliage T windAngle (hasFlower branch)
                                           bloomFactor style s
                  else ([], s)))).
  { destruct (bloomFactor >? noiseThreshold branch);
      [apply grown_drawAttachedFoliage | apply grown_refl]. }
  destruct (if bloomFactor >? noiseThreshold branch then _ else _)
    as [leaves s1]. cbn [snd] in H1.
  pose proof (grown_now s1) as H2.
  destruct (now T s1) as [time s2]. cbn [snd] in *.
  destruct (bloomFactor >? 0.3).
  - destruct (rem _ _ <? 0.02).
    + apply (grown_trans 0 1 s s1); [exact H1|].
      apply (grown_trans 0 1 s1 s2); [exact H2 | apply grown_spawn].
    + apply (grown_mono 0 1); [lia|].
      apply (grown_trans 0 0 s s1 s2 H1 H2).
  - apply (grown_mono 0 1); [lia|].
    apply (grown_trans 0 0 s s1 s2 H1 H2).
Qed.

Lemma grown_renderChildren
    (render : Branch -> Q -> Q -> Live -> list Call * Live)
    (localWind cumAngle : Q) (kids : list Branch) :
  Forall (fun c => forall a1 a2 s,
            grown (length (List.filter outer (nodes c))) s
                  (snd (render c a1 a2 s))) kids ->
  forall s,
    grown (length (List.filter outer (flat_map nodes kids))) s
          (snd (renderChildren render localWind cumAngle kids s)).
Proof.
  induction 1 as [|c kids Hc _ IH]; intros s; simpl; [apply grown_refl|].
  specialize (Hc (angleOffset c + localWind)
                 (cumAngle + (angleOffset c + localWind)) s).
  destruct (render c _ _ s) as [drawn s1]. specialize (IH s1).
  destruct (renderChildren render localWind cumAngle kids s1) as [others s2].
  cbn [snd] in *.
  rewrite List.filter_app, length_app.
  apply (grown_trans _ _ s s1 s2 Hc IH).
Qed.

Lemma grown_renderBranch (branch : Branch) :
  forall (len thick windAngle x y cumAngle : Q) (style : FlowerStyle) (s : Live),
  grown (length (List.filter outer (nodes branch))) s
        (snd (renderBranch T currentMood currentWind branch len thick
                           windAngle x y cumAngle style s)).
Proof.
  induction branch as [branch IH] using Branch_induction.
  intros len thick windAngle x y cumAngle style s.
  rewrite renderBranch_unfold, nodes_unfold. cbv zeta. cbn [List.filter].
  pose proof (grown_foliage branch windAngle (map_clamped currentMood 0 1 0 1)
                (x + sin (env T) cumAngle * len) (y - cos (env T) cumAngle * len)
                style s) as Hf.
  assert (H1 : grown (if outer branch then 1 else 0) s
            (snd (if outer branch
                  then foliage T currentWind branch windAngle
                               (map_clamped currentMood 0 1 0 1)
                               (x + sin (env T) cumAngle * len)
                               (y - cos (env T) cumAngle * len) style s
                  else ([], s)))).
  { destruct (outer branch); [exact Hf | apply grown_refl]. }
  clear Hf.
  destruct (if outer branch then foliage _ _ _ _ _ _ _ _ _ else _)
    as [leaves s1]. cbn [snd] in H1.
  assert (E : length (if outer branch
                      then branch :: List.filter outer (flat_map nodes (children branch))
                      else List.filter outer (flat_map nodes (children branch)))
              = ((if outer branch then 1 else 0)
                 + length (List.filter outer (flat_map nodes (children branch))))%nat).
  { destruct (outer branch); reflexivity. }
  rewrite E. clear E.
  destruct ((MAX_DEPTH <=? depth branch)%nat || (len <? 4)).
  - cbn [snd]. eapply grown_mono; [|exact H1]. lia.
  - pose proof (grown_renderChildren
                  (fun child nextAngle angle s' =>
                     renderBranch T currentMood currentWind child
                       (len * lenMult child) (thick * 0.7) windAngle
                       (x + sin (env T) cumAngle * len)
                       (y - cos (env T) cumAngle * len) angle style s')
                  (windAngle * map_range (ofNat (depth branch)) 0
                                         (ofNat MAX_DEPTH) 0.05 1.3)
                  cumAngle (children branch)) as Hk.
    specialize (Hk ltac:(eapply Forall_impl; [exact IH|]; intros c Hc a1 a2 s';
                         apply Hc) s1).
    destruct (renderChildren _ _ _ (children branch) s1) as [below s2].
    cbn [snd] in *.
    apply (grown_trans _ _ s s1 s2 H1 Hk).
Qed.

End StoreFacts.

(** ** The bloom factor *)

Lemma map_range_unit (m : Q) : map_range m 0 1 0 1 == m.
Proof. unfold map_range. field. Qed.

Lemma bloomFactor_range (m : Q) :
  0 <= map_clamped m 0 1 0 1 <= 1.
Proof.
  unfold map_clamped. change (0 <? 1) with true. cbv iota.
  pose proof (map_range_unit m) as E.
  unfold constrain, min. case_cmp; unfold max; case_cmp; lra.
Qed.

Lemma bloomFactor_le (m c : Q) :
  m <= c -> 0 <= c -> map_clamped m 0 1 0 1 <= c.
Proof.
  intros H C. unfold map_clamped. change (0 <? 1) with true. cbv iota.
  pose proof (map_range_unit m) as E.
  unfold constrain, min. case_cmp; unfold max; case_cmp; lra.
Qed.

Lemma bloomFactor_ge (m c : Q) :
  c <= m -> c <= 1 -> c <= map_clamped m 0 1 0 1.
Proof.
  intros H C. unfold map_clamped. change (0 <? 1) with true. cbv iota.
  pose proof (map_range_unit m) as E.
  unfold constrain, min. case_cmp; unfold max; case_cmp; lra.
Qed.

(** ** Frames that spawn nothing *)

Section QuietFacts.
Import Skeleton Frame.
Variable T : Stage.
Variable currentMood : Q.
Variable currentWind : Q.
Hypothesis low : currentMood <= 0.3.

Lemma quiet_foliage (branch : Branch) (windAngle tipX tipY : Q)
    (style : FlowerStyle) (s : Live) :
  let s' := snd (foliage T currentWind branch windAngle
                         (map_clamped currentMood 0 1 0 1) tipX tipY style s) in
  store s' = store s /\ draws s' = draws s.
Proof.
  cbv zeta. unfold foliage.
  assert (L : (map_clamped currentMood 0 1 0 1 >? 0.3) = false).
  { apply Qlt_bool_false_iff, bloomFactor_le; [exact low | lra]. }
  rewrite L.
  destruct (map_clamped currentMood 0 1 0 1 >? noiseThreshold branch);
    split; reflexivity.
Qed.

Lemma quiet_renderChildren
    (render : Branch -> Q -> Q -> Live -> list Call * Live)
    (localWind cumAngle : Q) (kids : list Branch) :
  Forall (fun c => forall a1 a2 s,
            store (snd (render c a1 a2 s)) = store s /\
            draws (snd (render c a1 a2 s)) = draws s) kids ->
  forall s,
    store (snd (renderChildren render localWind cumAngle kids s)) = store s /\
    draws (snd (renderChildren render localWind cumAngle kids s)) = draws s.
Proof.
  induction 1 as [|c kids Hc _ IH]; intros s; simpl; [split; reflexivity|].
  specialize (Hc (angleOffset c + localWind)
                 (cumAngle + (angleOffset c + localWind)) s).
  destruct (render c _ _ s) as [drawn s1]. specialize (IH s1).
  destruct (renderChildren render localWind cumAngle kids s1) as [others s2].
  cbn [snd] in *. destruct Hc as [Hc1 Hc2], IH as [IH1 IH2].
  split; congruence.
Qed.

Lemma quiet_renderBranch (branch : Branch) :
  forall (len thick windAngle x y cumAngle : Q) (style : FlowerStyle) (s : Live),
  let s' := snd (renderBranch T currentMood currentWind branch len thick
                              windAngle x y cumAngle style s) in
  store s' = store s /\ draws s' = draws s.
Proof.
  induction branch as [branch IH] using Branch_induction.
  intros len thick windAngle x y cumAngle style s. cbv zeta.
  rewrite renderBranch_unfold. cbv zeta.
  pose proof (quiet_foliage branch windAngle
                (x + sin (env T) cumAngle * len) (y - cos (env T) cumAngle * len)
                style s) as Hf. cbv zeta in Hf.
  assert (H1 : let s1 := snd (if outer branch
                  then foliage T currentWind branch windAngle
                               (map_clamped currentMood 0 1 0 1)
                               (x + sin (env T) cumAngle * len)
                               (y - cos (env T) cumAngle * len) style s
                  else ([], s)) in
               store s1 = store s /\ draws s1 = draws s).
  { destruct (outer branch); [exact Hf | split; reflexivity]. }
  clear Hf. cbv zeta in H1.
  destruct (if outer branch then foliage _ _ _ _ _ _ _ _ _ else _)
    as [leaves s1]. cbn [snd] in H1.
  destruct ((MAX_DEPTH <=? depth branch)%nat || (len <? 4)).
  - exact H1.
  - pose proof (quiet_renderChildren
                  (fun child nextAngle angle s' =>
                     renderBranch T currentMood currentWind child
                       (len * lenMult child) (thick * 0.7) windAngle
                       (x + sin (env T) cumAngle * len)
                       (y - cos (env T) cumAngle * len) angle style s')
                  (windAngle * map_range (ofNat (depth branch)) 0
                                         (ofNat MAX_DEPTH) 0.05 1.3)
                  cumAngle (children branch)) as Hk.
    specialize (Hk ltac:(eapply Forall_impl; [exact IH|]; intros c Hc a1 a2 s';
                         apply Hc) s1).
    destruct (renderChildren _ _ _ (children branch) s1) as [below s2].
    cbn [snd] in *. destruct H1, Hk. split; congruence.
Qed.

End QuietFacts.

(** ** Counting the outer branches of a built tree *)

Lemma outer_count (h : nat) :
  forall (b : Skeleton.Branch),
  (Skeleton.depth b + h = S Skeleton.MAX_DEPTH)%nat ->
  Forall Skeleton.wellShaped (Skeleton.nodes b) ->
  length (List.filter Frame.outer (Skeleton.nodes b))
  = Frame.outerIn h (Skeleton.depth b).
Proof.
  induction h as [|h IH]; intros b Hd Hw.
  - rewrite nodes_unfold in Hw. inversion Hw as [|? ? Hb _]; subst.
    destruct Hb as (Hle & _). unfold Skeleton.MAX_DEPTH in *. lia.
  - rewrite nodes_unfold in Hw |- *.
    inversion Hw as [|? ? Hb Hrest]; subst.
    destruct Hb as (Hle & H2 & H0 & Hkids & _).
    cbn [List.filter Frame.outerIn]. unfold Frame.outer at 1.
    assert (Ek : length (List.filter Frame.outer
                           (flat_map Skeleton.nodes (Skeleton.children b)))
                 = (2 * Frame.outerIn h (S (Skeleton.depth b)))%nat).
    { destruct h as [|h'].
      - rewrite H0 by (unfold Skeleton.MAX_DEPTH in *; lia). reflexivity.
      - assert (L2 : length (Skeleton.children b) = 2%nat)
          by (apply H2; unfold Skeleton.MAX_DEPTH in *; lia).
        destruct (Skeleton.children b) as [|c0 [|c1 [|? ?]]];
          try discriminate L2.
        inversion Hkids as [|? ? D0 Hk']; subst.
        inversion Hk' as [|? ? D1 _]; subst.
        cbn [flat_map] in Hrest |- *. rewrite app_nil_r in Hrest |- *.
        apply Forall_app in Hrest. destruct Hrest as [W0 W1].
        rewrite List.filter_app, length_app.
        rewrite (IH c0), (IH c1); try assumption; try lia.
        rewrite D0, D1. lia. }
    destruct (Skeleton.MAX_DEPTH - 4 <? Skeleton.depth b)%nat;
      cbn [length]; rewrite Ek; reflexivity.
Qed.

(** ** What the builder bakes *)

Section BakedFacts.
Import Skeleton Frame.
Variable rnd : nat -> Q.
Hypothesis rnd_range : forall i, 0 <= rnd i < 1.

Lemma angle_left (r : Q) :
  0 <= r < 1 ->
  let a := map_range (ofNat 0) 0 (ofNat 2 - 1) (- (PI / 5.0)) (PI / 5.0)
           + (r * (0.15 - -0.15) + -0.15) in
  - (PI / 5.0) - 0.15 <= a < - (PI / 5.0) + 0.15 /\ a < 0.
Proof.
  intros H. cbv zeta.
  assert (E : map_range (ofNat 0) 0 (ofNat 2 - 1) (- (PI / 5.0)) (PI / 5.0)
              == - (PI / 5.0)) by reflexivity.
  assert (P : PI / 5.0 == 884279719003555 # 1407374883553280) by reflexivity.
  rewrite E, P. lra.
Qed.

Lemma angle_right (r : Q) :
  0 <= r < 1 ->
  let a := map_range (ofNat 1) 0 (ofNat 2 - 1) (- (PI / 5.0)) (PI / 5.0)
           + (r * (0.15 - -0.15) + -0.15) in
  PI / 5.0 - 0.15 <= a < PI / 5.0 + 0.15 /\ 0 < a.
Proof.
  intros H. cbv zeta.
  assert (E : map_range (ofNat 1) 0 (ofNat 2 - 1) (- (PI / 5.0)) (PI / 5.0)
              == PI / 5.0) by reflexivity.
  assert (P : PI / 5.0 == 884279719003555 # 1407374883553280) by reflexivity.
  rewrite E, P. lra.
Qed.

Lemma threshold_range (r : Q) :
  0 <= r < 1 -> 0.05 <= r * (0.95 - 0.05) + 0.05 < 0.95.
Proof. intros H. lra. Qed.

Lemma childLoop_two (create : Gen (option Branch)) (P : Branch -> Prop)
    (baseAngle : Q) (k : nat) :
  (forall k, exists b k', create k = (Some b, k') /\ P b) ->
  exists b0 b1 k1 k2,
    P b0 /\ P b1 /\
    childLoop rnd create 2 baseAngle 2 0 [] k
    = (Some [ setAngleThick b0
                (map_range (ofNat 0) 0 (ofNat 2 - 1) (- baseAngle) baseAngle
                 + (rnd k1 * (0.15 - -0.15) + -0.15)) 0;
              setAngleThick b1
                (map_range (ofNat 1) 0 (ofNat 2 - 1) (- baseAngle) baseAngle
                 + (rnd k2 * (0.15 - -0.15) + -0.15)) 0 ],
       S k2).
Proof.
  intros H.
  destruct (H k) as (b0 & k1 & E0 & P0).
  destruct (H (S k1)) as (b1 & k2 & E1 & P1).
  exists b0, b1, k1, k2. split; [exact P0|]. split; [exact P1|].
  cbn [childLoop]. unfold bind at 1. rewrite E0.
  unfold bind at 1, random2 at 1, bind at 1, rand at 1, ret at 1.
  unfold bind at 1. rewrite E1.
  unfold bind at 1, random2 at 1, bind at 1, rand at 1, ret at 1.
  reflexivity.
Qed.

(** What is known of a freshly made subtree besides its shape. *)
Lemma createBranch_baked (fuel : nat) :
  forall (d k : nat),
  (d + fuel = MAX_DEPTH)%nat ->
  exists b k',
    createBranch rnd (S fuel) d k = (Some b, k') /\
    (len b = 0 /\ thick b = 0 /\ angleOffset b = 0) /\
    Forall baked (nodes b).
Proof.
  induction fuel as [|fuel IH]; intros d k Hd.
  - rewrite createBranch_unfold. cbv zeta.
    assert (E : (d <? MAX_DEPTH)%nat = false) by (apply Nat.ltb_ge; lia).
    rewrite E. eexists _, _. split; [reflexivity|].
    split; [repeat split|].
    rewrite nodes_unfold. cbn [children flat_map].
    constructor; [|constructor].
    split; [apply threshold_range, rnd_range|].
    split; [constructor|]. intros l r Hlr. discriminate Hlr.
  - rewrite createBranch_unfold. cbv zeta.
    assert (E : (d <? MAX_DEPTH)%nat = true) by (apply Nat.ltb_lt; lia).
    rewrite E.
    destruct (childLoop_two (createBranch rnd (S fuel) (S d))
                (fun b => (len b = 0 /\ thick b = 0 /\ angleOffset b = 0) /\
                          Forall baked (nodes b))
                (PI / 5.0) (S (S (S k)))
                (fun k0 => IH (S d) k0 ltac:(lia)))
      as (b0 & b1 & k1 & k2 & ((L0 & _) & B0) & ((L1 & _) & B1) & Ek).
    rewrite Ek. eexists _, _. split; [reflexivity|].
    split; [repeat split|].
    rewrite nodes_unfold. cbn [setChildren children app flat_map].
    rewrite app_nil_r.
    rewrite nodes_unfold in B0, B1.
    inversion B0 as [|? ? H0 R0]; subst. inversion B1 as [|? ? H1 R1]; subst.
    constructor.
    + split; [apply threshold_range, rnd_range|].
      split; [repeat constructor; assumption|].
      intros l r Hlr. injection Hlr as <- <-. cbn [setAngleThick angleOffset].
      destruct (angle_left (rnd k1) (rnd_range k1)) as [A1 A2].
      destruct (angle_right (rnd k2) (rnd_range k2)) as [A3 A4].
      repeat split; lra.
    + apply Forall_app. split.
      * rewrite nodes_unfold. constructor; [exact H0 | exact R0].
      * rewrite nodes_unfold. constructor; [exact H1 | exact R1].
Qed.

End BakedFacts.

Lemma rebuild_built (T : Stage) (k : Frame.Sketch) :
  (forall i, 0 <= rnd T i < 1) ->
  exists root d,
    Frame.rebuild T k
    = Some (Frame.mkSketch (Frame.signals k) (Some root)
              (mkLive d (ticks (Frame.live k)) (store (Frame.live k)))) /\
    Skeleton.builtAt 0 (S Skeleton.MAX_DEPTH) root /\
    Forall Frame.baked (Skeleton.nodes root) /\
    Skeleton.len root
    = height (env T) * (if width (env T) <? 600 then 0.22 else 0.26) /\
    Skeleton.thick root = (if width (env T) <? 600 then 18 else 28) /\
    Skeleton.angleOffset root = 0.
Proof.
  intros rnd_range.
  destruct (createBranch_spec (rnd T) rnd_range Skeleton.MAX_DEPTH 0
              (draws (Frame.live k)) eq_refl) as (b & d & E & B).
  destruct (createBranch_baked (rnd T) rnd_range Skeleton.MAX_DEPTH 0
              (draws (Frame.live k)) eq_refl)
    as (b' & d' & E' & (_ & _ & A) & K).
  rewrite E in E'. injection E' as <- <-.
  exists (Skeleton.setLenThick b
            (height (env T) * (if width (env T) <? 600 then 0.22 else 0.26))
            (if width (env T) <? 600 then 18 else 28)), d.
  split.
  - unfold Frame.rebuild, Skeleton.buildTreeSkeleton, bind. rewrite E.
    reflexivity.
  - split; [apply builtAt_setLenThick, B|].
    split; [|split; [reflexivity | split; [reflexivity | exact A]]].
    rewrite nodes_unfold in K |- *.
    cbn [Skeleton.setLenThick Skeleton.children].
    inversion K as [|? ? Hb Hr]; subst. constructor; [exact Hb | exact Hr].
Qed.


Lemma Forall_flat_map_nodes {A B} (P : B -> Prop) (f : A -> list B) (l : list A) :
  Forall P (flat_map f l) -> Forall (fun a => Forall P (f a)) l.
Proof.
  induction l as [|a l IH]; simpl; intros H; [constructor|].
  apply Forall_app in H. destruct H as [Ha Hl].
  constructor; [exact Ha | apply IH, Hl].
Qed.

(** ** A bare tree *)

Section BareFacts.
Import Skeleton Frame.
Variable T : Stage.
Variable currentMood : Q.
Variable currentWind : Q.
Hypothesis low : currentMood <= 0.05.

Lemma bare_renderChildren
    (render : Branch -> Q -> Q -> Live -> list Call * Live)
    (localWind cumAngle : Q) (kids : list Branch) :
  Forall (fun c => forall a1 a2 s,
            Forall (fun call => paints call = false) (fst (render c a1 a2 s)))
         kids ->
  forall s,
    Forall (fun call => paints call = false)
           (fst (renderChildren render localWind cumAngle kids s)).
Proof.
  induction 1 as [|c kids Hc _ IH]; intros s; simpl; [constructor|].
  specialize (Hc (angleOffset c + localWind)
                 (cumAngle + (angleOffset c + localWind)) s).
  destruct (render c _ _ s) as [drawn s1]. specialize (IH s1).
  destruct (renderChildren render localWind cumAngle kids s1) as [others s2].
  cbn [fst] in *.
  repeat (constructor; [reflexivity|]).
  apply Forall_app. split; [exact Hc|].
  constructor; [reflexivity | exact IH].
Qed.

Lemma bare_renderBranch (branch : Branch) :
  Forall baked (nodes branch) ->
  forall (len thick windAngle x y cumAngle : Q) (style : FlowerStyle) (s : Live),
  Forall (fun call => paints call = false)
         (fst (renderBranch T currentMood currentWind branch len thick
                            windAngle x y cumAngle style s)).
Proof.
  induction branch as [branch IH] using Branch_induction.
  intros Hb len thick windAngle x y cumAngle style s.
  rewrite nodes_unfold in Hb. inversion Hb as [|? ? Hn Hkids]; subst.
  apply Forall_flat_map_nodes in Hkids.
  rewrite renderBranch_unfold. cbv zeta.
  assert (Hf : fst (if outer branch
                    then foliage T currentWind branch windAngle
                                 (map_clamped currentMood 0 1 0 1)
                                 (x + sin (env T) cumAngle * len)
                                 (y - cos (env T) cumAngle * len) style s
                    else ([], s)) = []).
  { destruct (outer branch); [|reflexivity].
    unfold foliage.
    assert (L : (map_clamped currentMood 0 1 0 1 >? noiseThreshold branch)
                = false).
    { apply Qlt_bool_false_iff. destruct Hn as ((Hlo & _) & _).
      apply (Qle_trans _ 0.05); [|exact Hlo].
      apply (bloomFactor_le currentMood 0.05 low). lra. }
    rewrite L. reflexivity. }
  destruct (if outer branch then foliage _ _ _ _ _ _ _ _ _ else _)
    as [leaves s1]. cbn [fst] in Hf. subst leaves.
  destruct ((MAX_DEPTH <=? depth branch)%nat || (len <? 4)).
  - cbn [fst app]. repeat (constructor; [reflexivity|]). constructor.
  - pose proof (bare_renderChildren
                  (fun child nextAngle angle s' =>
                     renderBranch T currentMood currentWind child
                       (len * lenMult child) (thick * 0.7) windAngle
                       (x + sin (env T) cumAngle * len)
                       (y - cos (env T) cumAngle * len) angle style s')
                  (windAngle * map_range (ofNat (depth branch)) 0
                                         (ofNat MAX_DEPTH) 0.05 1.3)
                  cumAngle (children branch)) as Hk.
    assert (Hall : Forall
              (fun c => forall (a1 a2 : Q) (s' : Live),
                 Forall (fun call => paints call = false)
                   (fst (renderBranch T currentMood currentWind c
                           (len * lenMult c) (thick * 0.7) windAngle
                           (x + sin (env T) cumAngle * len)
                           (y - cos (env T) cumAngle * len) a2 style s')))
              (children branch)).
    { clear Hk Hb. revert IH Hkids. generalize (children branch) as cs.
      induction cs as [|c cs IHcs]; intros IH Hkids; [constructor|].
      inversion IH as [|? ? Hc Hcs]; subst.
      inversion Hkids as [|? ? Kc Kcs]; subst.
      constructor; [intros a1 a2 s'; apply Hc, Kc | apply IHcs; assumption]. }
    specialize (Hk Hall s1).
    destruct (renderChildren _ _ _ (children branch) s1) as [below s2].
    cbn [fst app] in *. repeat (constructor; [reflexivity|]). exact Hk.
Qed.

End BareFacts.


(** ** The segments of a frame *)

Lemma countLines_app (a b : list Call) :
  Frame.countLines (a ++ b) = (Frame.countLines a + Frame.countLines b)%nat.
Proof. unfold Frame.countLines. rewrite List.filter_app, length_app. reflexivity. Qed.

Lemma countLines_shapes (ops : list DrawOp) :
  Frame.countLines (map shape ops) = 0%nat.
Proof. induction ops as [|op ops IH]; [reflexivity | exact IH]. Qed.

Lemma shrink_range (n : nat) : 0 < Frame.shrink n <= 1.
Proof.
  induction n as [|n IH]; simpl; [lra|]. lra.
Qed.

Section LineFacts.
Import Skeleton Frame.
Variable T : Stage.
Variable currentMood : Q.
Variable currentWind : Q.

Lemma countLines_foliage (branch : Branch) (windAngle bloomFactor tipX tipY : Q)
    (style : FlowerStyle) (s : Live) :
  countLines (fst (foliage T currentWind branch windAngle bloomFactor tipX tipY
                           style s)) = 0%nat.
Proof.
  unfold foliage.
  destruct (bloomFactor >? noiseThreshold branch); [|reflexivity].
  unfold drawAttachedFoliage, now. cbn [fst].
  rewrite countLines_app, countLines_shapes.
  destruct (hasFlower branch && _); [apply countLines_shapes | reflexivity].
Qed.

Lemma countLines_leaves (branch : Branch) (windAngle bloomFactor tipX tipY : Q)
    (style : FlowerStyle) (s : Live) :
  countLines (fst (if outer branch
                   then foliage T currentWind branch windAngle bloomFactor
                                tipX tipY style s
                   else ([], s))) = 0%nat.
Proof.
  destruct (outer branch); [apply countLines_foliage | reflexivity].
Qed.

Lemma countLines_renderChildren
    (render : Branch -> Q -> Q -> Live -> list Call * Live)
    (localWind cumAngle : Q) (n : nat) (kids : list Branch) :
  Forall (fun c => forall (a1 a2 : Q) (s : Live),
            countLines (fst (render c a1 a2 s)) = n) kids ->
  forall s,
    countLines (fst (renderChildren render localWind cumAngle kids s))
    = (length kids * n)%nat.
Proof.
  induction 1 as [|c kids Hc _ IH]; intros s; simpl; [reflexivity|].
  specialize (Hc (angleOffset c + localWind)
                 (cumAngle + (angleOffset c + localWind)) s).
  destruct (render c _ _ s) as [drawn s1]. specialize (IH s1).
  destruct (renderChildren render localWind cumAngle kids s1) as [others s2].
  cbn [fst] in *.
  change (shape push :: shape (rotate (angleOffset c + localWind))
          :: drawn ++ shape pop :: others)
    with ([shape push; shape (rotate (angleOffset c + localWind))]
          ++ drawn ++ [shape pop] ++ others).
  rewrite !countLines_app, Hc, IH. reflexivity.
Qed.

Lemma countLines_renderChildren_le
    (render : Branch -> Q -> Q -> Live -> list Call * Live)
    (localWind cumAngle : Q) (kids : list Branch) :
  Forall (fun c => forall (a1 a2 : Q) (s : Live),
            (countLines (fst (render c a1 a2 s)) <= length (nodes c))%nat)
         kids ->
  forall s,
    (countLines (fst (renderChildren render localWind cumAngle kids s))
     <= length (flat_map nodes kids))%nat.
Proof.
  induction 1 as [|c kids Hc _ IH]; intros s; simpl; [reflexivity|].
  specialize (Hc (angleOffset c + localWind)
                 (cumAngle + (angleOffset c + localWind)) s).
  destruct (render c _ _ s) as [drawn s1]. specialize (IH s1).
  destruct (renderChildren render localWind cumAngle kids s1) as [others s2].
  cbn [fst] in *.
  change (shape push :: shape (rotate (angleOffset c + localWind))
          :: drawn ++ shape pop :: others)
    with ([shape push; shape (rotate (angleOffset c + localWind))]
          ++ drawn ++ [shape pop] ++ others).
  rewrite !countLines_app, length_app.
  change (countLines [shape push; shape (rotate (angleOffset c + localWind))])
    with 0%nat.
  change (countLines [shape pop]) with 0%nat. lia.
Qed.

(** A frame draws each branch at most once. *)
Lemma countLines_renderBranch_le (branch : Branch) :
  forall (len thick windAngle x y cumAngle : Q) (style : FlowerStyle) (s : Live),
  (countLines (fst (renderBranch T currentMood currentWind branch len thick
                                 windAngle x y cumAngle style s))
   <= length (nodes branch))%nat.
Proof.
  induction branch as [branch IH] using Branch_induction.
  intros len thick windAngle x y cumAngle style s.
  rewrite renderBranch_unfold, nodes_unfold. cbv zeta.
  pose proof (countLines_leaves branch windAngle (map_clamped currentMood 0 1 0 1)
                (x + sin (env T) cumAngle * len) (y - cos (env T) cumAngle * len)
                style s) as Hf.
  destruct (if outer branch then foliage _ _ _ _ _ _ _ _ _ else _)
    as [leaves s1]. cbn [fst] in Hf.
  destruct ((MAX_DEPTH <=? depth branch)%nat || (len <? 4)).
  - cbn [fst].
    rewrite (countLines_app [_; _; _; _]), (countLines_app [_]), Hf.
    cbn [length]. change (countLines [_; _; _; _]) with 1%nat.
    change (countLines [_]) with 0%nat. lia.
  - pose proof (countLines_renderChildren_le
                  (fun child nextAngle angle s' =>
                     renderBranch T currentMood currentWind child
                       (len * lenMult child) (thick * 0.7) windAngle
                       (x + sin (env T) cumAngle * len)
                       (y - cos (env T) cumAngle * len) angle style s')
                  (windAngle * map_range (ofNat (depth branch)) 0
                                         (ofNat MAX_DEPTH) 0.05 1.3)
                  cumAngle (children branch)) as Hk.
    specialize (Hk ltac:(eapply Forall_impl; [exact IH|]; intros c Hc a1 a2 s';
                         apply Hc) s1).
    destruct (renderChildren _ _ _ (children branch) s1) as [below s2].
    cbn [fst] in *.
    rewrite (countLines_app [_; _; _; _]), (countLines_app [_]),
            countLines_app, Hf.
    cbn [length]. change (countLines [_; _; _; _]) with 1%nat.
    change (countLines [_]) with 0%nat. lia.
Qed.

(** With a trunk long enough for the deepest inner branches to stay at
    least 4 long, a frame draws a full subtree whole. *)
Lemma countLines_renderBranch_full (h : nat) :
  forall (branch : Branch),
  (depth branch + h = MAX_DEPTH)%nat ->
  Forall wellShaped (nodes branch) ->
  forall (len thick windAngle x y cumAngle : Q) (style : FlowerStyle) (s : Live),
  match h with O => True | S h' => 4 <= len * shrink h' end ->
  countLines (fst (renderBranch T currentMood currentWind branch len thick
                                windAngle x y cumAngle style s))
  = (2 ^ S h - 1)%nat.
Proof.
  induction h as [|h IH];
    intros branch Hd Hw len thick windAngle x y cumAngle style s Hlen;
    rewrite renderBranch_unfold; cbv zeta;
    pose proof (countLines_leaves branch windAngle
                  (map_clamped currentMood 0 1 0 1)
                  (x + sin (env T) cumAngle * len)
                  (y - cos (env T) cumAngle * len) style s) as Hf;
    destruct (if outer branch then foliage _ _ _ _ _ _ _ _ _ else _)
      as [leaves s1]; cbn [fst] in Hf.
  - assert (E : (MAX_DEPTH <=? depth branch)%nat = true)
      by (apply Nat.leb_le; lia).
    rewrite E. cbn [orb fst].
    rewrite (countLines_app [_; _; _; _]), (countLines_app [_]), Hf.
    reflexivity.
  - assert (E : (MAX_DEPTH <=? depth branch)%nat = false)
      by (apply Nat.leb_gt; lia).
    pose proof (shrink_range h) as Sh.
    assert (L : (len <? 4) = false) by (apply Qlt_bool_false_iff; nra).
    rewrite E, L. cbn [orb].
    rewrite nodes_unfold in Hw. inversion Hw as [|? ? Hb Hrest]; subst.
    destruct Hb as (_ & H2 & _ & Hkids & _).
    apply Forall_flat_map_nodes in Hrest.
    pose proof (countLines_renderChildren
                  (fun child nextAngle angle s' =>
                     renderBranch T currentMood currentWind child
                       (len * lenMult child) (thick * 0.7) windAngle
                       (x + sin (env T) cumAngle * len)
                       (y - cos (env T) cumAngle * len) angle style s')
                  (windAngle * map_range (ofNat (depth branch)) 0
                                         (ofNat MAX_DEPTH) 0.05 1.3)
                  cumAngle (2 ^ S h - 1) (children branch)) as Hk.
    assert (Hall : Forall
              (fun c => forall (a1 a2 : Q) (s' : Live),
                 countLines
                   (fst (renderBranch T currentMood currentWind c
                           (len * lenMult c) (thick * 0.7) windAngle
                           (x + sin (env T) cumAngle * len)
                           (y - cos (env T) cumAngle * len) a2 style s'))
                 = (2 ^ S h - 1)%nat)
              (children branch)).
    { clear Hk H2. revert Hkids Hrest. generalize (children branch) as cs.
      induction cs as [|c cs IHcs]; intros Hkids Hrest; [constructor|].
      inversion Hkids as [|? ? Dc Dcs]; subst.
      inversion Hrest as [|? ? Wc Wcs]; subst.
      constructor; [|apply IHcs; assumption].
      intros a1 a2 s'. apply IH; [lia | exact Wc |].
      destruct h as [|h']; [exact I|].
      rewrite nodes_unfold in Wc. inversion Wc as [|? ? Hc _]; subst.
      destruct Hc as (_ & _ & _ & _ & Hm).
      pose proof (shrink_range h') as Sh'.
      cbn [shrink] in Hlen. nra. }
    specialize (Hk Hall s1).
    destruct (renderChildren _ _ _ (children branch) s1) as [below s2].
    cbn [fst] in *.
    rewrite (countLines_app [_; _; _; _]), (countLines_app [_]),
            countLines_app, Hf, Hk.
    rewrite (H2 ltac:(lia)).
    change (countLines [_; _; _; _]) with 1%nat.
    change (countLines [_]) with 0%nat.
    change (2 ^ S (S h))%nat with (2 * 2 ^ S h)%nat.
    pose proof (Nat.pow_nonzero 2 (S h) ltac:(lia)). lia.
Qed.

End LineFacts.

(** ** The whole frame *)

Section DrawFacts.
Import Skeleton Frame.
Variable T : Stage.

(** [p.draw] in one equation. *)
Lemma draw_spec (o : bool) (mood windForce : Q) (style : FlowerStyle)
    (k : Sketch) :
  let sig := fst (Detector.drawSignals o (signals k) mood windForce) in
  let m := Detector.currentMood sig in
  let w := Detector.currentWind sig in
  let tree :=
    drawTree T m w (totalWindAngle T w (millis T (ticks (live k)))) style
             (rootBranch k) (snd (now T (live k))) in
  draw o T mood windForce style k
  = Some (mkSketch sig (rootBranch k)
            (mkLive (draws (snd tree)) (ticks (snd tree))
               (Particles.survivors (env T) w
                  (Particles.newest Particles.MAX_PARTICLES (store (snd tree))))),
          snd (Detector.drawSignals o (signals k) mood windForce),
          overlay T m ++ fst tree
          ++ map shape
               (Particles.drawnCalls (env T) w style
                  (Particles.newest Particles.MAX_PARTICLES (store (snd tree))))).
Proof.
  cbv zeta. unfold draw.
  destruct (Detector.drawSignals o (signals k) mood windForce) as [sig events].
  cbn [fst snd]. unfold now at 1. cbn [fst snd].
  change (mkLive (draws (live k)) (S (ticks (live k))) (store (live k)))
    with (snd (now T (live k))).
  destruct (drawTree T _ _ _ style (rootBranch k) (snd (now T (live k))))
    as [tree s2].
  rewrite updateParticles_spec. reflexivity.
Qed.

Lemma balanced_drawTree (m w windAngle : Q) (style : FlowerStyle)
    (root : option Branch) (s : Live) :
  balanced (fst (drawTree T m w windAngle style root s)).
Proof.
  unfold drawTree. destruct root as [root|]; [|apply balanced_nil].
  pose proof (balanced_renderBranch T m w root (len root) (thick root) windAngle
                (width (env T) / 2) (height (env T)) 0 style s) as H.
  destruct (renderBranch T m w root _ _ _ _ _ _ style s) as [drawn s1].
  cbn [fst] in *. cbn [map app].
  apply (balanced_wrap
           [shape (translate (width (env T) / 2) (height (env T)))]);
    [intros d; reflexivity | exact H].
Qed.

Lemma balanced_overlay (m : Q) : balanced (overlay T m).
Proof. intros d. unfold overlay. destruct (m >? 0); reflexivity. Qed.

Lemma grown_drawTree (m w windAngle : Q) (style : FlowerStyle)
    (root : Branch) (s : Live) :
  grown (length (List.filter outer (nodes root))) s
        (snd (drawTree T m w windAngle style (Some root) s)).
Proof.
  unfold drawTree.
  pose proof (grown_renderBranch T m w root (len root) (thick root) windAngle
                (width (env T) / 2) (height (env T)) 0 style s) as H.
  destruct (renderBranch T m w root _ _ _ _ _ _ style s) as [drawn s1].
  exact H.
Qed.

Lemma quiet_drawTree (m w windAngle : Q) (style : FlowerStyle)
    (root : option Branch) (s : Live) :
  m <= 0.3 ->
  store (snd (drawTree T m w windAngle style root s)) = store s /\
  draws (snd (drawTree T m w windAngle style root s)) = draws s.
Proof.
  intros low. unfold drawTree. destruct root as [root|]; [|split; reflexivity].
  pose proof (quiet_renderBranch T m w low root (len root) (thick root)
                windAngle (width (env T) / 2) (height (env T)) 0 style s) as H.
  cbv zeta in H.
  destruct (renderBranch T m w root _ _ _ _ _ _ style s) as [drawn s1].
  exact H.
Qed.

Lemma bare_drawTree (m w windAngle : Q) (style : FlowerStyle)
    (root : Branch) (s : Live) :
  m <= 0.05 ->
  Forall baked (nodes root) ->
  Forall (fun call => paints call = false)
         (fst (drawTree T m w windAngle style (Some root) s)).
Proof.
  intros low Hb. unfold drawTree.
  pose proof (bare_renderBranch T m w low root Hb (len root) (thick root)
                windAngle (width (env T) / 2) (height (env T)) 0 style s) as H.
  destruct (renderBranch T m w root _ _ _ _ _ _ style s) as [drawn s1].
  cbn [fst map app] in *.
  repeat (constructor; [reflexivity|]).
  apply Forall_app. split; [exact H|]. repeat constructor.
Qed.

Lemma countLines_drawTree (m w windAngle : Q) (style : FlowerStyle)
    (root : Branch) (s : Live) :
  countLines (fst (drawTree T m w windAngle style (Some root) s))
  = countLines (fst (renderBranch T m w root (len root) (thick root) windAngle
                                  (width (env T) / 2) (height (env T)) 0
                                  style s)).
Proof.
  unfold drawTree.
  destruct (renderBranch T m w root _ _ _ _ _ _ style s) as [drawn s1].
  cbn [fst map]. rewrite (countLines_app [_; _]), countLines_app.
  change (countLines [_; _]) with 0%nat. change (countLines [_]) with 0%nat.
  lia.
Qed.

End DrawFacts.

Lemma sample_rnd_range : forall i, 0 <= rnd SampleFrame.stage i < 1.
Proof. intros i. split; [discriminate | reflexivity]. Qed.

(** X1.  A frame never throws, hands the callback the events of the detector
    on the smoothed mood, keeps the tree, and leaves at most 300 particles
    in the store, whatever it held and whatever the tree spawned. *)
Theorem frame_within_capacity (o : bool) (T : Stage) (mood windForce : Q)
    (style : FlowerStyle) (k : Frame.Sketch) :
  exists k' calls,
    Frame.draw o T mood windForce style k
    = Some (k', snd (Detector.drawSignals o (Frame.signals k) mood windForce),
            calls) /\
    Frame.signals k'
    = fst (Detector.drawSignals o (Frame.signals k) mood windForce) /\
    Frame.rootBranch k' = Frame.rootBranch k /\
    (length (store (Frame.live k')) <= Particles.MAX_PARTICLES)%nat.
Proof.
  eexists _, _. split; [apply draw_spec|].
  split; [reflexivity|]. split; [reflexivity|].
  cbn [Frame.live store].
  etransitivity; [apply length_survivors|].
  rewrite length_newest. lia.
Qed.

(** X2.  The calls of a frame are balanced: every [pop] closes a [push] of
    the same frame and the transform stack ends the frame at the depth it
    started from, whatever the tree, the particles and the style. *)
Theorem frame_calls_balanced (o : bool) (T : Stage) (mood windForce : Q)
    (style : FlowerStyle) (k : Frame.Sketch) :
  exists k' events calls,
    Frame.draw o T mood windForce style k = Some (k', events, calls) /\
    balanced calls.
Proof.
  eexists _, _, _. split; [apply draw_spec|].
  apply balanced_app; [apply balanced_overlay|].
  apply balanced_app; [apply balanced_drawTree|].
  unfold Particles.drawnCalls.
  apply balanced_flat_map. intros part. apply balanced_renderParticle.
Qed.

(** X3.  A frame whose smoothed mood is at most 0.3 spawns nothing and
    draws nothing from the random source: the store afterwards is what the
    update keeps of the store before, so it has not grown. *)
Theorem frame_quiet_at_low_mood (o : bool) (T : Stage) (mood windForce : Q)
    (style : FlowerStyle) (k : Frame.Sketch) :
  smoothMood (Detector.currentMood (Frame.signals k)) mood <= 0.3 ->
  exists k' events calls,
    Frame.draw o T mood windForce style k = Some (k', events, calls) /\
    draws (Frame.live k') = draws (Frame.live k) /\
    store (Frame.live k')
    = Particles.survivors (env T)
        (smoothWind (Detector.currentWind (Frame.signals k)) windForce)
        (Particles.newest Particles.MAX_PARTICLES (store (Frame.live k))) /\
    (length (store (Frame.live k')) <= length (store (Frame.live k)))%nat.
Proof.
  intros low.
  eexists _, _, _. split; [apply draw_spec|].
  cbv zeta. cbn [Frame.live store draws].
  assert (Em : Detector.currentMood
                 (fst (Detector.drawSignals o (Frame.signals k) mood windForce))
               = smoothMood (Detector.currentMood (Frame.signals k)) mood).
  { unfold Detector.drawSignals.
    destruct (Detector.eventLogic _ _ _); reflexivity. }
  assert (Ew : Detector.currentWind
                 (fst (Detector.drawSignals o (Frame.signals k) mood windForce))
               = smoothWind (Detector.currentWind (Frame.signals k)) windForce).
  { unfold Detector.drawSignals.
    destruct (Detector.eventLogic _ _ _); reflexivity. }
  rewrite Em, Ew.
  destruct (quiet_drawTree T _
              (smoothWind (Detector.currentWind (Frame.signals k)) windForce)
              (Frame.totalWindAngle T
                 (smoothWind (Detector.currentWind (Frame.signals k)) windForce)
                 (millis T (ticks (Frame.live k))))
              style (Frame.rootBranch k) (snd (Frame.now T (Frame.live k))) low)
    as [Hs Hd].
  rewrite Hs, Hd. cbn [Frame.now snd store draws].
  split; [reflexivity|]. split; [reflexivity|].
  etransitivity; [apply length_survivors|].
  rewrite length_newest. lia.
Qed.

Lemma frame_quiet_at_low_mood_witness :
  exists k,
    SampleFrame.withPetal = Some k /\
    exists k' events calls,
      Frame.draw true SampleFrame.stage 1 0.5 peach k
      = Some (k', events, calls) /\
      draws (Frame.live k') = draws (Frame.live k) /\
      store (Frame.live k')
      = Particles.survivors (env SampleFrame.stage)
          (smoothWind (Detector.currentWind (Frame.signals k)) 0.5)
          (Particles.newest Particles.MAX_PARTICLES (store (Frame.live k))) /\
      (length (store (Frame.live k')) <= length (store (Frame.live k)))%nat.
Proof.
  destruct (rebuild_built SampleFrame.stage Frame.created sample_rnd_range)
    as (root & d & E & _).
  unfold SampleFrame.withPetal, SampleFrame.ready. rewrite E.
  cbn [option_map]. eexists. split; [reflexivity|].
  apply (frame_quiet_at_low_mood true SampleFrame.stage 1 0.5 peach).
  vm_compute. discriminate.
Defined.

Lemma draw_signals_mood (o : bool) (sig : Detector.Signals) (mood windForce : Q) :
  Detector.currentMood (fst (Detector.drawSignals o sig mood windForce))
  = smoothMood (Detector.currentMood sig) mood /\
  Detector.currentWind (fst (Detector.drawSignals o sig mood windForce))
  = smoothWind (Detector.currentWind sig) windForce.
Proof.
  unfold Detector.drawSignals.
  destruct (Detector.eventLogic _ _ _); split; reflexivity.
Qed.

(** X4.  A frame on a built tree pushes at most 960 particles, one for each
    branch of the four outer levels at most, before its update evicts and
    retires: the store that the tree part of the frame leaves is the old one
    followed by the new particles, the frame has taken 12 draws of the
    random source for each of them and no other, and the store afterwards is
    what the update keeps of the 300 newest among the old particles followed
    by the new ones. *)
Theorem frame_spawn_bound (o : bool) (T : Stage) (mood windForce : Q)
    (style : FlowerStyle) (k : Frame.Sketch) :
  Frame.built k ->
  let m := smoothMood (Detector.currentMood (Frame.signals k)) mood in
  let w := smoothWind (Detector.currentWind (Frame.signals k)) windForce in
  let tree :=
    Frame.drawTree T m w
      (Frame.totalWindAngle T w (millis T (ticks (Frame.live k)))) style
      (Frame.rootBranch k) (snd (Frame.now T (Frame.live k))) in
  exists k' events calls new,
    Frame.draw o T mood windForce style k = Some (k', events, calls) /\
    store (snd tree) = store (Frame.live k) ++ new /\
    (length new <= 960)%nat /\
    draws (Frame.live k') = (draws (Frame.live k) + 12 * length new)%nat /\
    store (Frame.live k')
    = Particles.survivors (env T) w
        (Particles.newest Particles.MAX_PARTICLES
           (store (Frame.live k) ++ new)).
Proof.
  intros (root & Er & (Hd & _ & Hw) & _). cbv zeta.
  pose proof (draw_spec T o mood windForce style k) as Hdraw.
  cbv zeta in Hdraw.
  destruct (draw_signals_mood o (Frame.signals k) mood windForce) as [Em Ew].
  rewrite Em, Ew in Hdraw. rewrite Er in *.
  match type of Hdraw with
  | context [Frame.drawTree T ?m ?w ?a style (Some root) ?s] =>
      destruct (grown_drawTree T m w a style root s)
        as (new & Enew & Lnew & Dnew)
  end.
  rewrite (outer_count (S Skeleton.MAX_DEPTH) root) in Lnew
    by (try rewrite Hd; try reflexivity; exact Hw).
  rewrite Hd in Lnew. change (Frame.outerIn 10 0) with 960%nat in Lnew.
  eexists _, _, _, new. split; [exact Hdraw|].
  split; [exact Enew|]. split; [exact Lnew|].
  split; [exact Dnew|].
  cbn [Frame.live store]. rewrite Enew. reflexivity.
Qed.

(** On the sample stage every branch of the outer levels of the blooming
    sketch sheds. *)
Lemma blooming_sheds :
  option_map
    (fun k =>
       length
         (store
            (snd (Frame.drawTree SampleFrame.stage
                    (smoothMood (Detector.currentMood (Frame.signals k)) 0.9)
                    (smoothWind (Detector.currentWind (Frame.signals k)) 0)
                    (Frame.totalWindAngle SampleFrame.stage
                       (smoothWind (Detector.currentWind (Frame.signals k)) 0)
                       (millis SampleFrame.stage (ticks (Frame.live k))))
                    peach (Frame.rootBranch k)
                    (snd (Frame.now SampleFrame.stage (Frame.live k)))))))
    SampleFrame.blooming
  = Some 960%nat.
Proof. vm_compute. reflexivity. Qed.

Lemma frame_spawn_bound_witness :
  exists k,
    SampleFrame.blooming = Some k /\
    exists k' events calls new,
      Frame.draw true SampleFrame.stage 0.9 0 peach k
      = Some (k', events, calls) /\
      store
        (snd (Frame.drawTree SampleFrame.stage
                (smoothMood (Detector.currentMood (Frame.signals k)) 0.9)
                (smoothWind (Detector.currentWind (Frame.signals k)) 0)
                (Frame.totalWindAngle SampleFrame.stage
                   (smoothWind (Detector.currentWind (Frame.signals k)) 0)
                   (millis SampleFrame.stage (ticks (Frame.live k))))
                peach (Frame.rootBranch k)
                (snd (Frame.now SampleFrame.stage (Frame.live k)))))
      = store (Frame.live k) ++ new /\
      (length new <= 960)%nat /\
      draws (Frame.live k') = (draws (Frame.live k) + 12 * length new)%nat /\
      store (Frame.live k')
      = Particles.survivors (env SampleFrame.stage)
          (smoothWind (Detector.currentWind (Frame.signals k)) 0)
          (Particles.newest Particles.MAX_PARTICLES
             (store (Frame.live k) ++ new)) /\
      length new = 960%nat.
Proof.
  pose proof blooming_sheds as Hshed.
  destruct (rebuild_built SampleFrame.stage Frame.created sample_rnd_range)
    as (root & d & E & B & K & _).
  unfold SampleFrame.blooming, SampleFrame.ready in *. rewrite E in *.
  cbn [option_map] in *. eexists. split; [reflexivity|].
  destruct (frame_spawn_bound true SampleFrame.stage 0.9 0 peach
              (Frame.mkSketch (Detector.mkSignals 0.9 0 true) (Some root)
                 (mkLive d 0 []))
              (ex_intro _ root (conj eq_refl (conj B K))))
    as (k' & events & calls & new & Hd & Hs & Hl & Hr & Hk).
  exists k', events, calls, new.
  split; [exact Hd|]. split; [exact Hs|]. split; [exact Hl|].
  split; [exact Hr|]. split; [exact Hk|].
  injection Hshed as Hshed.
  exact (eq_trans (eq_sym (f_equal (@length _) Hs)) Hshed).
Defined.


Lemma countLines_overlay (T : Stage) (m : Q) :
  Frame.countLines (Frame.overlay T m) = 0%nat.
Proof. unfold Frame.overlay. destruct (m >? 0); reflexivity. Qed.

(** X5.  A frame on a built tree draws each branch at most once, 1023
    segments at most; and when the trunk is at least 4 / 0.64^8 long
    (0.64^8 = 0.0281474976710656, so about 142.2), no branch is cut off as
    shorter than 4 and the frame draws all 1023. *)
Theorem frame_draws_every_branch (o : bool) (T : Stage) (mood windForce : Q)
    (style : FlowerStyle) (k : Frame.Sketch) :
  Frame.built k ->
  exists root k' events calls,
    Frame.rootBranch k = Some root /\
    Frame.draw o T mood windForce style k = Some (k', events, calls) /\
    (Frame.countLines calls <= 1023)%nat /\
    (4 <= Skeleton.len root * 0.0281474976710656 ->
     Frame.countLines calls = 1023%nat).
Proof.
  intros (root & Er & (Hd & Hn & Hw) & _).
  pose proof (draw_spec T o mood windForce style k) as Hdraw.
  cbv zeta in Hdraw. rewrite Er in Hdraw.
  eexists root, _, _, _. split; [exact Er|]. split; [exact Hdraw|].
  rewrite !countLines_app, countLines_overlay, countLines_shapes,
          countLines_drawTree.
  split.
  - etransitivity; [|apply Nat.eq_le_incl; exact Hn].
    rewrite Nat.add_0_l, Nat.add_0_r. apply countLines_renderBranch_le.
  - intros Hlen.
    rewrite (countLines_renderBranch_full T _ _ Skeleton.MAX_DEPTH root);
      [reflexivity | rewrite Hd; reflexivity | exact Hw |].
    change (4 <= Skeleton.len root * Frame.shrink 8).
    assert (E : Frame.shrink 8 == 0.0281474976710656) by reflexivity.
    rewrite E. exact Hlen.
Qed.

Lemma frame_draws_every_branch_witness :
  exists k root k' events calls,
    Frame.rebuild SampleFrame.stage Frame.created = Some k /\
    Frame.rootBranch k = Some root /\
    Frame.draw true SampleFrame.stage 0.9 0.5 peach k
    = Some (k', events, calls) /\
    Frame.countLines calls = 1023%nat.
Proof.
  destruct (rebuild_built SampleFrame.stage Frame.created sample_rnd_range)
    as (root & d & E & B & K & L & _).
  destruct (frame_draws_every_branch true SampleFrame.stage 0.9 0.5 peach
              (Frame.mkSketch (Frame.signals Frame.created) (Some root)
                 (mkLive d (ticks (Frame.live Frame.created))
                    (store (Frame.live Frame.created)))))
    as (root' & k' & events & calls & Er & Hdraw & _ & Hall).
  { exists root. split; [reflexivity|]. split; [exact B | exact K]. }
  injection Er as <-.
  eexists _, root, k', events, calls.
  split; [exact E|]. split; [reflexivity|]. split; [exact Hdraw|].
  apply Hall. rewrite L. vm_compute. discriminate.
Defined.

(** X6.  On a built tree, a frame whose smoothed mood is at most 0.05, the
    least bloom threshold the builder bakes, attaches no foliage: the calls
    of the frame are the overlay, a tree part that paints no leaf, petal or
    flower centre, and the calls of the particles that the store held. *)
Theorem bare_tree_at_low_mood (o : bool) (T : Stage) (mood windForce : Q)
    (style : FlowerStyle) (k : Frame.Sketch) :
  Frame.built k ->
  smoothMood (Detector.currentMood (Frame.signals k)) mood <= 0.05 ->
  exists k' events tree,
    Frame.draw o T mood windForce style k
    = Some (k', events,
            Frame.overlay T (smoothMood (Detector.currentMood (Frame.signals k)) mood)
            ++ tree
            ++ map shape
                 (Particles.drawnCalls (env T)
                    (smoothWind (Detector.currentWind (Frame.signals k)) windForce)
                    style
                    (Particles.newest Particles.MAX_PARTICLES
                       (store (Frame.live k))))) /\
    Forall (fun call => Frame.paints call = false) tree.
Proof.
  intros (root & Er & _ & Hb) low.
  pose proof (draw_spec T o mood windForce style k) as Hdraw.
  cbv zeta in Hdraw. rewrite Er in Hdraw.
  destruct (draw_signals_mood o (Frame.signals k) mood windForce) as [Em Ew].
  rewrite Em, Ew in Hdraw.
  match type of Hdraw with
  | context [Frame.drawTree T ?m ?w ?a style (Some root) ?s] =>
      pose proof (bare_drawTree T m w a style root s low Hb) as Hbare;
      destruct (quiet_drawTree T m w a style (Some root) s) as [Hs _];
        [lra|]
  end.
  rewrite Hs in Hdraw. cbn [Frame.now snd store] in Hdraw.
  eexists _, _, _. split; [exact Hdraw | exact Hbare].
Qed.

Lemma bare_tree_at_low_mood_witness :
  exists k k' events tree,
    Frame.rebuild SampleFrame.stage Frame.created = Some k /\
    Frame.draw true SampleFrame.stage 0 0 peach k
    = Some (k', events,
            Frame.overlay SampleFrame.stage
              (smoothMood (Detector.currentMood (Frame.signals k)) 0)
            ++ tree
            ++ map shape
                 (Particles.drawnCalls (env SampleFrame.stage)
                    (smoothWind (Detector.currentWind (Frame.signals k)) 0)
                    peach
                    (Particles.newest Particles.MAX_PARTICLES
                       (store (Frame.live k))))) /\
    Forall (fun call => Frame.paints call = false) tree.
Proof.
  destruct (rebuild_built SampleFrame.stage Frame.created sample_rnd_range)
    as (root & d & E & B & K & _).
  eexists. 
  destruct (bare_tree_at_low_mood true SampleFrame.stage 0 0 peach
              (Frame.mkSketch (Frame.signals Frame.created) (Some root)
                 (mkLive d (ticks (Frame.live Frame.created))
                    (store (Frame.live Frame.created)))))
    as (k' & events & tree & Hdraw & Hbare).
  { exists root. split; [reflexivity|]. split; [exact B | exact K]. }
  { vm_compute. discriminate. }
  exists k', events, tree. split; [exact E|]. split; [exact Hdraw | exact Hbare].
Defined.

(** X7.  Whatever the draws of the random source (each in [[0, 1)]), the
    tree that [buildTreeSkeleton] returns has, at every node, a bloom
    threshold in [[0.05, 0.95)] and children with no length or thickness of
    their own, the first leaning left and the second right, each within
    0.15 of pi / 5 from the axis of the parent; only the root carries a
    length and a thickness: the canvas height times 0.22 and 18 on a canvas
    narrower than 600, times 0.26 and 28 otherwise. *)
Theorem skeleton_baked (rnd : nat -> Q) (width height : Q) (k : nat) :
  (forall i, 0 <= rnd i < 1) ->
  exists root k',
    Skeleton.buildTreeSkeleton rnd width height k = (Some root, k') /\
    Forall Frame.baked (Skeleton.nodes root) /\
    Skeleton.len root = height * (if width <? 600 then 0.22 else 0.26) /\
    Skeleton.thick root = (if width <? 600 then 18 else 28) /\
    Skeleton.angleOffset root = 0.
Proof.
  intros Hrnd.
  destruct (createBranch_baked rnd Hrnd Skeleton.MAX_DEPTH 0 k eq_refl)
    as (b & k' & E & (_ & _ & A) & K).
  eexists _, _. split.
  - unfold Skeleton.buildTreeSkeleton, bind. rewrite E. reflexivity.
  - split; [|split; [reflexivity | split; [reflexivity | exact A]]].
    rewrite nodes_unfold in K |- *.
    cbn [Skeleton.setLenThick Skeleton.children].
    inversion K as [|? ? Hb Hr]; subst. constructor; [exact Hb | exact Hr].
Qed.

Lemma skeleton_baked_witness :
  exists root k',
    Skeleton.buildTreeSkeleton Sample.rnd 400 800 0%nat = (Some root, k') /\
    Forall Frame.baked (Skeleton.nodes root) /\
    Skeleton.len root = 800 * (if 400 <? 600 then 0.22 else 0.26) /\
    Skeleton.thick root = (if 400 <? 600 then 18 else 28) /\
    Skeleton.angleOffset root = 0.
Proof.
  apply (skeleton_baked Sample.rnd 400 800 0 sample_rnd_range).
Defined.

(** X8.  [p.setup] and [p.windowResized] always succeed in rebuilding the
    tree: the sketch afterwards has a freshly built tree of 1023 nodes for
    the canvas of the moment, and the smoothed signals, the bloom latch and
    the particles it had before. *)
Theorem resize_rebuilds_tree_only (T : Stage) (k : Frame.Sketch) :
  (forall i, 0 <= rnd T i < 1) ->
  exists k',
    Frame.rebuild T k = Some k' /\
    Frame.built k' /\
    Frame.signals k' = Frame.signals k /\
    store (Frame.live k') = store (Frame.live k) /\
    exists root,
      Frame.rootBranch k' = Some root /\
      length (Skeleton.nodes root) = 1023%nat /\
      Skeleton.len root
      = height (env T) * (if width (env T) <? 600 then 0.22 else 0.26).
Proof.
  intros Hrnd.
  destruct (rebuild_built T k Hrnd) as (root & d & E & B & K & L & _).
  eexists. split; [exact E|].
  split; [exists root; split; [reflexivity | split; [exact B | exact K]]|].
  split; [reflexivity|]. split; [reflexivity|].
  exists root. split; [reflexivity|]. split; [|exact L].
  destruct B as (_ & N & _). exact N.
Qed.

Lemma resize_rebuilds_tree_only_witness :
  exists k',
    Frame.rebuild SampleFrame.stage Frame.created = Some k' /\
    Frame.built k' /\
    Frame.signals k' = Frame.signals Frame.created /\
    store (Frame.live k') = store (Frame.live Frame.created) /\
    exists root,
      Frame.rootBranch k' = Some root /\
      length (Skeleton.nodes root) = 1023%nat /\
      Skeleton.len root
      = height (env SampleFrame.stage)
        * (if width (env SampleFrame.stage) <? 600 then 0.22 else 0.26).
Proof.
  apply (resize_rebuilds_tree_only SampleFrame.stage Frame.created
           sample_rnd_range).
Defined.

(* ================================================================= *)
(** * Part IV: more on the particles of [treeSketch.ts] *)
(* ================================================================= *)

(** On binary64 [random(lo, hi)] stays between its rounded ends for every
    draw in [[0, 1)], for each range that the spawners draw from: the
    closed ranges of a spawned particle are those of the code. *)
Lemma random2R_range (r lo hi : Q) :
  0 <= r < 1 -> closedIn64 (lo, hi) = true ->
  round64 lo <= random2R round64 r lo hi <= round64 hi.
Proof.
  intros [R0 R1] C. unfold closedIn64 in C. cbn [fst snd] in C.
  apply andb_true_iff in C. destruct C as [C1 C2].
  apply Qle_bool_iff in C1, C2. unfold random2R.
  set (l := round64 lo) in *. set (h := round64 hi) in *.
  assert (D0 : 0 <= round64 (h - l)).
  { change 0 with (round64 0). apply round64_mono. lra. }
  assert (P0 : 0 <= round64 (r * round64 (h - l))).
  { change 0 with (round64 0). apply round64_mono. nra. }
  assert (P1 : round64 (r * round64 (h - l)) <= round64 (h - l)).
  { rewrite <- (round64_idem (h - l)) at 2. apply round64_mono. nra. }
  split.
  - unfold l at 1. rewrite <- (round64_idem lo). fold l.
    apply round64_mono. lra.
  - apply (Qle_trans _ (round64 (round64 (h - l) + l))); [|exact C2].
    apply round64_mono. lra.
Qed.

Example spawn_ranges_closed : forallb closedIn64 spawnRanges = true.
Proof. vm_compute. reflexivity. Qed.

(** With the rounding of binary64 a draw next to 1 gives the upper end of
    the range itself, which the exact [random2] only approaches: the ranges
    of a spawned particle are closed. *)
Example random64_reaches_top :
  random64 0x1.fffffffffffffp-1%float 7%float 12%float = 12%float /\
  random64 0x1.fffffffffffffp-1%float 1.5%float 3.5%float = 3.5%float /\
  random64 0x1.fffffffffffffp-1%float 1%float 3%float = 3%float.
Proof. repeat split; reflexivity. Qed.

(** X9.  With draws in [[0, 1)], a particle spawned on screen is put at the
    place asked for and starts falling at a speed between 1.5 and 3.5; it
    rests within the bottom 15 units of the canvas, has a size between 7
    and 12, full life, no acceleration, and is a pink flower or a green
    leaf, never a mix; its sway, spin and flip lie in the ranges of their
    draws; the spawn takes 12 draws.  The ranges are closed: the upper end
    is not reached in exact arithmetic and can be on binary64
    ([random64_reaches_top]), which never leaves them ([random2R_range]). *)
Theorem spawned_particle_ranges (rnd : nat -> Q) (E : Env)
    (currentWind px py : Q) (particles : list Particles.Particle) (k : nat) :
  (forall i, 0 <= rnd i < 1) ->
  Particles.offScreen E px py = false ->
  exists part,
    Particles.spawnFallingParticle rnd E currentWind px py particles k
    = (particles ++ [part], (k + 12)%nat) /\
    Particles.pos part = createVector px py /\
    1.5 <= y (Particles.vel part) <= 3.5 /\
    Particles.acc part = createVector 0 0 /\
    height E - 15 <= Particles.groundY part <= height E /\
    7 <= Particles.size part <= 12 /\
    Particles.life part = 255 /\
    Particles.isGrounded part = false /\
    ((Particles.type part = Particles.flower /\
      Particles.color part = COL_FLOWER_PINK) \/
     (Particles.type part = Particles.leaf /\
      Particles.color part = COL_LEAF_TENDER)) /\
    0.02 <= Particles.swayAmp part <= 0.05 /\
    0.05 <= Particles.swayFreq part <= 0.1 /\
    -0.15 <= Particles.angleVel part <= 0.15 /\
    0.05 <= Particles.flipSpeed part <= 0.2.
Proof.
  intros Hrnd Hon.
  unfold Particles.spawnFallingParticle. rewrite Hon.
  unfold bind, random2, random1, rand, ret, bind.
  eexists. split.
  - replace (k + 12)%nat with (S (S (S (S (S (S (S (S (S (S (S (S k))))))))))))
      by lia.
    reflexivity.
  - cbn [Particles.pos Particles.vel Particles.acc Particles.groundY
         Particles.size Particles.life Particles.isGrounded Particles.type
         Particles.color Particles.swayAmp Particles.swayFreq
         Particles.angleVel Particles.flipSpeed x y].
    pose proof (Hrnd (S k)). pose proof (Hrnd (S (S k))).
    pose proof (Hrnd (S (S (S (S k))))).
    pose proof (Hrnd (S (S (S (S (S (S k))))))).
    pose proof (Hrnd (S (S (S (S (S (S (S (S k))))))))).
    pose proof (Hrnd (S (S (S (S (S (S (S (S (S (S k))))))))))).
    pose proof (Hrnd (S (S (S (S (S (S (S (S (S (S (S k)))))))))))).
    split; [reflexivity|]. split; [lra|].
    split; [reflexivity|]. split; [lra|]. split; [lra|].
    split; [reflexivity|]. split; [reflexivity|].
    split; [destruct (rnd (S (S (S k))) * 1 >? 0.5); [left | right];
            split; reflexivity|].
    split; [lra|]. split; [lra|]. split; lra.
Qed.

Lemma spawned_particle_ranges_witness :
  exists part,
    Particles.spawnFallingParticle Sample.rnd Sample.env 0 400 100 [] 0%nat
    = ([] ++ [part], (0 + 12)%nat) /\
    1.5 <= y (Particles.vel part) <= 3.5 /\
    height Sample.env - 15 <= Particles.groundY part <= height Sample.env.
Proof.
  destruct (spawned_particle_ranges Sample.rnd Sample.env 0 400 100 [] 0
              sample_rnd_range eq_refl)
    as (part & E & _ & V & _ & G & _).
  exists part. split; [exact E|]. split; [exact V | exact G].
Defined.

(** ** Falling *)

Lemma advance_y (E : Env) (w : Q) (part : Particles.Particle) :
  y (Particles.vel (Particles.advance E w part))
  = (y (Particles.vel part) + 0.1) * 0.94 /\
  y (Particles.pos (Particles.advance E w part))
  = y (Particles.pos part) + (y (Particles.vel part) + 0.1) * 0.94.
Proof. split; reflexivity. Qed.

Lemma landing_within (frames : list (Env * Q)) :
  forall part : Particles.Particle,
  frames <> [] ->
  Particles.isGrounded part = false ->
  1.5 <= y (Particles.vel part) ->
  Particles.groundY part - y (Particles.pos part)
  <= 1.5 * inject_Z (Z.of_nat (length frames)) ->
  Particles.isGrounded (Particles.afterFrames frames part) = true.
Proof.
  induction frames as [|[E w] frames IH]; intros part Hne Hfall Hv Hd;
    [congruence|].
  cbn [Particles.afterFrames].
  destruct (advance_y E w part) as [Ev Ey].
  unfold Particles.stepParticle. rewrite Hfall. cbn [negb].
  change (Particles.groundY (Particles.advance E w part))
    with (Particles.groundY part).
  destruct (Qle_bool (Particles.groundY part)
              (y (Particles.pos (Particles.advance E w part)))) eqn:L.
  - rewrite afterFrames_grounded; reflexivity.
  - apply Qle_bool_false_iff in L. rewrite Ey in L.
    assert (Hlen : inject_Z (Z.of_nat (length ((E, w) :: frames)))
                   == 1 + inject_Z (Z.of_nat (length frames))).
    { cbn [length]. rewrite Nat2Z.inj_succ, <- Z.add_1_l, inject_Z_plus.
      reflexivity. }
    rewrite Hlen in Hd.
    destruct frames as [|f frames'].
    + cbn [length Z.of_nat] in Hd. exfalso.
      assert (Z0 : inject_Z 0 == 0) by reflexivity. rewrite Z0 in Hd. lra.
    + apply IH; [discriminate | exact Hfall | rewrite Ev; lra |].
      change (Particles.groundY (Particles.advance E w part))
        with (Particles.groundY part).
      rewrite Ey. lra.
Qed.

(** Where a particle that landed is. *)
Lemma landed_state (frames : list (Env * Q)) :
  forall part : Particles.Particle,
  Particles.isGrounded part = false ->
  Particles.isGrounded (Particles.afterFrames frames part) = true ->
  y (Particles.pos (Particles.afterFrames frames part)) = Particles.groundY part /\
  Particles.vel (Particles.afterFrames frames part) = createVector 0 0.
Proof.
  induction frames as [|[E w] frames IH]; intros part Hfall Hg;
    [simpl in Hg; congruence|].
  cbn [Particles.afterFrames] in *.
  destruct (Particles.isGrounded (Particles.stepParticle E w part)) eqn:G.
  - rewrite (afterFrames_grounded frames _ G).
    unfold Particles.stepParticle in *. rewrite Hfall in *. cbn [negb] in *.
    destruct (Qle_bool _ _); [split; reflexivity|].
    simpl in G. congruence.
  - destruct (IH _ G Hg) as [H1 H2].
    rewrite groundY_stepParticle in H1. split; assumption.
Qed.

(** A run of updates never throws, and what it leaves in the array are
    particles of the array it started from, each one stepped by every
    update of the run. *)
Lemma updatesOver_elements (style : FlowerStyle) (frames : list (Env * Q)) :
  forall particles : list Particles.Particle,
  exists final,
    updatesOver style frames particles = Some final /\
    (length final <= length particles)%nat /\
    Forall (fun landed =>
              exists part, In part particles /\
                           landed = Particles.afterFrames frames part) final.
Proof.
  induction frames as [|[E w] frames IH]; intros particles.
  - exists particles. split; [reflexivity|]. split; [lia|].
    apply Forall_forall. intros q Hq. apply list_elem_of_In in Hq.
    exists q. split; [exact Hq | reflexivity].
  - cbn [updatesOver]. rewrite updateParticles_spec.
    destruct (IH (Particles.survivors E w
                    (Particles.newest Particles.MAX_PARTICLES particles)))
      as (final & Ef & Lf & Hf).
    exists final. split; [exact Ef|]. split.
    + etransitivity; [exact Lf|].
      etransitivity; [apply length_survivors|].
      rewrite length_newest. lia.
    + eapply Forall_impl; [exact Hf|].
      intros q (p & Hp & ->). cbn beta.
      unfold Particles.survivors in Hp.
      apply List.filter_In in Hp. destruct Hp as [Hp _].
      apply List.in_map_iff in Hp. destruct Hp as (p0 & <- & Hp0).
      exists p0. split; [|reflexivity].
      unfold Particles.newest in Hp0.
      rewrite <- (take_drop (length particles - Particles.MAX_PARTICLES)
                            particles).
      apply List.in_or_app. right. exact Hp0.
Qed.

(** X10.  No particle hangs in the air.  When every particle of the array
    is falling at 1.5 or more per update, as every spawned particle is (and
    the update keeps it so), then after [n] updates in a row, whatever the
    wind, the noise, the sway and the style of each, every particle that is
    still in the array (the updates retire those that leave the horizontal
    margin and evict the oldest beyond 300) is grounded at its resting
    height with zero velocity, as soon as [1.5 * n] covers the height that
    each had left to fall (and [n] is at least 1). *)
Theorem falling_particle_lands (style : FlowerStyle) (frames : list (Env * Q))
    (particles : list Particles.Particle) :
  frames <> [] ->
  Forall (fun part =>
            Particles.isGrounded part = false /\
            1.5 <= y (Particles.vel part) /\
            Particles.groundY part - y (Particles.pos part)
            <= 1.5 * inject_Z (Z.of_nat (length frames)))
         particles ->
  exists final,
    updatesOver style frames particles = Some final /\
    (length final <= length particles)%nat /\
    Forall (fun landed =>
              Particles.isGrounded landed = true /\
              y (Particles.pos landed) = Particles.groundY landed /\
              Particles.vel landed = createVector 0 0 /\
              exists part, In part particles /\
                           landed = Particles.afterFrames frames part)
           final.
Proof.
  intros Hne Hall.
  destruct (updatesOver_elements style frames particles)
    as (final & Ef & Lf & Hf).
  exists final. split; [exact Ef|]. split; [exact Lf|].
  eapply Forall_impl; [exact Hf|].
  intros q (p & Hp & ->). cbn beta.
  rewrite Forall_forall in Hall.
  destruct (Hall p ltac:(apply list_elem_of_In; exact Hp)) as (Hfall & Hv & Hd).
  pose proof (landing_within frames p Hne Hfall Hv Hd) as Hg.
  destruct (landed_state frames p Hfall Hg) as [Hy Hvel].
  split; [exact Hg|]. split; [rewrite groundY_afterFrames; exact Hy|].
  split; [exact Hvel|]. exists p. split; [exact Hp | reflexivity].
Qed.

Lemma falling_particle_lands_witness :
  exists final,
    updatesOver peach (repeat (Sample.env, 0) 2)
                [Sample.falling; Sample.falling]
    = Some final /\
    (length final <= 2)%nat /\
    Forall (fun landed =>
              Particles.isGrounded landed = true /\
              y (Particles.pos landed) = Particles.groundY landed /\
              Particles.vel landed = createVector 0 0 /\
              exists part,
                In part [Sample.falling; Sample.falling] /\
                landed
                = Particles.afterFrames (repeat (Sample.env, 0) 2) part)
           final /\
    length final = 2%nat.
Proof.
  destruct (falling_particle_lands peach (repeat (Sample.env, 0) 2)
              [Sample.falling; Sample.falling]) as (final & E & L & F).
  - discriminate.
  - repeat constructor; vm_compute; discriminate.
  - exists final. split; [exact E|]. split; [exact L|]. split; [exact F|].
    assert (C : option_map (@length _)
                  (updatesOver peach (repeat (Sample.env, 0) 2)
                               [Sample.falling; Sample.falling])
                = Some 2%nat) by (vm_compute; reflexivity).
    rewrite E in C. injection C as C. exact C.
Defined.

(** X11.  A grounded particle within the horizontal margin is never retired
    by an update: as long as it is among the 300 newest it stays in the
    store, unchanged; only the eviction of the oldest can remove it. *)
Theorem grounded_particle_stays (E : Env) (windForce : Q) (style : FlowerStyle)
    (particles : list Particles.Particle) (part : Particles.Particle) :
  In part (Particles.newest Particles.MAX_PARTICLES particles) ->
  Particles.isGrounded part = true ->
  Particles.outOfBounds E part = false ->
  exists kept drawn,
    Particles.updateParticles E windForce style particles = Some (kept, drawn) /\
    In part kept.
Proof.
  intros Hin Hg Hb.
  eexists _, _. split; [apply updateParticles_spec|].
  unfold Particles.survivors. apply List.filter_In. split.
  - apply List.in_map_iff. exists part.
    split; [apply stepParticle_grounded, Hg | exact Hin].
  - rewrite Hb. reflexivity.
Qed.

Lemma grounded_particle_stays_witness :
  exists kept drawn,
    Particles.updateParticles Sample.env 0 peach
      [Particles.stepParticle Sample.env 0 Sample.falling]
    = Some (kept, drawn) /\
    In (Particles.stepParticle Sample.env 0 Sample.falling) kept.
Proof.
  apply (grounded_particle_stays Sample.env 0 peach
           [Particles.stepParticle Sample.env 0 Sample.falling]
           (Particles.stepParticle Sample.env 0 Sample.falling)).
  - left. reflexivity.
  - vm_compute. reflexivity.
  - vm_compute. reflexivity.
Defined.

(* ================================================================= *)
(** * Part V: the mood-only variant *)
(* ================================================================= *)

(** ** Its particle store *)

Section MoodStoreFacts.
Import MoodFrame.
Variable E : Env.
Variable windForce : Q.

Lemma mood_survivors_snoc (pre : list MoodParticles.Particle)
    (a : MoodParticles.Particle) :
  survivors E windForce (pre ++ [a])
  = survivors E windForce pre
    ++ (if expired E (stepParticle E windForce a) then []
        else [stepParticle E windForce a]).
Proof.
  unfold survivors. rewrite map_app, List.filter_app. simpl.
  destruct (expired E (stepParticle E windForce a)); reflexivity.
Qed.

Lemma mood_drawnCalls_snoc (pre : list MoodParticles.Particle)
    (a : MoodParticles.Particle) :
  drawnCalls E windForce (pre ++ [a])
  = renderParticle E (stepParticle E windForce a)
    ++ drawnCalls E windForce pre.
Proof.
  unfold drawnCalls. rewrite map_app, rev_app_distr. reflexivity.
Qed.

Lemma mood_updateLoop_spec (pre : list MoodParticles.Particle) :
  forall (post : list MoodParticles.Particle) (drawn : list DrawOp),
  updateLoop E windForce (length pre) (pre ++ post) drawn
  = Some (survivors E windForce pre ++ post,
          drawn ++ drawnCalls E windForce pre).
Proof.
  induction pre as [|a pre IH] using rev_ind; intros post drawn.
  - simpl. rewrite app_nil_r. reflexivity.
  - rewrite length_app, Nat.add_1_r, <- app_assoc. cbn [updateLoop app].
    rewrite (list_lookup_middle pre post a (length pre) eq_refl).
    rewrite (insert_app_r_alt pre (a :: post) (length pre)) by lia.
    rewrite Nat.sub_diag. cbn [list_insert insert].
    rewrite mood_survivors_snoc, mood_drawnCalls_snoc.
    destruct (expired E (stepParticle E windForce a)).
    + rewrite splice_middle, IH, app_nil_r, <- app_assoc. reflexivity.
    + rewrite IH, <- !app_assoc. reflexivity.
Qed.

Lemma mood_updateParticles_spec (particles : list MoodParticles.Particle) :
  updateParticles E windForce particles
  = Some (survivors E windForce particles, drawnCalls E windForce particles).
Proof.
  unfold updateParticles.
  pose proof (mood_updateLoop_spec particles [] []) as H.
  rewrite !app_nil_r in H. exact H.
Qed.

Lemma mood_life_step (part : MoodParticles.Particle) :
  MoodParticles.life (stepParticle E windForce part)
  <= MoodParticles.life part - 1.6.
Proof.
  unfold stepParticle. cbn [MoodParticles.life].
  destruct (MoodParticles.isDead part); lra.
Qed.

Lemma mood_survivors_life (bound : Q) (particles : list MoodParticles.Particle) :
  Forall (fun part => MoodParticles.life part <= bound) particles ->
  Forall (fun part => MoodParticles.life part <= bound - 1.6)
         (survivors E windForce particles).
Proof.
  intros H. unfold survivors.
  apply Forall_forall. intros part Hin. apply list_elem_of_In in Hin.
  apply List.filter_In in Hin. destruct Hin as [Hin _].
  apply List.in_map_iff in Hin. destruct Hin as (p0 & <- & Hp0).
  rewrite Forall_forall in H. apply list_elem_of_In in Hp0.
  specialize (H p0 Hp0). pose proof (mood_life_step p0). lra.
Qed.

Lemma mood_survivors_spent (particles : list MoodParticles.Particle) :
  Forall (fun part => MoodParticles.life part <= 1.6) particles ->
  survivors E windForce particles = [].
Proof.
  intros H. unfold survivors.
  induction H as [|a l Ha _ IH]; simpl; [reflexivity|].
  assert (X : expired E (stepParticle E windForce a) = true).
  { unfold expired. apply orb_true_iff. left. apply Qle_bool_iff.
    pose proof (mood_life_step a). lra. }
  rewrite X. simpl. exact IH.
Qed.

End MoodStoreFacts.

Lemma mood_updates_life (frames : list (Env * Q)) :
  forall (bound : Q) (particles : list MoodParticles.Particle),
  Forall (fun part => MoodParticles.life part <= bound) particles ->
  exists left,
    MoodFrame.updates frames particles = Some left /\
    Forall (fun part =>
              MoodParticles.life part
              <= bound - 1.6 * inject_Z (Z.of_nat (length frames))) left /\
    (length left <= length particles)%nat.
Proof.
  induction frames as [|[E w] frames IH]; intros bound particles H.
  - exists particles. split; [reflexivity|]. split; [|lia].
    eapply Forall_impl; [exact H|]. intros p Hp. cbn in *.
    assert (Z0 : inject_Z 0 == 0) by reflexivity. rewrite Z0. lra.
  - cbn [MoodFrame.updates]. rewrite mood_updateParticles_spec.
    destruct (IH (bound - 1.6) _ (mood_survivors_life E w bound particles H))
      as (left & El & Hl & Ll).
    exists left. split; [exact El|]. split.
    + eapply Forall_impl; [exact Hl|]. intros p Hp. cbn beta in *.
      assert (Hlen : inject_Z (Z.of_nat (length ((E, w) :: frames)))
                     == 1 + inject_Z (Z.of_nat (length frames))).
      { cbn [length]. rewrite Nat2Z.inj_succ, <- Z.add_1_l, inject_Z_plus.
        reflexivity. }
      rewrite Hlen. lra.
    + etransitivity; [exact Ll|].
      unfold MoodFrame.survivors.
      etransitivity; [apply List.filter_length_le|]. rewrite length_map. lia.
Qed.

(** X12.  In the mood-only variant an update never evicts and never
    throws: it keeps, in their order, exactly the stepped particles whose
    life is still positive and that have not fallen more than 50 below the
    canvas, whatever the size of the store, and draws every particle it
    stepped, the last one first. *)
Theorem mood_update_keeps_the_living (E : Env) (windForce : Q)
    (particles : list MoodParticles.Particle) :
  MoodFrame.updateParticles E windForce particles
  = Some (List.filter
            (fun part =>
               negb ((MoodParticles.life part <=? 0)
                     || (y (MoodParticles.pos part) >? height E + 50)))
            (map (MoodFrame.stepParticle E windForce) particles),
          flat_map (MoodFrame.renderParticle E)
            (rev (map (MoodFrame.stepParticle E windForce) particles))).
Proof. apply mood_updateParticles_spec. Qed.

(** X13.  In the mood-only variant a store that is left alone empties: with
    no particle of more than full life (255), 160 updates in a row,
    whatever the surroundings and the wind of each, leave no particle. *)
Theorem mood_store_empties (frames : list (Env * Q))
    (particles : list MoodParticles.Particle) :
  length frames = 160%nat ->
  Forall (fun part => MoodParticles.life part <= 255) particles ->
  MoodFrame.updates frames particles = Some [].
Proof.
  intros Hlen Hlife.
  assert (Hne : frames <> []) by (intros ->; discriminate Hlen).
  destruct (List.exists_last Hne) as (most & [E w] & ->).
  rewrite length_app in Hlen. cbn [length] in Hlen.
  destruct (mood_updates_life most 255 particles Hlife) as (left & El & Hl & _).
  assert (Hrun : forall fs ps qs,
            MoodFrame.updates fs ps = Some qs ->
            MoodFrame.updates (fs ++ [(E, w)]) ps
            = MoodFrame.updates [(E, w)] qs).
  { induction fs as [|[E1 w1] fs IHfs]; intros ps qs Hq.
    - injection Hq as <-. reflexivity.
    - cbn [MoodFrame.updates app] in *.
      rewrite mood_updateParticles_spec in *. apply IHfs, Hq. }
  rewrite (Hrun most particles left El).
  cbn [MoodFrame.updates]. rewrite mood_updateParticles_spec.
  rewrite mood_survivors_spent; [reflexivity|].
  eapply Forall_impl; [exact Hl|]. intros p Hp. cbn beta in Hp.
  replace (length most) with 159%nat in Hp by lia.
  assert (Z159 : inject_Z (Z.of_nat 159) == 159) by reflexivity.
  rewrite Z159 in Hp. lra.
Qed.

Lemma mood_store_empties_witness :
  MoodFrame.updates (repeat (Sample.env, 0) 160) sampleDeadLeaves = Some [].
Proof.
  apply (mood_store_empties (repeat (Sample.env, 0) 160) sampleDeadLeaves).
  - reflexivity.
  - vm_compute. repeat constructor. discriminate.
Defined.

(** ** Its tree *)

Lemma wither_map (m : Q) :
  map_range m (-0.2) (-1) 0 1 == (m + 0.2) * -1.25.
Proof. unfold map_range. field. Qed.

Lemma witherFactor_high (m : Q) :
  (map_clamped m (-0.2) (-1) 0 1 >? 0.05) = true -> m < -0.24.
Proof.
  rewrite Qlt_bool_iff.
  unfold map_clamped. change (0 <? 1) with true. cbv iota.
  pose proof (wither_map m) as E.
  unfold constrain, min. case_cmp; unfold max; case_cmp; lra.
Qed.

Lemma bloomFactor_high (m : Q) :
  (map_clamped m 0 1 0 1 >? 0.5) = true -> 0.5 < m.
Proof.
  rewrite Qlt_bool_iff.
  unfold map_clamped. change (0 <? 1) with true. cbv iota.
  pose proof (map_range_unit m) as E.
  unfold constrain, min. case_cmp; unfold max; case_cmp; lra.
Qed.

Section MoodTreeFacts.
Import Skeleton MoodFrame.
Variable T : Stage.
Variable currentMood : Q.
Variable currentWind : Q.

Lemma mood_grown_refl (dead : bool) (s : MoodLive) : grown dead 0 s s.
Proof.
  exists []. rewrite app_nil_r. split; [reflexivity|].
  split; [simpl; lia | constructor].
Qed.

Lemma mood_grown_trans (dead : bool) (n m : nat) (s1 s2 s3 : MoodLive) :
  grown dead n s1 s2 -> grown dead m s2 s3 -> grown dead (n + m) s1 s3.
Proof.
  intros (a & Ea & La & Fa) (b & Eb & Lb & Fb). exists (a ++ b).
  rewrite Eb, Ea, <- app_assoc, length_app.
  split; [reflexivity|]. split; [lia | apply Forall_app; split; assumption].
Qed.

Lemma mood_grown_mono (dead : bool) (n m : nat) (s s' : MoodLive) :
  (n <= m)%nat -> grown dead n s s' -> grown dead m s s'.
Proof.
  intros L (a & Ea & La & Fa). exists a.
  split; [exact Ea|]. split; [lia | exact Fa].
Qed.

Lemma mood_grown_now (dead : bool) (s : MoodLive) :
  grown dead 0 s (snd (now T s)).
Proof.
  exists []. simpl. rewrite app_nil_r.
  split; [reflexivity|]. split; [lia | constructor].
Qed.

Lemma mood_grown_spawn (px py : Q) (dead : bool) (s : MoodLive) :
  grown dead 1 s (spawn T currentWind px py dead s).
Proof.
  unfold spawn, MoodParticles.spawnFallingParticle.
  destruct (MoodParticles.offScreen (env T) px py).
  - exists []. simpl. rewrite app_nil_r.
    split; [reflexivity|]. split; [lia | constructor].
  - destruct dead; (eexists [_]; split; [reflexivity|];
                    split; [simpl; lia | repeat constructor]).
Qed.

Lemma mood_grown_shed (spawnNoise tipX tipY : Q) (s : MoodLive) :
  grown (currentMood <? -0.24) (spawnsPerBranch currentMood) s
        (shed T currentWind (map_clamped currentMood (-0.2) (-1) 0 1)
              (map_clamped currentMood 0 1 0 1) spawnNoise tipX tipY s).
Proof.
  unfold shed, spawnsPerBranch.
  pose proof (witherFactor_high currentMood) as Hw.
  pose proof (bloomFactor_high currentMood) as Hb.
  destruct (map_clamped currentMood (-0.2) (-1) 0 1 >? 0.05);
    destruct (map_clamped currentMood 0 1 0 1 >? 0.5).
  - specialize (Hw eq_refl). specialize (Hb eq_refl). lra.
  - specialize (Hw eq_refl).
    assert (L : (currentMood <? -0.24) = true) by (apply Qlt_bool_iff, Hw).
    rewrite L. cbn [orb].
    destruct ((spawnNoise >? 0.3) && _);
      [apply mood_grown_spawn
      | apply (mood_grown_mono true 0 1); [lia | apply mood_grown_refl]].
  - specialize (Hb eq_refl).
    assert (L : (currentMood <? -0.24) = false)
      by (apply Qlt_bool_false_iff; lra).
    assert (L' : (currentMood >? 0.5) = true) by (apply Qlt_bool_iff, Hb).
    rewrite L, L'. cbn [orb].
    destruct (rem _ _ <? 0.005);
      [apply mood_grown_spawn
      | apply (mood_grown_mono false 0 1); [lia | apply mood_grown_refl]].
  - apply (mood_grown_mono _ 0); [lia | apply mood_grown_refl].
Qed.

Lemma mood_grown_foliage (branch : Branch) (windAngle tipX tipY : Q)
    (s : MoodLive) :
  grown (currentMood <? -0.24) (spawnsPerBranch currentMood) s
        (snd (foliage T currentWind branch windAngle
                      (map_clamped currentMood 0 1 0 1)
                      (map_clamped currentMood (-0.2) (-1) 0 1) tipX tipY s)).
Proof.
  unfold foliage.
  assert (H1 : grown (currentMood <? -0.24) 0 s
            (snd (if map_clamped currentMood 0 1 0 1 >? noiseThreshold branch
                  then drawAttachedFoliage T windAngle (hasFlower branch)
                         (map_clamped currentMood 0 1 0 1) s
                  else ([], s)))).
  { destruct (map_clamped currentMood 0 1 0 1 >? noiseThreshold branch);
      [apply mood_grown_now | apply mood_grown_refl]. }
  destruct (if map_clamped currentMood 0 1 0 1 >? noiseThreshold branch
            then _ else _) as [leaves s1]. cbn [snd] in H1.
  pose proof (mood_grown_now (currentMood <? -0.24) s1) as H2.
  destruct (now T s1) as [time s2]. cbn [snd] in *.
  apply (mood_grown_trans _ 0 _ s s1); [exact H1|].
  apply (mood_grown_trans _ 0 _ s1 s2); [exact H2|].
  apply mood_grown_shed.
Qed.

Lemma mood_grown_renderChildren
    (render : Branch -> Q -> Q -> MoodLive -> list Call * MoodLive)
    (dead : bool) (per : nat) (localWind cumAngle : Q) (kids : list Branch) :
  Forall (fun c => forall (a1 a2 : Q) (s : MoodLive),
            grown dead (per * length (List.filter Frame.outer (nodes c))) s
                  (snd (render c a1 a2 s))) kids ->
  forall s,
    grown dead (per * length (List.filter Frame.outer (flat_map nodes kids))) s
          (snd (renderChildren render localWind cumAngle kids s)).
Proof.
  induction 1 as [|c kids Hc _ IH]; intros s; simpl.
  - rewrite Nat.mul_0_r. apply mood_grown_refl.
  - specialize (Hc (angleOffset c + localWind)
                   (cumAngle + (angleOffset c + localWind)) s).
    destruct (render c _ _ s) as [drawn s1]. specialize (IH s1).
    destruct (renderChildren render localWind cumAngle kids s1) as [others s2].
    cbn [snd] in *.
    rewrite List.filter_app, length_app, Nat.mul_add_distr_l.
    apply (mood_grown_trans _ _ _ s s1 s2 Hc IH).
Qed.

Lemma mood_renderBranch_unfold (branch : Branch)
    (len thick windAngle x y cumAngle : Q) (s : MoodLive) :
  renderBranch T currentMood currentWind branch len thick windAngle x y cumAngle s
  = let bloomFactor := map_clamped currentMood 0 1 0 1 in
    let witherFactor := map_clamped currentMood (-0.2) (-1) 0 1 in
    let warm :=
      lerpColor (solid COL_TRUNK_DORMANT) (solid COL_TRUNK_THRIVE) bloomFactor in
    let segment :=
      [ stroke (if witherFactor >? 0
                then lerpColor warm (rgb 20 18 16) (witherFactor * 0.7)
                else warm);
        strokeWeight thick; strokeCapRound; line 0 0 0 (- len) ] in
    let tipX := x + sin (env T) cumAngle * len in
    let tipY := y - cos (env T) cumAngle * len in
    let moved := [ shape (translate 0 (- len)) ] in
    let '(leaves, s1) :=
      if Frame.outer branch
      then foliage T currentWind branch windAngle bloomFactor witherFactor
                   tipX tipY s
      else ([], s) in
    if (MAX_DEPTH <=? depth branch)%nat || (len <? 4)
    then (segment ++ moved ++ leaves, s1)
    else
      let '(below, s2) :=
        renderChildren
          (fun child nextAngle angle s' =>
             renderBranch T currentMood currentWind child (len * lenMult child)
                          (thick * 0.7) windAngle tipX tipY angle s')
          (windAngle
           * map_range (ofNat (depth branch)) 0 (ofNat MAX_DEPTH) 0.05 1.3)
          cumAngle (children branch) s1 in
      (segment ++ moved ++ leaves ++ below, s2).
Proof. destruct branch; reflexivity. Qed.

Lemma mood_grown_renderBranch (branch : Branch) :
  forall (len thick windAngle x y cumAngle : Q) (s : MoodLive),
  grown (currentMood <? -0.24)
        (spawnsPerBranch currentMood
         * length (List.filter Frame.outer (nodes branch))) s
        (snd (renderBranch T currentMood currentWind branch len thick
                           windAngle x y cumAngle s)).
Proof.
  induction branch as [branch IH] using Branch_induction.
  intros len thick windAngle x y cumAngle s.
  rewrite mood_renderBranch_unfold, nodes_unfold. cbv zeta.
  cbn [List.filter].
  pose proof (mood_grown_foliage branch windAngle
                (x + sin (env T) cumAngle * len) (y - cos (env T) cumAngle * len)
                s) as Hf.
  assert (H1 : grown (currentMood <? -0.24)
                 (spawnsPerBranch currentMood
                  * (if Frame.outer branch then 1 else 0)) s
            (snd (if Frame.outer branch
                  then foliage T currentWind branch windAngle
                               (map_clamped currentMood 0 1 0 1)
                               (map_clamped currentMood (-0.2) (-1) 0 1)
                               (x + sin (env T) cumAngle * len)
                               (y - cos (env T) cumAngle * len) s
                  else ([], s)))).
  { destruct (Frame.outer branch).
    - rewrite Nat.mul_1_r. exact Hf.
    - rewrite Nat.mul_0_r. apply mood_grown_refl. }
  clear Hf.
  destruct (if Frame.outer branch then foliage _ _ _ _ _ _ _ _ _ else _)
    as [leaves s1]. cbn [snd] in H1.
  assert (E : length (if Frame.outer branch
                      then branch :: List.filter Frame.outer
                                       (flat_map nodes (children branch))
                      else List.filter Frame.outer
                             (flat_map nodes (children branch)))
              = ((if Frame.outer branch then 1 else 0)
                 + length (List.filter Frame.outer
                             (flat_map nodes (children branch))))%nat).
  { destruct (Frame.outer branch); reflexivity. }
  rewrite E, Nat.mul_add_distr_l. clear E.
  destruct ((MAX_DEPTH <=? depth branch)%nat || (len <? 4)).
  - cbn [snd]. eapply mood_grown_mono; [|exact H1]. lia.
  - pose proof (mood_grown_renderChildren
                  (fun child nextAngle angle s' =>
                     renderBranch T currentMood currentWind child
                       (len * lenMult child) (thick * 0.7) windAngle
                       (x + sin (env T) cumAngle * len)
                       (y - cos (env T) cumAngle * len) angle s')
                  (currentMood <? -0.24) (spawnsPerBranch currentMood)
                  (windAngle * map_range (ofNat (depth branch)) 0
                                         (ofNat MAX_DEPTH) 0.05 1.3)
                  cumAngle (children branch)) as Hk.
    specialize (Hk ltac:(eapply Forall_impl; [exact IH|]; intros c Hc a1 a2 s';
                         apply Hc) s1).
    destruct (renderChildren _ _ _ (children branch) s1) as [below s2].
    cbn [snd] in *.
    apply (mood_grown_trans _ _ _ s s1 s2 H1 Hk).
Qed.

End MoodTreeFacts.

(** ** Its transform stack *)

Section MoodStackFacts.
Import Skeleton MoodFrame.
Variable T : Stage.
Variable currentMood : Q.
Variable currentWind : Q.

Lemma mood_balanced_renderParticle (E : Env) (part : MoodParticles.Particle) :
  balanced (map shape (renderParticle E part)).
Proof. intros d. reflexivity. Qed.

Lemma mood_balanced_drawAttachedFoliage (windAngle : Q) (flowered : bool)
    (bloomFactor : Q) (s : MoodLive) :
  balanced (fst (drawAttachedFoliage T windAngle flowered bloomFactor s)).
Proof.
  unfold drawAttachedFoliage, now. cbn [fst].
  apply balanced_app; [intros d; reflexivity|].
  destruct (flowered && _); [intros d; reflexivity | apply balanced_nil].
Qed.

Lemma mood_balanced_foliage (branch : Branch)
    (windAngle bloomFactor witherFactor tipX tipY : Q) (s : MoodLive) :
  balanced (fst (foliage T currentWind branch windAngle bloomFactor witherFactor
                         tipX tipY s)).
Proof.
  unfold foliage.
  destruct (bloomFactor >? noiseThreshold branch).
  - pose proof (mood_balanced_drawAttachedFoliage windAngle (hasFlower branch)
                  bloomFactor s) as H.
    destruct (drawAttachedFoliage T windAngle (hasFlower branch) bloomFactor s)
      as [leaves s1].
    exact H.
  - apply balanced_nil.
Qed.

Lemma mood_balanced_renderChildren
    (render : Branch -> Q -> Q -> MoodLive -> list Call * MoodLive)
    (localWind cumAngle : Q) (kids : list Branch) :
  Forall (fun c => forall a1 a2 s, balanced (fst (render c a1 a2 s))) kids ->
  forall s, balanced (fst (renderChildren render localWind cumAngle kids s)).
Proof.
  induction 1 as [|c kids Hc _ IH]; intros s; simpl; [apply balanced_nil|].
  specialize (Hc (angleOffset c + localWind)
                 (cumAngle + (angleOffset c + localWind)) s).
  destruct (render c _ _ s) as [drawn s1]. specialize (IH s1).
  destruct (renderChildren render localWind cumAngle kids s1) as [others s2].
  cbn [fst] in *.
  intros d. cbn [map app stackAfter].
  rewrite stackAfter_app, Hc. cbn [stackAfter]. apply IH.
Qed.

Lemma mood_balanced_renderBranch (branch : Branch) :
  forall (len thick windAngle x y cumAngle : Q) (s : MoodLive),
  balanced (fst (renderBranch T currentMood currentWind branch len thick
                              windAngle x y cumAngle s)).
Proof.
  induction branch as [branch IH] using Branch_induction.
  intros len thick windAngle x y cumAngle s.
  rewrite mood_renderBranch_unfold. cbv zeta.
  assert (Hf : balanced
            (fst (if Frame.outer branch
                  then foliage T currentWind branch windAngle
                               (map_clamped currentMood 0 1 0 1)
                               (map_clamped currentMood (-0.2) (-1) 0 1)
                               (x + sin (env T) cumAngle * len)
                               (y - cos (env T) cumAngle * len) s
                  else ([], s)))).
  { destruct (Frame.outer branch);
      [apply mood_balanced_foliage | apply balanced_nil]. }
  destruct (if Frame.outer branch then foliage _ _ _ _ _ _ _ _ _ else _)
    as [leaves s1]. cbn [fst] in Hf.
  destruct ((MAX_DEPTH <=? depth branch)%nat || (len <? 4)).
  - cbn [fst]. apply (balanced_app [_; _; _; _; _]); [intros d; reflexivity|].
    exact Hf.
  - pose proof (mood_balanced_renderChildren
                  (fun child nextAngle angle s' =>
                     renderBranch T currentMood currentWind child
                       (len * lenMult child) (thick * 0.7) windAngle
                       (x + sin (env T) cumAngle * len)
                       (y - cos (env T) cumAngle * len) angle s')
                  (windAngle * map_range (ofNat (depth branch)) 0
                                         (ofNat MAX_DEPTH) 0.05 1.3)
                  cumAngle (children branch)) as Hk.
    specialize (Hk ltac:(eapply Forall_impl; [exact IH|]; intros c Hc a1 a2 s';
                         apply Hc) s1).
    destruct (renderChildren _ _ _ (children branch) s1) as [below s2].
    cbn [fst] in *.
    apply (balanced_app [_; _; _; _; _]); [intros d; reflexivity|].
    apply balanced_app; [exact Hf | exact Hk].
Qed.

End MoodStackFacts.

(** ** Its frame *)

Section MoodDrawFacts.
Import Skeleton MoodFrame.
Variable T : Stage.

(** [p.draw] in one equation. *)
Lemma mood_draw_spec (o : bool) (mood windForce : Q) (k : Sketch) :
  let sig := fst (drawSignals o (signals k) mood windForce) in
  let m := currentMood sig in
  let w := currentWind sig in
  let tree :=
    drawTree T m w (Frame.totalWindAngle T w (millis T (moodTicks (live k))))
             (rootBranch k) (snd (now T (live k))) in
  draw o T mood windForce k
  = Some (mkSketch sig (rootBranch k)
            (mkMoodLive (moodDraws (snd tree)) (moodTicks (snd tree))
               (survivors (env T) w (moodStore (snd tree)))),
          snd (drawSignals o (signals k) mood windForce),
          backdrop m ++ fst tree
          ++ map shape (drawnCalls (env T) w (moodStore (snd tree)))).
Proof.
  cbv zeta. unfold draw.
  destruct (drawSignals o (signals k) mood windForce) as [sig events].
  cbn [fst snd]. unfold now at 1. cbn [fst snd].
  change (mkMoodLive (moodDraws (live k)) (S (moodTicks (live k)))
                     (moodStore (live k)))
    with (snd (now T (live k))).
  destruct (drawTree T _ _ _ (rootBranch k) (snd (now T (live k))))
    as [tree s2].
  rewrite mood_updateParticles_spec. reflexivity.
Qed.

Lemma mood_balanced_drawTree (m w windAngle : Q) (root : option Branch)
    (s : MoodLive) :
  balanced (fst (drawTree T m w windAngle root s)).
Proof.
  unfold drawTree. destruct root as [root|]; [|apply balanced_nil].
  pose proof (mood_balanced_renderBranch T m w root (len root) (thick root)
                windAngle (width (env T) / 2) (height (env T)) 0 s) as H.
  destruct (renderBranch T m w root _ _ _ _ _ _ s) as [drawn s1].
  cbn [fst] in *. cbn [map app].
  apply (balanced_wrap
           [shape (translate (width (env T) / 2) (height (env T)))]);
    [intros d; reflexivity | exact H].
Qed.

Lemma mood_grown_drawTree (m w windAngle : Q) (root : option Branch)
    (s : MoodLive) :
  grown (m <? -0.24) (spawnsPerBranch m * tips root) s
        (snd (drawTree T m w windAngle root s)).
Proof.
  unfold drawTree, tips. destruct root as [root|].
  - pose proof (mood_grown_renderBranch T m w root (len root) (thick root)
                  windAngle (width (env T) / 2) (height (env T)) 0 s) as H.
    destruct (renderBranch T m w root _ _ _ _ _ _ s) as [drawn s1].
    exact H.
  - rewrite Nat.mul_0_r. apply mood_grown_refl.
Qed.

End MoodDrawFacts.

Lemma mood_draw_signals (o : bool) (sig : MoodFrame.Signals)
    (mood windForce : Q) :
  MoodFrame.currentMood (fst (MoodFrame.drawSignals o sig mood windForce))
  = smoothMood (MoodFrame.currentMood sig) mood /\
  MoodFrame.currentWind (fst (MoodFrame.drawSignals o sig mood windForce))
  = smoothWind (MoodFrame.currentWind sig) windForce.
Proof.
  unfold MoodFrame.drawSignals.
  destruct (MoodDetector.eventLogic _ _ _); split; reflexivity.
Qed.

(** X14.  A frame of the mood-only variant never throws, keeps the tree,
    and never sheds dead leaves and petals together: with [m] the smoothed
    mood, what the tree pushes is dead leaves only when [m < -0.24], live
    petals only when [m > 0.5] and nothing in between, one particle for
    each branch of the four outer levels at most; the store afterwards is
    what the update keeps of the old particles followed by the new ones,
    none being evicted for room. *)
Theorem mood_frame_sheds_one_kind (o : bool) (T : Stage) (mood windForce : Q)
    (k : MoodFrame.Sketch) :
  let m := smoothMood (MoodFrame.currentMood (MoodFrame.signals k)) mood in
  let w := smoothWind (MoodFrame.currentWind (MoodFrame.signals k)) windForce in
  exists k' events calls new,
    MoodFrame.draw o T mood windForce k = Some (k', events, calls) /\
    MoodFrame.rootBranch k' = MoodFrame.rootBranch k /\
    (length new
     <= (if ((m <? -0.24) || (m >? 0.5))%Q then 1 else 0)
        * MoodFrame.tips (MoodFrame.rootBranch k))%nat /\
    Forall (fun part => MoodParticles.isDead part = (m <? -0.24)) new /\
    moodStore (MoodFrame.live k')
    = MoodFrame.survivors (env T) w
        (moodStore (MoodFrame.live k) ++ new).
Proof.
  cbv zeta.
  pose proof (mood_draw_spec T o mood windForce k) as Hdraw.
  cbv zeta in Hdraw.
  destruct (mood_draw_signals o (MoodFrame.signals k) mood windForce)
    as [Em Ew].
  rewrite Em, Ew in Hdraw.
  match type of Hdraw with
  | context [MoodFrame.drawTree T ?m ?w ?a ?r ?s] =>
      destruct (mood_grown_drawTree T m w a r s) as (new & Enew & Lnew & Fnew)
  end.
  eexists _, _, _, new. split; [exact Hdraw|].
  split; [reflexivity|]. split; [exact Lnew|]. split; [exact Fnew|].
  cbn [MoodFrame.live moodStore]. rewrite Enew. reflexivity.
Qed.

(** X15.  The calls of a frame of the mood-only variant are balanced: every
    [pop] closes a [push] of the same frame and the transform stack ends
    the frame at the depth it started from, whatever the tree and the
    particles. *)
Theorem mood_frame_calls_balanced (o : bool) (T : Stage) (mood windForce : Q)
    (k : MoodFrame.Sketch) :
  exists k' events calls,
    MoodFrame.draw o T mood windForce k = Some (k', events, calls) /\
    balanced calls.
Proof.
  eexists _, _, _. split; [apply mood_draw_spec|].
  apply balanced_app; [intros d; reflexivity|].
  apply balanced_app; [apply mood_balanced_drawTree|].
  unfold MoodFrame.drawnCalls.
  apply balanced_flat_map. intros part. apply mood_balanced_renderParticle.
Qed.

(** ** Frames in the quiet band *)

Lemma smoothMood_between (lo hi cur target : Q) :
  lo <= cur <= hi -> lo <= target <= hi ->
  lo <= smoothMood cur target <= hi.
Proof. unfold smoothMood, lerp. intros [? ?] [? ?]. split; lra. Qed.

Lemma mood_survivors_positive (E : Env) (w : Q)
    (particles : list MoodParticles.Particle) :
  Forall (fun part => 0 < MoodParticles.life part)
         (MoodFrame.survivors E w particles).
Proof.
  unfold MoodFrame.survivors.
  apply Forall_forall. intros part Hin. apply list_elem_of_In in Hin.
  apply List.filter_In in Hin. destruct Hin as [_ Hlive].
  apply negb_true_iff, orb_false_iff in Hlive. destruct Hlive as [Hlife _].
  apply Qle_bool_false_iff in Hlife. exact Hlife.
Qed.

Lemma mood_quiet_frame (o : bool) (T : Stage) (mood windForce : Q)
    (k : MoodFrame.Sketch) :
  -0.24 <= smoothMood (MoodFrame.currentMood (MoodFrame.signals k)) mood <= 0.5 ->
  exists k' events calls,
    MoodFrame.draw o T mood windForce k = Some (k', events, calls) /\
    MoodFrame.currentMood (MoodFrame.signals k')
    = smoothMood (MoodFrame.currentMood (MoodFrame.signals k)) mood /\
    MoodFrame.rootBranch k' = MoodFrame.rootBranch k /\
    moodStore (MoodFrame.live k')
    = MoodFrame.survivors (env T)
        (smoothWind (MoodFrame.currentWind (MoodFrame.signals k)) windForce)
        (moodStore (MoodFrame.live k)).
Proof.
  intros [Hlo Hhi].
  pose proof (mood_draw_spec T o mood windForce k) as Hdraw.
  cbv zeta in Hdraw.
  destruct (mood_draw_signals o (MoodFrame.signals k) mood windForce)
    as [Em Ew].
  rewrite Em, Ew in Hdraw.
  match type of Hdraw with
  | context [MoodFrame.drawTree T ?m ?w ?a ?r ?s] =>
      destruct (mood_grown_drawTree T m w a r s) as (new & Enew & Lnew & _)
  end.
  unfold MoodFrame.spawnsPerBranch in Lnew.
  assert (L1 : (smoothMood (MoodFrame.currentMood (MoodFrame.signals k)) mood
                <? -0.24) = false) by (apply Qlt_bool_false_iff; exact Hlo).
  assert (L2 : (smoothMood (MoodFrame.currentMood (MoodFrame.signals k)) mood
                >? 0.5) = false) by (apply Qlt_bool_false_iff; exact Hhi).
  rewrite L1, L2 in Lnew. cbn [orb] in Lnew.
  destruct new as [|a new]; [|cbn in Lnew; lia].
  rewrite app_nil_r in Enew.
  eexists _, _, _. split; [exact Hdraw|].
  split; [exact Em|]. split; [reflexivity|].
  cbn [MoodFrame.live moodStore]. rewrite Enew. reflexivity.
Qed.

Lemma mood_run_fades (o : bool) (inputs : list (Stage * Q * Q)) :
  forall (bound : Q) (k : MoodFrame.Sketch),
  Forall (fun input => -0.24 <= MoodFrame.moodOf input <= 0.5) inputs ->
  -0.24 <= MoodFrame.currentMood (MoodFrame.signals k) <= 0.5 ->
  Forall (fun part => MoodParticles.life part <= bound)
         (moodStore (MoodFrame.live k)) ->
  exists k',
    MoodFrame.run o inputs k = Some k' /\
    MoodFrame.rootBranch k' = MoodFrame.rootBranch k /\
    Forall (fun part =>
              MoodParticles.life part
              <= bound - 1.6 * inject_Z (Z.of_nat (length inputs)))
           (moodStore (MoodFrame.live k')) /\
    (inputs <> [] ->
     Forall (fun part => 0 < MoodParticles.life part)
            (moodStore (MoodFrame.live k'))).
Proof.
  induction inputs as [|[[T mood] w] inputs IH]; intros bound k Hin Hcur Hlife.
  - exists k. split; [reflexivity|]. split; [reflexivity|].
    split; [|intros Hne; contradiction].
    eapply Forall_impl; [exact Hlife|]. intros p Hp. cbn in *.
    assert (Z0 : inject_Z 0 == 0) by reflexivity. rewrite Z0. lra.
  - inversion Hin as [|? ? Hmood Hrest]; subst.
    unfold MoodFrame.moodOf in Hmood. cbn [fst snd] in Hmood.
    pose proof (smoothMood_between (-0.24) 0.5 _ mood Hcur Hmood) as Hband.
    destruct (mood_quiet_frame o T mood w k Hband)
      as (k1 & events & calls & Edraw & Em & Er & Es).
    assert (Hlife1 : Forall (fun part => MoodParticles.life part <= bound - 1.6)
                            (moodStore (MoodFrame.live k1))).
    { rewrite Es. apply mood_survivors_life, Hlife. }
    assert (Hcur1 : -0.24 <= MoodFrame.currentMood (MoodFrame.signals k1) <= 0.5)
      by (rewrite Em; exact Hband).
    destruct (IH (bound - 1.6) k1 Hrest Hcur1 Hlife1)
      as (k' & Erun & Er' & Hl & Hpos).
    exists k'. cbn [MoodFrame.run]. rewrite Edraw.
    split; [exact Erun|]. split; [congruence|]. split.
    + eapply Forall_impl; [exact Hl|]. intros p Hp. cbn beta in *.
      assert (Hlen : inject_Z (Z.of_nat (length ((T, mood, w) :: inputs)))
                     == 1 + inject_Z (Z.of_nat (length inputs))).
      { cbn [length]. rewrite Nat2Z.inj_succ, <- Z.add_1_l, inject_Z_plus.
        reflexivity. }
      rewrite Hlen. lra.
    + intros _. destruct inputs as [|i inputs].
      * cbn [MoodFrame.run] in Erun. injection Erun as <-.
        rewrite Es. apply mood_survivors_positive.
      * apply Hpos. discriminate.
Qed.

(** X16.  The mood-only sketch clears itself in the quiet band: when the
    smoothed mood starts between -0.24 and 0.5 and the mood handed to each
    of 160 frames in a row stays there, no frame throws, the tree is kept,
    and the store, which held no particle of more than full life (255), is
    empty at the end, whatever the stages and the winds: nothing is spawned
    in that band and every particle has faded by then. *)
Theorem mood_sketch_clears (o : bool) (inputs : list (Stage * Q * Q))
    (k : MoodFrame.Sketch) :
  length inputs = 160%nat ->
  Forall (fun input => -0.24 <= MoodFrame.moodOf input <= 0.5) inputs ->
  -0.24 <= MoodFrame.currentMood (MoodFrame.signals k) <= 0.5 ->
  Forall (fun part => MoodParticles.life part <= 255)
         (moodStore (MoodFrame.live k)) ->
  exists k',
    MoodFrame.run o inputs k = Some k' /\
    MoodFrame.rootBranch k' = MoodFrame.rootBranch k /\
    moodStore (MoodFrame.live k') = [].
Proof.
  intros Hlen Hin Hcur Hlife.
  destruct (mood_run_fades o inputs 255 k Hin Hcur Hlife)
    as (k' & Erun & Er & Hl & Hpos).
  exists k'. split; [exact Erun|]. split; [exact Er|].
  assert (Hne : inputs <> []) by (intros ->; discriminate Hlen).
  specialize (Hpos Hne). rewrite Hlen in Hl.
  destruct (moodStore (MoodFrame.live k')) as [|a rest]; [reflexivity|].
  inversion Hl as [|? ? Ha _]; subst. inversion Hpos as [|? ? Pa _]; subst.
  assert (Z160 : inject_Z (Z.of_nat 160) == 160) by reflexivity.
  rewrite Z160 in Ha. lra.
Qed.

(** [p.setup] of the mood-only variant builds its tree. *)
Lemma mood_rebuild_built (T : Stage) (k : MoodFrame.Sketch) :
  (forall i, 0 <= rnd T i < 1) ->
  exists root d,
    MoodFrame.rebuild T k
    = Some (MoodFrame.mkSketch (MoodFrame.signals k) (Some root)
              (mkMoodLive d (moodTicks (MoodFrame.live k))
                          (moodStore (MoodFrame.live k)))) /\
    Skeleton.builtAt 0 (S Skeleton.MAX_DEPTH) root.
Proof.
  intros rnd_range.
  destruct (createBranch_spec (rnd T) rnd_range Skeleton.MAX_DEPTH 0
              (moodDraws (MoodFrame.live k)) eq_refl) as (b & d & E & B).
  exists (Skeleton.setLenThick b
            (height (env T) * (if width (env T) <? 600 then 0.22 else 0.26))
            (if width (env T) <? 600 then 18 else 28)), d.
  split.
  - unfold MoodFrame.rebuild, Skeleton.buildTreeSkeleton, bind. rewrite E.
    reflexivity.
  - apply builtAt_setLenThick, B.
Qed.

Lemma mood_sketch_clears_witness :
  exists k,
    sampleMoodSketch = Some k /\
    (exists root, MoodFrame.rootBranch k = Some root) /\
    moodStore (MoodFrame.live k) = sampleDeadLeaves /\
    exists k',
      MoodFrame.run true (repeat (SampleFrame.stage, 0.4, 0.3) 160) k = Some k' /\
      MoodFrame.rootBranch k' = MoodFrame.rootBranch k /\
      moodStore (MoodFrame.live k') = [].
Proof.
  destruct (mood_rebuild_built SampleFrame.stage MoodFrame.created
              sample_rnd_range) as (root & d & E & _).
  unfold sampleMoodSketch. rewrite E. cbn [option_map].
  eexists. split; [reflexivity|].
  split; [exists root; reflexivity|]. split; [reflexivity|].
  apply (mood_sketch_clears true (repeat (SampleFrame.stage, 0.4, 0.3) 160)).
  - reflexivity.
  - apply Forall_forall. intros input Hin. apply list_elem_of_In in Hin.
    apply repeat_spec in Hin. subst input.
    split; [discriminate | discriminate].
  - split; [discriminate | discriminate].
  - vm_compute. repeat constructor. discriminate.
Defined.

(** ** What it spawns *)

(** X17.  With draws in [[0, 1)], a particle of the mood-only variant
    spawned on screen is of the kind asked for, is put at the place asked
    for, and has full life, a size between 7 and 12 and no acceleration; a
    dead leaf is brown, starts falling at a speed between 1 and 3, and
    takes 10 draws; a live one is pink or green, starts falling at a speed
    between 0 and 0.5, and takes 11 draws.  The ranges are closed: the
    upper end is not reached in exact arithmetic and can be on binary64
    ([random64_reaches_top]), which never leaves them ([random2R_range]). *)
Theorem mood_spawned_particle_ranges (rnd : nat -> Q) (E : Env)
    (currentWind px py : Q) (dead : bool)
    (particles : list MoodParticles.Particle) (k : nat) :
  (forall i, 0 <= rnd i < 1) ->
  MoodParticles.offScreen E px py = false ->
  exists part,
    MoodParticles.spawnFallingParticle rnd E currentWind px py dead particles k
    = (particles ++ [part], (k + (if dead then 10 else 11))%nat) /\
    MoodParticles.isDead part = dead /\
    MoodParticles.pos part = createVector px py /\
    MoodParticles.acc part = createVector 0 0 /\
    MoodParticles.life part = 255 /\
    7 <= MoodParticles.size part <= 12 /\
    (if dead
     then 1 <= y (MoodParticles.vel part) <= 3 /\
          MoodParticles.color part = COL_LEAF_DEAD
     else 0 <= y (MoodParticles.vel part) <= 0.5 /\
          (MoodParticles.color part = COL_FLOWER_PINK \/
           MoodParticles.color part = COL_LEAF_TENDER)).
Proof.
  intros Hrnd Hon.
  unfold MoodParticles.spawnFallingParticle. rewrite Hon.
  pose proof (Hrnd (S k)). pose proof (Hrnd (S (S k))).
  pose proof (Hrnd (S (S (S k)))).
  destruct dead; unfold bind, random2, random1, rand, ret, bind; eexists.
  - split.
    { replace (k + 10)%nat with (S (S (S (S (S (S (S (S (S (S k))))))))))
        by lia.
      reflexivity. }
    cbn [MoodParticles.isDead MoodParticles.pos MoodParticles.acc
         MoodParticles.life MoodParticles.size MoodParticles.vel
         MoodParticles.color x y].
    split; [reflexivity|]. split; [reflexivity|]. split; [reflexivity|].
    split; [reflexivity|].
    split; [lra|]. split; [lra | reflexivity].
  - split.
    { replace (k + 11)%nat with (S (S (S (S (S (S (S (S (S (S (S k)))))))))))
        by lia.
      reflexivity. }
    cbn [MoodParticles.isDead MoodParticles.pos MoodParticles.acc
         MoodParticles.life MoodParticles.size MoodParticles.vel
         MoodParticles.color x y].
    split; [reflexivity|]. split; [reflexivity|]. split; [reflexivity|].
    split; [reflexivity|].
    split; [lra|]. split; [lra|].
    destruct (rnd (S (S k)) * 1 >? 0.5); [left | right]; reflexivity.
Qed.

Lemma mood_spawned_particle_ranges_witness :
  exists part,
    MoodParticles.spawnFallingParticle Sample.rnd Sample.env 0 400 100 true
                                       [] 0%nat
    = ([] ++ [part], (0 + 10)%nat) /\
    MoodParticles.isDead part = true /\
    1 <= y (MoodParticles.vel part) <= 3.
Proof.
  destruct (mood_spawned_particle_ranges Sample.rnd Sample.env 0 400 100 true
              [] 0 sample_rnd_range eq_refl)
    as (part & E & D & _ & _ & _ & _ & V & _).
  exists part. split; [exact E|]. split; [exact D | exact V].
Defined.

(* ================================================================= *)
(** * Part VI: more on the signals *)
(* ================================================================= *)

(** ** Blooms of an arbitrary run *)

Lemma bloom_after_latch (o : bool) (moods : list Q) :
  forall (f : nat) (b : bool) (i : nat),
  In (i, bloom) (snd (Detector.feedFrom o f b moods)) ->
  (f <= i)%nat /\
  (b = true ->
   exists k m, (f <= k < i)%nat /\ moods !! (k - f)%nat = Some m /\ m < 0.2).
Proof.
  induction moods as [|m rest IH]; intros f b i Hin; [contradiction|].
  cbn [Detector.feedFrom] in Hin.
  unfold Detector.eventLogic, bloomLogic in Hin.
  destruct (negb b && (m >? 0.6)) eqn:Efire.
  - apply andb_true_iff in Efire. destruct Efire as [Eb _].
    apply negb_true_iff in Eb. subst b.
    specialize (IH (S f) true i).
    destruct (Detector.feedFrom o (S f) true rest) as [final later].
    cbn [snd] in *. apply in_app_or in Hin. destruct Hin as [Hin|Hin].
    + unfold stamp, emit in Hin. destruct o; [|contradiction].
      destruct Hin as [Hin|[]]. injection Hin as <-.
      split; [lia | discriminate].
    + destruct (IH Hin) as [Hi _]. split; [lia | discriminate].
  - destruct (b && (m <? 0.2)) eqn:Ereset.
    + apply andb_true_iff in Ereset. destruct Ereset as [_ Em].
      apply Qlt_bool_iff in Em.
      specialize (IH (S f) false i).
      destruct (Detector.feedFrom o (S f) false rest) as [final later].
      cbn [snd stamp map app] in *. destruct (IH Hin) as [Hi _].
      split; [lia|]. intros _. exists f, m.
      split; [lia|]. split; [|exact Em].
      rewrite Nat.sub_diag. reflexivity.
    + specialize (IH (S f) b i).
      destruct (Detector.feedFrom o (S f) b rest) as [final later].
      cbn [snd stamp map app] in *. destruct (IH Hin) as [Hi Hk].
      split; [lia|]. intros Hb. destruct (Hk Hb) as (k & m' & Hr & El & Hm).
      exists k, m'. split; [lia|]. split; [|exact Hm].
      replace (k - f)%nat with (S (k - S f)) by lia. exact El.
Qed.

Lemma bloom_fired_high (o : bool) (moods : list Q) :
  forall (f : nat) (b : bool) (i : nat),
  In (i, bloom) (snd (Detector.feedFrom o f b moods)) ->
  exists m, moods !! (i - f)%nat = Some m /\ 0.6 < m.
Proof.
  induction moods as [|m rest IH]; intros f b i Hin; [contradiction|].
  pose proof (bloom_after_latch o (m :: rest) f b i Hin) as [Hf _].
  cbn [Detector.feedFrom] in Hin.
  unfold Detector.eventLogic, bloomLogic in Hin.
  assert (Hlater : forall b',
            In (i, bloom) (snd (Detector.feedFrom o (S f) b' rest)) ->
            exists m0, (m :: rest) !! (i - f)%nat = Some m0 /\ 0.6 < m0).
  { intros b' H'.
    pose proof (bloom_after_latch o rest (S f) b' i H') as [Hi _].
    destruct (IH (S f) b' i H') as (m0 & El & Hm).
    exists m0. split; [|exact Hm].
    replace (i - f)%nat with (S (i - S f)) by lia. exact El. }
  destruct (negb b && (m >? 0.6)) eqn:Efire.
  - apply andb_true_iff in Efire. destruct Efire as [_ Em].
    apply Qlt_bool_iff in Em.
    specialize (Hlater true).
    destruct (Detector.feedFrom o (S f) true rest) as [final later].
    cbn [snd] in *. apply in_app_or in Hin. destruct Hin as [Hin|Hin].
    + unfold stamp, emit in Hin. destruct o; [|contradiction].
      destruct Hin as [Hin|[]]. injection Hin as <-.
      exists m. rewrite Nat.sub_diag. split; [reflexivity | exact Em].
    + apply Hlater, Hin.
  - destruct (b && (m <? 0.2)).
    + specialize (Hlater false).
      destruct (Detector.feedFrom o (S f) false rest) as [final later].
      cbn [snd stamp map app] in *. apply Hlater, Hin.
    + specialize (Hlater b).
      destruct (Detector.feedFrom o (S f) b rest) as [final later].
      cbn [snd stamp map app] in *. apply Hlater, Hin.
Qed.

Lemma blooms_apart (o : bool) (moods : list Q) :
  forall (f : nat) (b : bool) (i j : nat),
  In (i, bloom) (snd (Detector.feedFrom o f b moods)) ->
  In (j, bloom) (snd (Detector.feedFrom o f b moods)) ->
  (i < j)%nat ->
  exists k m, (i < k < j)%nat /\ moods !! (k - f)%nat = Some m /\ m < 0.2.
Proof.
  induction moods as [|m rest IH]; intros f b i j Hi Hj Hij; [contradiction|].
  cbn [Detector.feedFrom] in Hi, Hj.
  unfold Detector.eventLogic, bloomLogic in Hi, Hj.
  assert (Hlater : forall b',
            In (i, bloom) (snd (Detector.feedFrom o (S f) b' rest)) ->
            In (j, bloom) (snd (Detector.feedFrom o (S f) b' rest)) ->
            exists k m0, (i < k < j)%nat /\
                         (m :: rest) !! (k - f)%nat = Some m0 /\ m0 < 0.2).
  { intros b' Hi' Hj'.
    pose proof (bloom_after_latch o rest (S f) b' i Hi') as [Hfi _].
    destruct (IH (S f) b' i j Hi' Hj' Hij) as (k & m0 & Hr & El & Hm).
    exists k, m0. split; [exact Hr|]. split; [|exact Hm].
    replace (k - f)%nat with (S (k - S f)) by lia. exact El. }
  destruct (negb b && (m >? 0.6)).
  - specialize (Hlater true).
    pose proof (bloom_after_latch o rest (S f) true) as Hlatch.
    destruct (Detector.feedFrom o (S f) true rest) as [final later].
    cbn [snd] in *.
    apply in_app_or in Hi. apply in_app_or in Hj.
    assert (Hstamp : forall n, In (n, bloom) (stamp f (emit o bloom)) -> n = f).
    { intros n Hn. unfold stamp, emit in Hn. destruct o; [|contradiction].
      destruct Hn as [Hn|[]]. injection Hn as <-. reflexivity. }
    destruct Hj as [Hj|Hj].
    + apply Hstamp in Hj. subst j.
      destruct Hi as [Hi|Hi]; [apply Hstamp in Hi; lia|].
      destruct (Hlatch i Hi) as [Hfi _]. lia.
    + destruct Hi as [Hi|Hi]; [|apply Hlater; assumption].
      apply Hstamp in Hi. subst i.
      destruct (Hlatch j Hj) as [_ Hk].
      destruct (Hk eq_refl) as (k & m0 & Hr & El & Hm).
      exists k, m0. split; [lia|]. split; [|exact Hm].
      replace (k - f)%nat with (S (k - S f)) by lia. exact El.
  - destruct (b && (m <? 0.2)).
    + specialize (Hlater false).
      destruct (Detector.feedFrom o (S f) false rest) as [final later].
      cbn [snd stamp map app] in *. apply Hlater; assumption.
    + specialize (Hlater b).
      destruct (Detector.feedFrom o (S f) b rest) as [final later].
      cbn [snd stamp map app] in *. apply Hlater; assumption.
Qed.

(** X18.  Whatever the run of smoothed moods and the latch it starts from,
    a [bloom] is emitted only at a frame whose mood exceeds 0.6; before it
    lies a frame whose mood is below 0.2 when the latch was set at the
    start, and between it and every earlier [bloom] lies a frame whose mood is
    below 0.2: a mood that hovers around 0.6 is counted once. *)
Theorem blooms_need_a_reset (o : bool) (b : bool) (moods : list Q) (j : nat) :
  In (j, bloom) (snd (Detector.feedFrom o 0 b moods)) ->
  (exists m, moods !! j = Some m /\ 0.6 < m) /\
  (b = true ->
   exists k m, (k < j)%nat /\ moods !! k = Some m /\ m < 0.2) /\
  (forall i : nat,
     In (i, bloom) (snd (Detector.feedFrom o 0 b moods)) ->
     (i < j)%nat ->
     exists k m, (i < k < j)%nat /\ moods !! k = Some m /\ m < 0.2).
Proof.
  intros Hj.
  pose proof (bloom_fired_high o moods 0 b j Hj) as Fj.
  rewrite Nat.sub_0_r in Fj. split; [exact Fj|]. split.
  - intros Hb.
    destruct (bloom_after_latch o moods 0 b j Hj) as [_ Hk].
    destruct (Hk Hb) as (k & m & Hr & El & Hm).
    rewrite Nat.sub_0_r in El. exists k, m.
    split; [lia|]. split; assumption.
  - intros i Hi Hij.
    destruct (blooms_apart o moods 0 b i j Hi Hj Hij) as (k & m & Hr & El & Hm).
    rewrite Nat.sub_0_r in El. exists k, m. auto.
Qed.

Lemma blooms_need_a_reset_witness :
  (exists m, [0.7; 0.65; 0.1; 0.7] !! 3%nat = Some m /\ 0.6 < m) /\
  (exists k m,
     (0 < k < 3)%nat /\ [0.7; 0.65; 0.1; 0.7] !! k = Some m /\ m < 0.2) /\
  (exists m, [0.7; 0.3; 0.9] !! 0%nat = Some m /\ 0.6 < m).
Proof.
  destruct (blooms_need_a_reset true false [0.7; 0.65; 0.1; 0.7] 3)
    as (H1 & _ & H2); [right; left; reflexivity|].
  destruct (blooms_need_a_reset true false [0.7; 0.3; 0.9] 0)
    as (H3 & _); [left; reflexivity|].
  split; [exact H1|]. split; [|exact H3].
  apply (H2 0%nat); [left; reflexivity | lia].
Defined.

(** ** Signals between the bounds of their inputs *)

Lemma lerpR_between (fl : Q -> Q) (R lo hi c t a : Q) :
  rounds fl R ->
  - R <= 4 * lo -> 4 * hi <= R ->
  fl c == c -> fl t == t -> 0 <= a <= 1 # 4 ->
  lo <= c <= hi -> lo <= t <= hi ->
  lo <= lerpR fl c t a <= hi /\ fl (lerpR fl c t a) == lerpR fl c t a.
Proof.
  intros Hfl Rlo Rhi Fc Ft A [C1 C2] [T1 T2].
  destruct (Qlt_le_dec t c) as [H|H].
  - destruct (lerpR_down fl R c t a Hfl Fc Ft A ltac:(lra) ltac:(lra)
                ltac:(lra)) as [[B1 B2] B3].
    split; [lra | exact B3].
  - destruct (lerpR_up fl R c t a Hfl Fc Ft A ltac:(lra) ltac:(lra) H)
      as [[B1 B2] B3].
    split; [lra | exact B3].
Qed.

(** In exact arithmetic these are the signals of [p.draw]. *)
Lemma drawFrames_signals (o : bool) (inputs : list (Q * Q)) :
  forall (frame : nat) (s : Detector.Signals),
  signalsAfterR (fun x => x) inputs
                (Detector.currentMood s, Detector.currentWind s)
  = (Detector.currentMood (fst (Detector.drawFrames o frame s inputs)),
     Detector.currentWind (fst (Detector.drawFrames o frame s inputs))).
Proof.
  induction inputs as [|[mood w] inputs IH]; intros frame s; [reflexivity|].
  cbn [signalsAfterR Detector.drawFrames fst snd].
  destruct (draw_signals_mood o s mood w) as [Em Ew].
  destruct (Detector.drawSignals o s mood w) as [s' evs]. cbn [fst] in *.
  specialize (IH (S frame) s').
  destruct (Detector.drawFrames o (S frame) s' inputs) as [final later].
  cbn [fst] in *. rewrite <- IH, Em, Ew. reflexivity.
Qed.

(** X19.  The smoothed signals never overshoot.  In a number format whose
    rounding [fl] keeps the order, leaves 0 and its own results as they are
    and at most doubles a number (binary64 up to its largest finite number,
    [rounds_round64]; exact arithmetic with [fl] the identity, where these
    are the signals of [p.draw], [drawFrames_signals]), over any run of frames
    whose moods lie in [[lo, hi]] and whose winds lie in [[wlo, whi]], a
    smoothed mood and a smoothed wind that start between these bounds are
    still between them at the end, as long as the bounds are four times
    smaller than [R], so that no difference overflows. *)
Theorem signals_stay_in_range (fl : Q -> Q) (R lo hi wlo whi : Q)
    (inputs : list (Q * Q)) (currentMood currentWind : Q) :
  rounds fl R -> 1 <= R ->
  - R <= 4 * lo -> 4 * hi <= R -> - R <= 4 * wlo -> 4 * whi <= R ->
  Forall (fun input =>
            (fl (fst input) == fst input /\ lo <= fst input <= hi) /\
            (fl (snd input) == snd input /\ wlo <= snd input <= whi))
         inputs ->
  fl currentMood == currentMood -> lo <= currentMood <= hi ->
  fl currentWind == currentWind -> wlo <= currentWind <= whi ->
  lo <= fst (signalsAfterR fl inputs (currentMood, currentWind)) <= hi /\
  wlo <= snd (signalsAfterR fl inputs (currentMood, currentWind)) <= whi.
Proof.
  intros Hfl HR Rlo Rhi Rwlo Rwhi Hin.
  assert (A1 : 0 <= fl 0.1 <= 1 # 4) by (apply (fl_amt fl R 0.1 Hfl HR); lra).
  assert (A2 : 0 <= fl 0.12 <= 1 # 4) by (apply (fl_amt fl R 0.12 Hfl HR); lra).
  revert currentMood currentWind.
  induction Hin as [|[mood w] inputs [[Fm Hm] [Fw Hw]] _ IH];
    intros cm cw Fcm Hcm Fcw Hcw.
  - split; assumption.
  - cbn [signalsAfterR fst snd] in *.
    destruct (lerpR_between fl R lo hi cm mood (fl 0.1) Hfl Rlo Rhi Fcm Fm A1
                Hcm Hm) as [B1 B2].
    destruct (lerpR_between fl R wlo whi cw w (fl 0.12) Hfl Rwlo Rwhi Fcw Fw A2
                Hcw Hw) as [B3 B4].
    apply IH; assumption.
Qed.

Lemma signals_stay_in_range_witness :
  -1 <= fst (signalsAfterR round64 [(1, 0.5); (-1, 1); (0.25, 0)] (0, 0)) <= 1 /\
  0 <= snd (signalsAfterR round64 [(1, 0.5); (-1, 1); (0.25, 0)] (0, 0)) <= 1.
Proof.
  apply (signals_stay_in_range round64 maxDouble (-1) 1 0 1
           [(1, 0.5); (-1, 1); (0.25, 0)] 0 0 (rounds_round64 maxDouble)).
  - vm_compute. discriminate.
  - vm_compute. discriminate.
  - vm_compute. discriminate.
  - vm_compute. discriminate.
  - vm_compute. discriminate.
  - repeat constructor; cbn [fst snd];
      ((vm_compute; reflexivity) || (vm_compute; discriminate)).
  - reflexivity.
  - split; discriminate.
  - reflexivity.
  - split; discriminate.
Defined.
